(** * Prioritized experience replay (mlpack, [prioritized_replay.hpp])

    A shallow embedding of the class [PrioritizedReplay] and of the sum tree
    it drives, followed by the properties of the replay buffer that the
    specification states.

    - [size_t] and [arma::uword] values are integers in [Z] with the 64-bit
      wrap-around written out; [int] is a 32-bit signed integer whose
      overflow is undefined behaviour;
    - [double] values are IEEE 754 binary64 numbers ([PrimFloat.float]), so
      that every definition can be run on concrete inputs;
    - Armadillo vectors and matrices are lists indexed by [Z.to_nat], with
      the bounds checks of the checked accessors written out;
    - a method that mutates [this], the global random generator or its
      output parameters is a state transformer that also reports the
      exception it ends with, if any;
    - what the header uses and does not define is a parameter of the
      methods (the environment's state and action types with their
      encodings, [pow], [arma::randu]), except the class [SumTree], which
      is modelled from the specification. *)

From Stdlib Require Import ZArith Lia Bool.
From Stdlib Require Import Floats Uint63.
From stdpp Require Import base list.

Open Scope Z_scope.

(** ** Machine numbers *)

Module Machine.

Definition wrap64 (z : Z) : Z := z mod 2 ^ 64.

Definition INT_MAX : Z := 2 ^ 31 - 1.

Abbreviation double := float (only parsing).

(** Conversion of a [size_t] to [double] (round to nearest, ties to even).
    Values below [2^63] fit the primitive conversion; above, the value is
    halved with a sticky low bit, converted and doubled, which rounds the
    same way. *)
Definition of_size_t (z : Z) : double :=
  if z <? 2 ^ 63 then PrimFloat.of_uint63 (Uint63.of_Z z)
  else (2 * PrimFloat.of_uint63 (Uint63.of_Z (Z.lor (z / 2) (z mod 2))))%float.

(** [std::max(a, b)] is [(a < b) ? b : a]. *)
Definition dmax (a b : double) : double := if (a <? b)%float then b else a.

(** [pow] of the C library is not part of the repository: the buffer takes
    it as a parameter.  [c_pow] stands for it in the concrete runs of this
    file.  It returns 1 for the base 1, whatever the exponent; for an
    exponent that is an integer it multiplies that many factors (and takes
    the reciprocal for a negative exponent), which is exact on the small
    arguments used below and agrees with the C standard there:
    [pow(3, 2) = 9], [pow(2, -1) = 0.5], [pow(+0, -1) = +inf]; with the
    exponent -60 of the underflow run it is the C library's value up to
    rounding, which is all that run needs.  Any other argument yields
    NaN. *)
Fixpoint pow_pos (x : double) (n : nat) : double :=
  match n with
  | O => 1%float
  | S n' => (x * pow_pos x n')%float
  end.

Definition c_pow_int (x : double) (n : Z) : double :=
  if n <? 0 then (1 / pow_pos x (Z.to_nat (- n)))%float
  else pow_pos x (Z.to_nat n).

(** An exponent that is an integer, read off the binary representation. *)
Definition integer_value (y : double) : option Z :=
  match Prim2SF y with
  | S754_zero _ => Some 0
  | S754_finite s m e =>
      let sign := if s then -1 else 1 in
      if 0 <=? e then Some (sign * (Z.pos m * 2 ^ e))
      else if Z.pos m mod 2 ^ (- e) =? 0 then Some (sign * (Z.pos m / 2 ^ (- e)))
      else None
  | _ => None
  end.

Definition c_pow (x y : double) : double :=
  if (x =? 1)%float then 1%float
  else match integer_value y with
       | Some n => c_pow_int x n
       | None => nan
       end.

(** A double that is neither zero, nor infinite, nor NaN. *)
Definition finite_nonzero (x : double) : bool :=
  match Prim2SF x with
  | S754_finite _ _ _ => true
  | _ => false
  end.

(** A double that is finite and greater than zero. *)
Definition finite_positive (x : double) : bool :=
  match Prim2SF x with
  | S754_finite false _ _ => true
  | _ => false
  end.

(** The place of a double in the order of the doubles, as an integer: a
    finite value counted in units of [2^-1074] (the smallest positive
    double), the zeros at 0, the infinities beyond every finite value.  On
    doubles that are not NaN, [<] and [<=] are the order of the ranks
    ([ltb_rank], [leb_rank]). *)
Definition ord (f : spec_float) : Z :=
  match f with
  | S754_zero _ => 0
  | S754_nan => 0
  | S754_infinity s => if s then - 2 ^ 2100 else 2 ^ 2100
  | S754_finite s m e =>
      if s then - (Z.pos m * 2 ^ (e + 1074)) else Z.pos m * 2 ^ (e + 1074)
  end.

Definition rank (x : double) : Z := ord (Prim2SF x).

(** The rank of 1.0. *)
Definition one_rank : Z := 2 ^ 1074.

End Machine.
Import Machine.

(** ** Exceptions and the state-and-exception monad *)

(** The kinds of failure.  The first two are the specification's names for
    failures that the source never raises.  [IndexOutOfRange] is the
    [std::logic_error] of a bounds-checked Armadillo accessor and the
    contract violation of the sum tree; [DimensionMismatch] is Armadillo's
    error for a copy into a column of another length; [LogicError] is any
    other Armadillo logic error; [UndefinedBehaviour] marks signed overflow
    and unchecked out-of-bounds reads. *)
Inductive error : Type :=
  | InvalidConfiguration
  | EmptyBufferError
  | IndexOutOfRange
  | DimensionMismatch
  | LogicError
  | UndefinedBehaviour.

Inductive result (A : Type) : Type :=
  | Ok (a : A)
  | Err (e : error).
Arguments Ok {A} a.
Arguments Err {A} e.

Definition is_ok {A} (r : result A) : bool :=
  match r with Ok _ => true | Err _ => false end.

(** A computation over a state [S]: the state is kept when an exception is
    thrown, as a C++ object keeps the writes made before the throw. *)
Definition M (S A : Type) : Type := S -> result A * S.

Definition ret {S A} (a : A) : M S A := fun s => (Ok a, s).

Definition bind {S A B} (m : M S A) (k : A -> M S B) : M S B :=
  fun s => match m s with
           | (Ok a, s') => k a s'
           | (Err e, s') => (Err e, s')
           end.

Definition get {S} : M S S := fun s => (Ok s, s).

Definition modify {S} (f : S -> S) : M S unit := fun s => (Ok tt, f s).

(** Lifting of a pure fallible step. *)
Definition lift {S A} (r : result A) : M S A := fun s => (r, s).

Notation "'do' x <- m ; k" := (bind m (fun x => k))
  (at level 10, x name, m at level 100, k at level 200).
Notation "m ;; k" := (bind m (fun _ => k))
  (at level 100, k at level 200, right associativity).

Definition rbind {A B} (r : result A) (k : A -> result B) : result B :=
  match r with Ok a => k a | Err e => Err e end.

(** ** Armadillo containers *)

Module Arma.

(** [v(i)]: checked read. *)
Definition at_ {A} (v : list A) (i : Z) : result A :=
  if (0 <=? i) && (i <? Z.of_nat (length v)) then
    match v !! Z.to_nat i with Some x => Ok x | None => Err IndexOutOfRange end
  else Err IndexOutOfRange.

(** [v(i) = x]: checked write. *)
Definition set_at {A} (v : list A) (i : Z) (x : A) : result (list A) :=
  if (0 <=? i) && (i <? Z.of_nat (length v)) then Ok (<[Z.to_nat i := x]> v)
  else Err IndexOutOfRange.

(** [v[i]]: unchecked read. *)
Definition index {A} (v : list A) (i : Z) : result A :=
  if (0 <=? i) && (i <? Z.of_nat (length v)) then
    match v !! Z.to_nat i with Some x => Ok x | None => Err UndefinedBehaviour end
  else Err UndefinedBehaviour.

(** A matrix of doubles, stored by columns. *)
Record mat : Type := { n_rows : Z; columns : list (list double) }.

Definition n_cols (m : mat) : Z := Z.of_nat (length (columns m)).

(** [mat(rows, cols)], zero-filled as Armadillo does by default since
    version 10.5 (earlier versions leave the content indeterminate; no
    property below reads a slot before it is written). *)
Definition mat_new (rows cols : Z) : mat :=
  {| n_rows := rows;
     columns := replicate (Z.to_nat cols) (replicate (Z.to_nat rows) 0%float) |}.

(** [m.col(i) = c]. *)
Definition set_col (m : mat) (i : Z) (c : list double) : result mat :=
  if (0 <=? i) && (i <? n_cols m) then
    if Z.of_nat (length c) =? n_rows m then
      Ok {| n_rows := n_rows m; columns := <[Z.to_nat i := c]> (columns m) |}
    else Err DimensionMismatch
  else Err IndexOutOfRange.

(** [v.elem(indices)] and [m.cols(indices)]: gather, every index checked.
    The gather is modelled by its value.  Armadillo fills the destination of
    the assignment as it goes: when an index is out of range, the
    destination has by then been resized and holds the entries copied before
    the throw.  Under [assign] a gather that throws leaves the destination
    field as it was; for that reason no property below says what a
    destination holds after its own gather has thrown. *)
Fixpoint elem {A} (v : list A) (indices : list Z) : result (list A) :=
  match indices with
  | [] => Ok []
  | i :: rest =>
      rbind (at_ v i) (fun x => rbind (elem v rest) (fun xs => Ok (x :: xs)))
  end.

Definition cols (m : mat) (indices : list Z) : result mat :=
  rbind (elem (columns m) indices)
        (fun cs => Ok {| n_rows := n_rows m; columns := cs |}).

(** [v.max()]: a logic error on an empty vector.  Otherwise Armadillo's
    loop: it starts from minus infinity and takes an entry when the entry
    is greater than the maximum so far ([if (x > max_val) max_val = x]),
    which is one step of [dmax]; a NaN is therefore never taken, and a
    vector of NaNs has the maximum minus infinity. *)
Definition max (v : list double) : result double :=
  match v with
  | [] => Err LogicError
  | _ :: _ => Ok (fold_left dmax v neg_infinity)
  end.

End Arma.

(** ** The sum tree *)

Module SumTree.

(** Modelled from the spec: the class [SumTree] that [PrioritizedReplay]
    instantiates is not among the sources.  The definitions below follow
    section 4.1 of the specification (PrioritySumTree): an array of
    [2 * size] doubles, the root at position 1, the leaves at
    [size .. 2 * size - 1], where [size] is the smallest power of two that
    is at least the capacity the tree was constructed for. *)
Record t : Type := { capacity : Z; size : Z; tree : list double }.

Definition levels (s : t) : nat := Z.to_nat (Z.log2 (size s)).

Definition node (a : list double) (pos : Z) : double :=
  default 0%float (a !! Z.to_nat pos).

(** Modelled from the spec: construction for a given capacity, every node
    zero. *)
Definition make (n : Z) : t :=
  let sz := 2 ^ Z.log2_up n in
  {| capacity := n; size := sz; tree := replicate (Z.to_nat (2 * sz)) 0%float |}.

Definition in_range (s : t) (i : Z) : bool := (0 <=? i) && (i <? capacity s).

(** Modelled from the spec: after the leaf is set, every ancestor is
    recomputed as the sum of its two children, up to the root. *)
Fixpoint propagate (lv : nat) (pos : Z) (a : list double) : list double :=
  match lv with
  | O => a
  | S lv' =>
      let parent := pos / 2 in
      propagate lv' parent
        (<[Z.to_nat parent := (node a (2 * parent) + node a (2 * parent + 1))%float]> a)
  end.

(** Modelled from the spec: [Update(index, value)]; an index outside
    [0 .. capacity - 1] is a contract violation. *)
Definition Update (s : t) (index : Z) (value : double) : result t :=
  if in_range s index then
    let pos := size s + index in
    Ok {| capacity := capacity s; size := size s;
          tree := propagate (levels s) pos (<[Z.to_nat pos := value]> (tree s)) |}
  else Err IndexOutOfRange.

(** Modelled from the spec: the value of one leaf (the read [idxSum[i]]). *)
Definition leaf (s : t) (index : Z) : result double :=
  if in_range s index then Ok (node (tree s) (size s + index))
  else Err IndexOutOfRange.

(** Modelled from the spec: [Total()], the value of the root. *)
Definition Total (s : t) : double := node (tree s) 1.

(** Modelled from the spec: [RangeSum(lo, hi)], the sum of the leaves
    [lo .. hi]; zero on an empty range, a contract violation on an index
    that is no leaf.  The parameter types of the method are not in the
    sources: the arguments are taken as the caller computes them, and the
    property of sampling from a buffer that holds nothing (C4) is stated
    for either answer of the tree. *)
Definition RangeSum (s : t) (lo hi : Z) : result double :=
  if hi <? lo then Ok 0%float
  else if in_range s lo && in_range s hi then
    Ok (fold_left (fun acc i => (acc + node (tree s) (size s + i))%float)
                  (seqZ lo (hi - lo + 1)) 0%float)
  else Err IndexOutOfRange.

(** Modelled from the spec: the descent of [FindPrefixSum] from an internal
    node, one level per step. *)
Fixpoint descend (lv : nat) (a : list double) (nd : Z) (mass : double) : Z :=
  match lv with
  | O => nd
  | S lv' =>
      let left := 2 * nd in
      if (mass <? node a left)%float then descend lv' a left mass
      else descend lv' a (left + 1) (mass - node a left)%float
  end.

(** Modelled from the spec: [FindPrefixSum(mass)]; a mass that equals or
    exceeds the total is clamped to the rightmost valid leaf. *)
Definition FindPrefixSum (s : t) (mass : double) : Z :=
  if (Total s <=? mass)%float then capacity s - 1
  else descend (levels s) (tree s) 1 mass - size s.

End SumTree.

(** ** The replay buffer *)

Module Replay.
Import Arma.

Record PrioritizedReplay : Type := {
  alpha : double;
  max_priority : double;
  idxSum : SumTree.t;
  batchSize : Z;
  capacity : Z;
  position : Z;
  states : mat;
  actions : list Z;
  rewards : list double;
  nextStates : mat;
  isTerminal : list Z;
  full : bool
}.

Definition set_states (v : mat) (b : PrioritizedReplay) : PrioritizedReplay :=
  {| alpha := alpha b; max_priority := max_priority b; idxSum := idxSum b;
     batchSize := batchSize b; capacity := capacity b; position := position b;
     states := v; actions := actions b; rewards := rewards b;
     nextStates := nextStates b; isTerminal := isTerminal b; full := full b |}.

Definition set_actions (v : list Z) (b : PrioritizedReplay) : PrioritizedReplay :=
  {| alpha := alpha b; max_priority := max_priority b; idxSum := idxSum b;
     batchSize := batchSize b; capacity := capacity b; position := position b;
     states := states b; actions := v; rewards := rewards b;
     nextStates := nextStates b; isTerminal := isTerminal b; full := full b |}.

Definition set_rewards (v : list double) (b : PrioritizedReplay) : PrioritizedReplay :=
  {| alpha := alpha b; max_priority := max_priority b; idxSum := idxSum b;
     batchSize := batchSize b; capacity := capacity b; position := position b;
     states := states b; actions := actions b; rewards := v;
     nextStates := nextStates b; isTerminal := isTerminal b; full := full b |}.

Definition set_nextStates (v : mat) (b : PrioritizedReplay) : PrioritizedReplay :=
  {| alpha := alpha b; max_priority := max_priority b; idxSum := idxSum b;
     batchSize := batchSize b; capacity := capacity b; position := position b;
     states := states b; actions := actions b; rewards := rewards b;
     nextStates := v; isTerminal := isTerminal b; full := full b |}.

Definition set_isTerminal (v : list Z) (b : PrioritizedReplay) : PrioritizedReplay :=
  {| alpha := alpha b; max_priority := max_priority b; idxSum := idxSum b;
     batchSize := batchSize b; capacity := capacity b; position := position b;
     states := states b; actions := actions b; rewards := rewards b;
     nextStates := nextStates b; isTerminal := v; full := full b |}.

Definition set_idxSum (v : SumTree.t) (b : PrioritizedReplay) : PrioritizedReplay :=
  {| alpha := alpha b; max_priority := max_priority b; idxSum := v;
     batchSize := batchSize b; capacity := capacity b; position := position b;
     states := states b; actions := actions b; rewards := rewards b;
     nextStates := nextStates b; isTerminal := isTerminal b; full := full b |}.

Definition set_max_priority (v : double) (b : PrioritizedReplay) : PrioritizedReplay :=
  {| alpha := alpha b; max_priority := v; idxSum := idxSum b;
     batchSize := batchSize b; capacity := capacity b; position := position b;
     states := states b; actions := actions b; rewards := rewards b;
     nextStates := nextStates b; isTerminal := isTerminal b; full := full b |}.

Definition set_position (v : Z) (b : PrioritizedReplay) : PrioritizedReplay :=
  {| alpha := alpha b; max_priority := max_priority b; idxSum := idxSum b;
     batchSize := batchSize b; capacity := capacity b; position := v;
     states := states b; actions := actions b; rewards := rewards b;
     nextStates := nextStates b; isTerminal := isTerminal b; full := full b |}.

Definition set_full (v : bool) (b : PrioritizedReplay) : PrioritizedReplay :=
  {| alpha := alpha b; max_priority := max_priority b; idxSum := idxSum b;
     batchSize := batchSize b; capacity := capacity b; position := position b;
     states := states b; actions := actions b; rewards := rewards b;
     nextStates := nextStates b; isTerminal := isTerminal b; full := v |}.

(** One assignment [field = expression]: the expression is evaluated on the
    current object and may throw; the field is written only if it did not. *)
Definition assign {S A} (rhs : S -> result A) (write : A -> S -> S) : M S unit :=
  do s <- get; do a <- lift (rhs s); modify (write a).

(** The loop of the constructor: [int size = 1; while (size < capacity)
    size *= 2;].  The comparison converts [size] to [size_t]; doubling past
    [INT_MAX] is signed overflow, which is undefined behaviour.  [size]
    doubles at most 30 times before that, so the 31 units of fuel that the
    constructor passes are never used up ([grow_spec]). *)
Fixpoint grow (fuel : nat) (size capacity : Z) : result Z :=
  if wrap64 size <? capacity then
    match fuel with
    | O => Err UndefinedBehaviour
    | S fuel' =>
        if size * 2 <=? INT_MAX then grow fuel' (size * 2) capacity
        else Err UndefinedBehaviour
    end
  else Ok size.

(** The constructor: the member initialisers, then the loop, then
    [idxSum = new SumTree(size)].  No argument is checked. *)
Definition new (batchSize capacity : Z) (alpha : double) (dimension : Z)
  : result PrioritizedReplay :=
  rbind (grow 31 1 capacity) (fun size =>
  Ok {| alpha := alpha;
        max_priority := 1%float;
        idxSum := SumTree.make size;
        batchSize := batchSize;
        capacity := capacity;
        position := 0;
        states := mat_new dimension capacity;
        actions := replicate (Z.to_nat capacity) 0;
        rewards := replicate (Z.to_nat capacity) 0%float;
        nextStates := mat_new dimension capacity;
        isTerminal := replicate (Z.to_nat capacity) 0;
        full := false |}).

(** [full ? capacity : position]: the number of slots written so far. *)
Definition upperBound (b : PrioritizedReplay) : Z :=
  if full b then capacity b else position b.

(** The output parameters of [Sample]. *)
Record batch : Type := {
  sampledStates : mat;
  sampledActions : list Z;
  sampledRewards : list double;
  sampledNextStates : mat;
  sampledTerminal : list Z;
  sampledIndices : list Z;
  weights : list double
}.

Definition set_sampledStates (v : mat) (o : batch) : batch :=
  {| sampledStates := v; sampledActions := sampledActions o; sampledRewards := sampledRewards o;
     sampledNextStates := sampledNextStates o; sampledTerminal := sampledTerminal o;
     sampledIndices := sampledIndices o; weights := weights o |}.

Definition set_sampledActions (v : list Z) (o : batch) : batch :=
  {| sampledStates := sampledStates o; sampledActions := v; sampledRewards := sampledRewards o;
     sampledNextStates := sampledNextStates o; sampledTerminal := sampledTerminal o;
     sampledIndices := sampledIndices o; weights := weights o |}.

Definition set_sampledRewards (v : list double) (o : batch) : batch :=
  {| sampledStates := sampledStates o; sampledActions := sampledActions o; sampledRewards := v;
     sampledNextStates := sampledNextStates o; sampledTerminal := sampledTerminal o;
     sampledIndices := sampledIndices o; weights := weights o |}.

Definition set_sampledNextStates (v : mat) (o : batch) : batch :=
  {| sampledStates := sampledStates o; sampledActions := sampledActions o; sampledRewards := sampledRewards o;
     sampledNextStates := v; sampledTerminal := sampledTerminal o;
     sampledIndices := sampledIndices o; weights := weights o |}.

Definition set_sampledTerminal (v : list Z) (o : batch) : batch :=
  {| sampledStates := sampledStates o; sampledActions := sampledActions o; sampledRewards := sampledRewards o;
     sampledNextStates := sampledNextStates o; sampledTerminal := v;
     sampledIndices := sampledIndices o; weights := weights o |}.

Definition set_sampledIndices (v : list Z) (o : batch) : batch :=
  {| sampledStates := sampledStates o; sampledActions := sampledActions o; sampledRewards := sampledRewards o;
     sampledNextStates := sampledNextStates o; sampledTerminal := sampledTerminal o;
     sampledIndices := v; weights := weights o |}.

Definition set_weights (v : list double) (o : batch) : batch :=
  {| sampledStates := sampledStates o; sampledActions := sampledActions o; sampledRewards := sampledRewards o;
     sampledNextStates := sampledNextStates o; sampledTerminal := sampledTerminal o;
     sampledIndices := sampledIndices o; weights := v |}.

Section Methods.

(** The environment's types, the C library's [pow] and Armadillo's random
    generator are parameters. *)
Variable StateType : Type.
Variable Encode : StateType -> list double.
Variable ActionType : Type.
Variable action_code : ActionType -> Z.
Variable pow : double -> double -> double.
Variable Rng : Type.
Variable randu : Rng -> double * Rng.

(** [Store]: the five containers are written at [position], the leaf of
    [position] is set by [idxSum[position] = max_priority * alpha], and the
    cursor advances: [position++; if (position == capacity) { full = true;
    position = 0; }]. *)
Definition Store (state : StateType) (action : ActionType) (reward : double)
    (nextState : StateType) (isEnd : bool) : M PrioritizedReplay unit :=
  assign (fun b => set_col (states b) (position b) (Encode state)) set_states ;;
  assign (fun b => set_at (actions b) (position b) (action_code action)) set_actions ;;
  assign (fun b => set_at (rewards b) (position b) reward) set_rewards ;;
  assign (fun b => set_col (nextStates b) (position b) (Encode nextState))
         set_nextStates ;;
  assign (fun b => set_at (isTerminal b) (position b) (Z.b2z isEnd)) set_isTerminal ;;
  assign (fun b => SumTree.Update (idxSum b) (position b)
                     (max_priority b * alpha b)%float) set_idxSum ;;
  modify (fun b => set_position (wrap64 (position b + 1)) b) ;;
  do b <- get;
  if position b =? capacity b
  then modify (set_full true) ;; modify (set_position 0)
  else ret tt.

(** The loop of [sampleProportional], from stratum [bt] on, [n] strata to
    go: [mass = arma::randu() * sumPerRange + bt * sumPerRange;
    idx = idxSum.findPrefixSum(mass); idxes(bt) = idx;]. *)
Fixpoint strata (b : PrioritizedReplay) (sumPerRange : double) (n : nat) (bt : Z)
  : M Rng (list Z) :=
  match n with
  | O => ret []
  | S n' =>
      do u <- (fun g => let (u, g') := randu g in (Ok u, g'));
      let mass := (u * sumPerRange + of_size_t bt * sumPerRange)%float in
      let idx := SumTree.FindPrefixSum (idxSum b) mass in
      do rest <- strata b sumPerRange n' (bt + 1);
      ret (wrap64 idx :: rest)
  end.

(** [sampleProportional]: [totalSum = idxSum.sum(0, (full ? capacity :
    position) - 1)], the subtraction in [size_t];
    [sumPerRange = totalSum / batchSize]; then the loop. *)
Definition sampleProportional (b : PrioritizedReplay) : M Rng (list Z) :=
  do totalSum <- lift (SumTree.RangeSum (idxSum b) 0 (wrap64 (upperBound b - 1)));
  let sumPerRange := (totalSum / of_size_t (batchSize b))%float in
  strata b sumPerRange (Z.to_nat (batchSize b)) 0.

(** [Sample] mutates its output parameters and the random generator. *)
Definition on_rng {A} (m : M Rng A) : M (batch * Rng) A :=
  fun s => let (r, g') := m (snd s) in (r, (fst s, g')).

Definition out (write : batch -> batch) : M (batch * Rng) unit :=
  modify (fun s => (write (fst s), snd s)).

(** The loop that computes the weights, from [i] on, [n] rounds to go:
    [p_sample = idxSum[sampledIndices[i]] / idxSum.sum();
    weights(i) = pow(num_sample * p_sample, -beta);].  The caller's
    [weights] vector is written in place, with a bounds check. *)
Fixpoint weigh (b : PrioritizedReplay) (beta : double) (num_sample : Z)
    (n : nat) (i : Z) : M (batch * Rng) unit :=
  match n with
  | O => ret tt
  | S n' =>
      (do s <- get;
       do idx <- lift (index (sampledIndices (fst s)) i);
       do l <- lift (SumTree.leaf (idxSum b) idx);
       let p_sample := (l / SumTree.Total (idxSum b))%float in
       do w <- lift (set_at (weights (fst s)) i
                       (pow (of_size_t num_sample * p_sample) (- beta))%float);
       out (set_weights w)) ;;
      weigh b beta num_sample n' (i + 1)
  end.

(** [Sample]: the indices, the five gathers, the weights, and at the end
    [weights /= weights.max()]. *)
Definition Sample (b : PrioritizedReplay) (beta : double) : M (batch * Rng) unit :=
  (do idxes <- on_rng (sampleProportional b); out (set_sampledIndices idxes)) ;;
  assign (fun s => cols (states b) (sampledIndices (fst s)))
         (fun v s => (set_sampledStates v (fst s), snd s)) ;;
  assign (fun s => elem (actions b) (sampledIndices (fst s)))
         (fun v s => (set_sampledActions v (fst s), snd s)) ;;
  assign (fun s => elem (rewards b) (sampledIndices (fst s)))
         (fun v s => (set_sampledRewards v (fst s), snd s)) ;;
  assign (fun s => cols (nextStates b) (sampledIndices (fst s)))
         (fun v s => (set_sampledNextStates v (fst s), snd s)) ;;
  assign (fun s => elem (isTerminal b) (sampledIndices (fst s)))
         (fun v s => (set_sampledTerminal v (fst s), snd s)) ;;
  (do s <- get;
   weigh b beta (upperBound b) (length (sampledIndices (fst s))) 0) ;;
  assign (fun s => Arma.max (weights (fst s)))
         (fun m s => (set_weights (map (fun w => (w / m)%float) (weights (fst s)))
                                  (fst s), snd s)).

(** The loop of [update_priorities], from [i] on, [n] rounds to go:
    [idxSum[indices[i]] = alpha * priorities[i];
    max_priority = max(max_priority, priorities[i]);].  Both arguments are
    vectors of unsigned integers ([arma::uvec]). *)
Fixpoint update_loop (indices priorities : list Z) (n : nat) (i : Z)
  : M PrioritizedReplay unit :=
  match n with
  | O => ret tt
  | S n' =>
      assign (fun b =>
                rbind (index indices i) (fun idx =>
                rbind (index priorities i) (fun p =>
                SumTree.Update (idxSum b) idx (alpha b * of_size_t p)%float)))
             set_idxSum ;;
      assign (fun b =>
                rbind (index priorities i) (fun p =>
                Ok (dmax (max_priority b) (of_size_t p))))
             set_max_priority ;;
      update_loop indices priorities n' (i + 1)
  end.

Definition update_priorities (indices priorities : list Z)
  : M PrioritizedReplay unit :=
  update_loop indices priorities (length indices) 0.

End Methods.

End Replay.

(** * Vocabulary of the properties *)

Import Replay.

(** A sum tree in good shape: [size] is a power of two that covers the
    capacity, and the array has [2 * size] entries. *)
Record tree_wf (t : SumTree.t) : Prop := {
  wf_size : SumTree.size t = 2 ^ Z.of_nat (SumTree.levels t);
  wf_leaves : SumTree.capacity t <= SumTree.size t;
  wf_length : Z.of_nat (length (SumTree.tree t)) = 2 * SumTree.size t;
  wf_small : SumTree.size t <= 2 ^ 30
}.

(** The invariant of a buffer: what the constructor establishes and every
    method keeps, for a positive capacity. *)
Record wf (b : PrioritizedReplay) : Prop := {
  wf_capacity : 0 < capacity b;
  wf_position : 0 <= position b < capacity b;
  wf_tree : tree_wf (idxSum b);
  wf_fits : capacity b <= SumTree.capacity (idxSum b);
  wf_states : Arma.n_cols (states b) = capacity b;
  wf_actions : Z.of_nat (length (actions b)) = capacity b;
  wf_rewards : Z.of_nat (length (rewards b)) = capacity b;
  wf_nextStates : Arma.n_cols (nextStates b) = capacity b;
  wf_isTerminal : Z.of_nat (length (isTerminal b)) = capacity b;
  wf_whole : SumTree.capacity (idxSum b) = SumTree.size (idxSum b)
}.

Module Client.

Section Vocabulary.

Variable StateType : Type.
Variable Encode : StateType -> list double.
Variable ActionType : Type.
Variable action_code : ActionType -> Z.
Variable pow : double -> double -> double.
Variable Rng : Type.
Variable randu : Rng -> double * Rng.

(** One recorded interaction, as the arguments of one call of [Store]. *)
Record transition : Type := {
  t_state : StateType;
  t_action : ActionType;
  t_reward : double;
  t_nextState : StateType;
  t_isEnd : bool
}.

Definition store_one (t : transition) : M PrioritizedReplay unit :=
  Store StateType Encode ActionType action_code
        (t_state t) (t_action t) (t_reward t) (t_nextState t) (t_isEnd t).

(** The calls [Store(t)] for the transitions of a list, in order. *)
Fixpoint store_all (ts : list transition) : M PrioritizedReplay unit :=
  match ts with
  | [] => ret tt
  | t :: rest => store_one t ;; store_all rest
  end.

(** What the five containers hold for one slot. *)
Definition slot (b : PrioritizedReplay) (j : Z)
  : option (list double * Z * double * list double * Z) :=
  match Arma.columns (states b) !! Z.to_nat j, actions b !! Z.to_nat j,
        rewards b !! Z.to_nat j, Arma.columns (nextStates b) !! Z.to_nat j,
        isTerminal b !! Z.to_nat j with
  | Some s, Some a, Some r, Some n, Some e => Some (s, a, r, n, e)
  | _, _, _, _, _ => None
  end.

(** What [Store] writes for a transition. *)
Definition row (t : transition) : list double * Z * double * list double * Z :=
  (Encode (t_state t), action_code (t_action t), t_reward t,
   Encode (t_nextState t), Z.b2z (t_isEnd t)).

(** A transition whose two states encode to vectors of the given dimension. *)
Definition fits (dimension : Z) (t : transition) : Prop :=
  Z.of_nat (length (Encode (t_state t))) = dimension /\
  Z.of_nat (length (Encode (t_nextState t))) = dimension.

(** The weight that [Sample] computes for a sampled leaf of value [l],
    before normalisation. *)
Definition weight_of (b : PrioritizedReplay) (beta l : double) : double :=
  pow (of_size_t (upperBound b) * (l / SumTree.Total (idxSum b)))%float (- beta)%float.

(** A client of the buffer: any sequence of calls of its three public
    methods.  An exception ends the call that threw it, not the run: the
    object stays as the call left it. *)
Inductive call : Type :=
  | CallStore (t : transition)
  | CallSample (beta : double)
  | CallUpdate (indices priorities : list Z).

Record world : Type := { buf : PrioritizedReplay; outs : batch; gen : Rng }.

Definition step (c : call) (w : world) : world :=
  match c with
  | CallStore t =>
      {| buf := snd (store_one t (buf w)); outs := outs w; gen := gen w |}
  | CallSample beta =>
      let s := snd (Sample pow Rng randu (buf w) beta (outs w, gen w)) in
      {| buf := buf w; outs := fst s; gen := snd s |}
  | CallUpdate indices priorities =>
      {| buf := snd (update_priorities indices priorities (buf w));
         outs := outs w; gen := gen w |}
  end.

Definition run (cs : list call) (w : world) : world :=
  fold_left (fun w c => step c w) cs w.

End Vocabulary.

End Client.
Import Client.

(** ** A concrete environment, to run the code *)

Module Demo.

(** States are their own encoding, actions their own code, the C library's
    [pow] is [c_pow], and the random generator replays a script of draws
    (zero once the script is over). *)
Definition script : Type := list double.

Definition next (g : script) : double * script :=
  match g with
  | [] => (0%float, [])
  | u :: rest => (u, rest)
  end.

Definition encode (s : list double) : list double := s.

Definition code (a : Z) : Z := a.

Definition Store := Replay.Store (list double) encode Z code.

Definition sampleProportional := Replay.sampleProportional script next.

Definition Sample := Replay.Sample c_pow script next.

Definition transition : Type := Client.transition (list double) Z.

Definition observe (x : double) (a : Z) : transition :=
  {| t_state := [x]; t_action := a; t_reward := x; t_nextState := [x];
     t_isEnd := false |}.

Definition store_all := Client.store_all (list double) encode Z code.

Definition call : Type := Client.call (list double) Z.

Definition run := Client.run (list double) encode Z code c_pow script next.

(** The buffer of [PrioritizedReplay(batchSize, capacity, alpha, 1)] for a
    capacity that is the power of two [size]. *)
Definition fresh (batchSize size : Z) (alpha : double) : PrioritizedReplay :=
  {| Replay.alpha := alpha;
     max_priority := 1%float;
     idxSum := SumTree.make size;
     Replay.batchSize := batchSize;
     Replay.capacity := size;
     position := 0;
     states := Arma.mat_new 1 size;
     actions := replicate (Z.to_nat size) 0;
     rewards := replicate (Z.to_nat size) 0%float;
     nextStates := Arma.mat_new 1 size;
     isTerminal := replicate (Z.to_nat size) 0;
     full := false |}.

(** Output parameters as a caller declares them, the weights sized to the
    batch. *)
Definition blank (batchSize : Z) : batch :=
  {| sampledStates := Arma.mat_new 0 0;
     sampledActions := [];
     sampledRewards := [];
     sampledNextStates := Arma.mat_new 0 0;
     sampledTerminal := [];
     sampledIndices := [];
     weights := replicate (Z.to_nat batchSize) 0%float |}.

End Demo.

(** ** The random draws of a call *)

Module Draws.

Section Draws.

Variable Rng : Type.
Variable randu : Rng -> double * Rng.

(** The generator after [n] calls of [randu]. *)
Fixpoint rng_after (n : nat) (g : Rng) : Rng :=
  match n with
  | O => g
  | S n' => rng_after n' (snd (randu g))
  end.

(** The value that call number [k] of [randu] returns, counting from 0. *)
Definition draw (k : nat) (g : Rng) : double := fst (randu (rng_after k g)).

End Draws.

End Draws.
Import Draws.

(** ** Buffers used as concrete inputs *)

Module Inputs.

(** A client's run from the buffer of capacity [size] (a power of two) with
    batch size 2 and [alpha = 1]; sampling draws 0.25 and then 0.5. *)
Definition after (size : Z) (cs : list Demo.call) : PrioritizedReplay :=
  buf _ (Demo.run cs {| buf := Demo.fresh 2 size 1; outs := Demo.blank 2;
                        gen := [0.25%float; 0.5%float] |}).

(** Capacity 4, two transitions stored: slots 2 and 3 never written. *)
Definition half_filled : PrioritizedReplay :=
  after 4 [CallStore _ _ (Demo.observe 1 0); CallStore _ _ (Demo.observe 2 0)].

(** Capacity 4, one transition stored and sampled, its priority then set
    to 0. *)
Definition zero_mass : PrioritizedReplay :=
  after 4 [CallStore _ _ (Demo.observe 1 0); CallSample _ _ 1%float;
           CallUpdate _ _ [0] [0]].

(** Capacity 2, full, both slots sampled, the priority of slot 0 then set
    to 3: priorities 3 and 1. *)
Definition full_3_1 : PrioritizedReplay :=
  after 2 [CallStore _ _ (Demo.observe 1 0); CallStore _ _ (Demo.observe 2 0);
           CallSample _ _ 1%float; CallUpdate _ _ [0] [3]].

(** Capacity 2, full, both slots sampled, the priority of slot 1 then set
    to 0: priorities 1 and 0. *)
Definition full_1_0 : PrioritizedReplay :=
  after 2 [CallStore _ _ (Demo.observe 1 0); CallStore _ _ (Demo.observe 2 0);
           CallSample _ _ 1%float; CallUpdate _ _ [1] [0]].

(** The largest double below 1: a draw that [randu] can return. *)
Definition below_one : double := 0x1.fffffffffffffp-1%float.

End Inputs.

(** ** What a batch holds *)

(** What the five output containers of [Sample] hold at one place of the
    batch: the counterpart of [slot]. *)
Definition sampled (o : batch) (k : nat)
  : option (list double * Z * double * list double * Z) :=
  match Arma.columns (sampledStates o) !! k, sampledActions o !! k,
        sampledRewards o !! k, Arma.columns (sampledNextStates o) !! k,
        sampledTerminal o !! k with
  | Some s, Some a, Some r, Some n, Some e => Some (s, a, r, n, e)
  | _, _, _, _, _ => None
  end.

(** A buffer without a slot: what the constructor establishes for
    capacity 0, and every call keeps. *)
Definition no_slot (b : PrioritizedReplay) : Prop :=
  Arma.columns (states b) = [] /\ position b = 0 /\ full b = false.

(** The output parameters of [Sample] once the indices and the five gathers
    have been assigned. *)
Definition gathered (b : PrioritizedReplay) (idxes : list Z) (o' : batch) : Prop :=
  sampledIndices o' = idxes /\
  Arma.cols (states b) idxes = Ok (sampledStates o') /\
  Arma.elem (actions b) idxes = Ok (sampledActions o') /\
  Arma.elem (rewards b) idxes = Ok (sampledRewards o') /\
  Arma.cols (nextStates b) idxes = Ok (sampledNextStates o') /\
  Arma.elem (isTerminal b) idxes = Ok (sampledTerminal o').

(** ** Further concrete inputs *)

Module MoreInputs.

(** The buffer of [PrioritizedReplay(2, 3, 1, 1)]: capacity 3, which is no
    power of two, over a sum tree of 4 leaves. *)
Definition fresh_3 : PrioritizedReplay :=
  {| Replay.alpha := 1%float;
     max_priority := 1%float;
     idxSum := SumTree.make 4;
     Replay.batchSize := 2;
     Replay.capacity := 3;
     position := 0;
     states := Arma.mat_new 1 3;
     actions := replicate 3 0;
     rewards := replicate 3 0%float;
     nextStates := Arma.mat_new 1 3;
     isTerminal := replicate 3 0;
     full := false |}.

(** Capacity 3, two transitions stored. *)
Definition two_of_three : PrioritizedReplay :=
  buf _ (Demo.run [CallStore _ _ (Demo.observe 1 0); CallStore _ _ (Demo.observe 2 0)]
           {| buf := fresh_3; outs := Demo.blank 2; gen := [] |}).

(** Output parameters whose weight vector has three entries, the third one
    left over from an earlier use. *)
Definition stale : batch :=
  {| sampledStates := Arma.mat_new 0 0;
     sampledActions := [];
     sampledRewards := [];
     sampledNextStates := Arma.mat_new 0 0;
     sampledTerminal := [];
     sampledIndices := [];
     weights := [0%float; 0%float; 100%float] |}.

(** The buffer of [PrioritizedReplay(2, 0, 1, 1)]: no slot, over a sum
    tree of one leaf. *)
Definition fresh_0 : PrioritizedReplay :=
  {| Replay.alpha := 1%float;
     max_priority := 1%float;
     idxSum := SumTree.make 1;
     Replay.batchSize := 2;
     Replay.capacity := 0;
     position := 0;
     states := Arma.mat_new 1 0;
     actions := [];
     rewards := [];
     nextStates := Arma.mat_new 1 0;
     isTerminal := [];
     full := false |}.

(** Capacity 2, full, the priority of slot 1 then set to [2^18]: leaves 1
    and 262144. *)
Definition peaked : PrioritizedReplay :=
  Inputs.after 2 [CallStore _ _ (Demo.observe 1 0); CallStore _ _ (Demo.observe 2 0);
                  CallUpdate _ _ [1] [262144]].

(** Capacity 4 and a batch size of 0, two transitions stored. *)
Definition no_batch : PrioritizedReplay :=
  buf _ (Demo.run [CallStore _ _ (Demo.observe 1 0); CallStore _ _ (Demo.observe 2 0)]
           {| buf := Demo.fresh 0 4 1; outs := Demo.blank 0; gen := [] |}).

End MoreInputs.

(** ** Counting the calls that stored *)

Module Tally.

Section Tally.

Variable StateType : Type.
Variable Encode : StateType -> list double.
Variable ActionType : Type.
Variable action_code : ActionType -> Z.
Variable pow : double -> double -> double.
Variable Rng : Type.
Variable randu : Rng -> double * Rng.

(** The number of calls of [Store] in a client's run that returned, the
    calls that threw not counted. *)
Fixpoint returned (cs : list (call StateType ActionType)) (w : world Rng) : Z :=
  match cs with
  | [] => 0
  | c :: rest =>
      match c with
      | CallStore _ _ t =>
          if is_ok (fst (store_one StateType Encode ActionType action_code t
                           (buf Rng w)))
          then 1 else 0
      | _ => 0
      end
      + returned rest (step StateType Encode ActionType action_code pow Rng randu c w)
  end.

End Tally.

End Tally.
Import Tally.

(** * Properties *)

(** ** The monad *)

Lemma assign_run {S A} (rhs : S -> result A) (write : A -> S -> S) (s : S) :
  assign rhs write s =
  match rhs s with
  | Ok a => (Ok tt, write a s)
  | Err e => (Err e, s)
  end.
Proof. unfold assign, bind, get, lift, modify. destruct (rhs s); reflexivity. Qed.

Lemma seq_run {S A B} (m : M S A) (k : M S B) (s : S) :
  (m ;; k) s =
  match m s with
  | (Ok _, s') => k s'
  | (Err e, s') => (Err e, s')
  end.
Proof. reflexivity. Qed.

(** Projections of updated records. *)
Ltac fields :=
  cbn [fst snd alpha max_priority idxSum batchSize capacity position states
       actions rewards nextStates isTerminal full set_states set_actions
       set_rewards set_nextStates set_isTerminal set_idxSum set_max_priority
       set_position set_full] in *.

Section Cursor.

Variable StateType : Type.
Variable Encode : StateType -> list double.
Variable ActionType : Type.
Variable action_code : ActionType -> Z.

Abbreviation Store := (Store StateType Encode ActionType action_code).

(** What [Store] does to the cursor, whether it throws or not: nothing when
    it throws; otherwise the cursor is incremented and, when it reaches the
    capacity, reset to zero with [full] set. *)
Lemma Store_cursor_cases state action reward nextState isEnd b :
  let r := Store state action reward nextState isEnd b in
  capacity (snd r) = capacity b /\
  ((fst r <> Ok tt /\ position (snd r) = position b /\ full (snd r) = full b) \/
   (fst r = Ok tt /\ wrap64 (position b + 1) <> capacity b /\
    position (snd r) = wrap64 (position b + 1) /\ full (snd r) = full b) \/
   (fst r = Ok tt /\ wrap64 (position b + 1) = capacity b /\
    position (snd r) = 0 /\ full (snd r) = true)).
Proof.
  unfold Replay.Store.
  repeat (rewrite seq_run, assign_run;
          match goal with
          | |- context [match ?r with Ok _ => _ | Err _ => _ end] =>
              destruct r; fields;
              [ | split; [reflexivity | left; repeat split; congruence] ]
          end).
  unfold bind, modify, get, ret. fields.
  destruct (Z.eqb_spec (wrap64 (position b + 1)) (capacity b)) as [E | E]; fields.
  - split; [reflexivity | right; right; auto].
  - split; [reflexivity | right; left; auto].
Qed.

End Cursor.

(** ** The sum tree: reading a leaf after an update *)

Lemma tree_wf_pos t : tree_wf t -> 0 < SumTree.size t.
Proof. intros W. rewrite (wf_size t W). apply Z.pow_pos_nonneg; lia. Qed.

Lemma propagate_length lv pos a :
  length (SumTree.propagate lv pos a) = length a.
Proof.
  revert pos a. induction lv as [| lv IH]; intros pos a; simpl; [reflexivity |].
  rewrite IH. apply length_insert.
Qed.

(** The ancestors of a position lie strictly below it in the array, so
    nothing at or above [pos / 2 + 1] is rewritten. *)
Lemma propagate_above lv pos a j :
  0 <= pos -> pos / 2 < j ->
  SumTree.propagate lv pos a !! Z.to_nat j = a !! Z.to_nat j.
Proof.
  revert pos a. induction lv as [| lv IH]; intros pos a Hpos Hj; simpl;
    [reflexivity |].
  assert (0 <= pos / 2) by (apply Z.div_pos; lia).
  assert (pos / 2 / 2 <= pos / 2) by (apply Z.div_le_upper_bound; lia).
  rewrite IH by lia.
  apply list_lookup_insert_ne. lia.
Qed.

Lemma make_size j : 0 <= j -> SumTree.size (SumTree.make (2 ^ j)) = 2 ^ j.
Proof.
  intros Hj. unfold SumTree.make. cbn [SumTree.size].
  rewrite Z.log2_up_pow2 by lia. reflexivity.
Qed.

Lemma make_wf j : 0 <= j <= 30 -> tree_wf (SumTree.make (2 ^ j)).
Proof.
  intros Hj. unfold SumTree.make.
  rewrite Z.log2_up_pow2 by lia.
  constructor; unfold SumTree.levels; cbn [SumTree.size SumTree.capacity SumTree.tree].
  - rewrite Z.log2_pow2 by lia. rewrite Z2Nat.id by lia. reflexivity.
  - lia.
  - rewrite length_replicate. rewrite Z2Nat.id; [reflexivity |].
    assert (0 < 2 ^ j) by (apply Z.pow_pos_nonneg; lia). lia.
  - apply Z.pow_le_mono_r; lia.
Qed.

Lemma Update_wf t i v t' :
  tree_wf t -> SumTree.Update t i v = Ok t' ->
  tree_wf t' /\ SumTree.capacity t' = SumTree.capacity t /\
  SumTree.size t' = SumTree.size t.
Proof.
  intros W. unfold SumTree.Update.
  destruct (SumTree.in_range t i); [| discriminate].
  intros [= <-]. split; [| split; reflexivity].
  destruct W as [W1 W2 W3 W4].
  constructor; unfold SumTree.levels in *;
    cbn [SumTree.size SumTree.capacity SumTree.tree]; try assumption.
  rewrite propagate_length, length_insert. assumption.
Qed.

Lemma Update_ok t i v :
  0 <= i < SumTree.capacity t -> is_ok (SumTree.Update t i v) = true.
Proof.
  intros H. unfold SumTree.Update, SumTree.in_range.
  destruct (Z.leb_spec 0 i); [| lia]. destruct (Z.ltb_spec i (SumTree.capacity t)); [| lia].
  reflexivity.
Qed.

Lemma Update_result t i v :
  SumTree.Update t i v =
  if SumTree.in_range t i then
    Ok {| SumTree.capacity := SumTree.capacity t; SumTree.size := SumTree.size t;
          SumTree.tree := SumTree.propagate (SumTree.levels t) (SumTree.size t + i)
                            (<[Z.to_nat (SumTree.size t + i) := v]> (SumTree.tree t)) |}
  else Err IndexOutOfRange.
Proof. reflexivity. Qed.

Lemma in_range_spec t i :
  SumTree.in_range t i = true <-> 0 <= i < SumTree.capacity t.
Proof. unfold SumTree.in_range. rewrite andb_true_iff, Z.leb_le, Z.ltb_lt. tauto. Qed.

(** The leaf that [Update] writes reads back as the value written. *)
Lemma leaf_Update_same t i v t' :
  tree_wf t -> SumTree.Update t i v = Ok t' -> SumTree.leaf t' i = Ok v.
Proof.
  intros W. rewrite Update_result.
  destruct (SumTree.in_range t i) eqn:R; [| discriminate].
  intros [= <-]. apply in_range_spec in R.
  unfold SumTree.leaf, SumTree.in_range. cbn [SumTree.size SumTree.capacity SumTree.tree].
  destruct (Z.leb_spec 0 i); [| lia]. destruct (Z.ltb_spec i (SumTree.capacity t)); [| lia].
  cbn [andb]. f_equal. unfold SumTree.node.
  pose proof (tree_wf_pos t W). destruct W as [W1 W2 W3 W4].
  rewrite propagate_above.
  - rewrite list_lookup_insert_eq by lia. reflexivity.
  - lia.
  - apply Z.div_lt_upper_bound; lia.
Qed.

(** Every other leaf keeps its value. *)
Lemma leaf_Update_other t i v t' j :
  tree_wf t -> SumTree.Update t i v = Ok t' -> j <> i ->
  SumTree.leaf t' j = SumTree.leaf t j.
Proof.
  intros W. rewrite Update_result.
  destruct (SumTree.in_range t i) eqn:R; [| discriminate].
  intros [= <-] Hne. apply in_range_spec in R.
  unfold SumTree.leaf. 
  replace (SumTree.in_range _ j) with (SumTree.in_range t j) by reflexivity.
  destruct (SumTree.in_range t j) eqn:Rj; [| reflexivity].
  apply in_range_spec in Rj.
  cbn [SumTree.size SumTree.capacity SumTree.tree].
  f_equal. unfold SumTree.node.
  pose proof (tree_wf_pos t W). destruct W as [W1 W2 W3 W4].
  rewrite propagate_above.
  - rewrite list_lookup_insert_ne by lia. reflexivity.
  - lia.
  - apply Z.div_lt_upper_bound; lia.
Qed.

(** ** The constructor *)

Lemma wrap64_small z : 0 <= z < 2 ^ 64 -> wrap64 z = z.
Proof. intros H. unfold wrap64. apply Z.mod_small. exact H. Qed.

(** The loop doubles [size] until it reaches the capacity; it stops with an
    error exactly when that takes it past [2^30], and the fuel is never the
    reason. *)
Lemma grow_spec fuel k cap :
  0 <= k <= 30 -> 31 <= k + Z.of_nat fuel ->
  match grow fuel (2 ^ k) cap with
  | Ok sz => exists j, k <= j <= 30 /\ sz = 2 ^ j /\ cap <= sz /\
                       (j = k \/ 2 ^ (j - 1) < cap)
  | Err e => e = UndefinedBehaviour /\ 2 ^ 30 < cap
  end.
Proof.
  revert k. induction fuel as [| fuel IH]; intros k Hk Hf; [lia |].
  assert (P : 0 < 2 ^ k) by (apply Z.pow_pos_nonneg; lia).
  assert (Q : 2 ^ k <= 2 ^ 30) by (apply Z.pow_le_mono_r; lia).
  cbn [grow]. rewrite wrap64_small by lia.
  destruct (Z.ltb_spec (2 ^ k) cap) as [Hlt | Hge].
  - replace (2 ^ k * 2) with (2 ^ (k + 1)) by (rewrite Z.pow_add_r by lia; lia).
    unfold INT_MAX.
    destruct (Z.leb_spec (2 ^ (k + 1)) (2 ^ 31 - 1)) as [Hle | Hgt].
    + assert (k + 1 <= 30).
      { destruct (Z_le_gt_dec (k + 1) 30) as [? | G]; [assumption | exfalso].
        assert (2 ^ 31 <= 2 ^ (k + 1)) by (apply Z.pow_le_mono_r; lia). lia. }
      specialize (IH (k + 1) ltac:(lia) ltac:(lia)).
      destruct (grow fuel (2 ^ (k + 1)) cap) as [sz | e]; [| exact IH].
      destruct IH as (j & Hj & -> & Hc & Hm).
      exists j. split; [lia |]. split; [reflexivity |]. split; [lia |].
      right. destruct Hm as [-> | Hm]; [| exact Hm].
      replace (k + 1 - 1) with k by lia. exact Hlt.
    + split; [reflexivity |].
      assert (k = 30).
      { destruct (Z.eq_dec k 30) as [? | N]; [assumption | exfalso].
        assert (2 ^ (k + 1) <= 2 ^ 30) by (apply Z.pow_le_mono_r; lia). lia. }
      subst k. lia.
  - exists k. split; [lia |]. split; [reflexivity |]. split; [lia |]. left. reflexivity.
Qed.

Lemma wf_capacity_bound b : wf b -> capacity b <= 2 ^ 30.
Proof.
  intros W. pose proof (wf_fits b W). destruct (wf_tree b W). lia.
Qed.

Lemma new_result batchSize capacity alpha dimension :
  0 <= capacity <= 2 ^ 30 ->
  exists j, 0 <= j <= 30 /\ capacity <= 2 ^ j /\ (j = 0 \/ 2 ^ (j - 1) < capacity) /\
    new batchSize capacity alpha dimension =
    Ok {| Replay.alpha := alpha;
          max_priority := 1%float;
          idxSum := SumTree.make (2 ^ j);
          Replay.batchSize := batchSize;
          Replay.capacity := capacity;
          position := 0;
          states := Arma.mat_new dimension capacity;
          actions := replicate (Z.to_nat capacity) 0;
          rewards := replicate (Z.to_nat capacity) 0%float;
          nextStates := Arma.mat_new dimension capacity;
          isTerminal := replicate (Z.to_nat capacity) 0;
          full := false |}.
Proof.
  intros Hc. unfold new.
  pose proof (grow_spec 31 0 capacity ltac:(lia) ltac:(lia)) as G.
  change (2 ^ 0) with 1 in G.
  destruct (grow 31 1 capacity) as [sz | e].
  - destruct G as (j & Hj & -> & Hle & Hm). exists j.
    split; [lia |]. split; [lia |]. split; [| reflexivity].
    destruct Hm as [-> | Hm]; [left; reflexivity | right; exact Hm].
  - lia.
Qed.

Lemma new_inversion batchSize capacity alpha dimension b :
  new batchSize capacity alpha dimension = Ok b ->
  capacity <= 2 ^ 30 /\ Replay.capacity b = capacity /\ position b = 0 /\
  full b = false /\ Replay.alpha b = alpha /\ max_priority b = 1%float /\
  Replay.batchSize b = batchSize.
Proof.
  unfold new. pose proof (grow_spec 31 0 capacity ltac:(lia) ltac:(lia)) as G.
  change (2 ^ 0) with 1 in G.
  destruct (grow 31 1 capacity) as [sz | e]; [| discriminate].
  destruct G as (j & Hj & -> & Hle & Hm).
  assert (2 ^ j <= 2 ^ 30) by (apply Z.pow_le_mono_r; lia).
  cbn [rbind]. intros [= <-]. cbn. repeat split; try reflexivity. lia.
Qed.

Lemma new_wf batchSize capacity alpha dimension b :
  new batchSize capacity alpha dimension = Ok b -> 0 < capacity -> wf b.
Proof.
  intros Hnew Hpos.
  destruct (new_inversion _ _ _ _ _ Hnew) as (Hle & _).
  destruct (new_result batchSize capacity alpha dimension ltac:(lia))
    as (j & Hj & Hc & _ & E).
  rewrite E in Hnew. injection Hnew as <-.
  constructor; cbn [Replay.capacity position idxSum states actions rewards
                    nextStates isTerminal]; try lia.
  - apply make_wf; lia.
  - unfold SumTree.make. cbn [SumTree.capacity]. exact Hc.
  - unfold Arma.n_cols, Arma.mat_new. cbn [Arma.columns].
    rewrite length_replicate. lia.
  - rewrite length_replicate. lia.
  - rewrite length_replicate. lia.
  - unfold Arma.n_cols, Arma.mat_new. cbn [Arma.columns].
    rewrite length_replicate. lia.
  - rewrite length_replicate. lia.
  - rewrite make_size by lia. reflexivity.
Qed.

(** ** The cursor and the [full] flag *)

(** [update_priorities] writes the sum tree and [max_priority] only. *)
Lemma update_loop_frame indices priorities n i b :
  let b' := snd (update_loop indices priorities n i b) in
  capacity b' = capacity b /\ position b' = position b /\ full b' = full b /\
  states b' = states b /\ actions b' = actions b /\ rewards b' = rewards b /\
  nextStates b' = nextStates b /\ isTerminal b' = isTerminal b /\
  alpha b' = alpha b /\ batchSize b' = batchSize b.
Proof.
  revert i b. induction n as [| n IH]; intros i b; cbn [update_loop].
  - cbn. repeat split; reflexivity.
  - rewrite seq_run, assign_run.
    destruct (rbind (Arma.index indices i) _) as [t | e]; fields;
      [| repeat split; reflexivity].
    rewrite seq_run, assign_run.
    destruct (rbind (Arma.index priorities i) _) as [m | e]; fields;
      [| repeat split; reflexivity].
    specialize (IH (i + 1) (set_max_priority m (set_idxSum t b))).
    fields. exact IH.
Qed.

Section Clients.

Variable StateType : Type.
Variable Encode : StateType -> list double.
Variable ActionType : Type.
Variable action_code : ActionType -> Z.
Variable pow : double -> double -> double.
Variable Rng : Type.
Variable randu : Rng -> double * Rng.

Abbreviation call := (call StateType ActionType).
Abbreviation world := (world Rng).
Abbreviation step := (step StateType Encode ActionType action_code pow Rng randu).
Abbreviation run := (run StateType Encode ActionType action_code pow Rng randu).

(** The cursor stays in range under any call, and the capacity is fixed. *)
Lemma step_cursor (c : call) (w : world) :
  capacity (buf Rng w) <= 2 ^ 30 ->
  0 <= position (buf Rng w) < capacity (buf Rng w) ->
  capacity (buf Rng (step c w)) = capacity (buf Rng w) /\
  0 <= position (buf Rng (step c w)) < capacity (buf Rng (step c w)).
Proof.
  intros Hcap Hpos. destruct c as [t | beta | indices priorities]; cbn [Client.step buf].
  - unfold store_one.
    pose proof (Store_cursor_cases StateType Encode ActionType action_code
                  (t_state _ _ t) (t_action _ _ t) (t_reward _ _ t)
                  (t_nextState _ _ t) (t_isEnd _ _ t) (buf Rng w)) as H.
    cbv zeta in H. destruct H as (Hc & H). rewrite Hc. split; [reflexivity |].
    rewrite wrap64_small in H by lia.
    destruct H as [(_ & -> & _) | [(_ & Hne & -> & _) | (_ & _ & -> & _)]]; lia.
  - split; [reflexivity | exact Hpos].
  - unfold update_priorities.
    pose proof (update_loop_frame indices priorities (length indices) 0 (buf Rng w)) as H.
    cbv zeta in H. destruct H as (-> & -> & _). split; [reflexivity | exact Hpos].
Qed.

(** No call clears [full]. *)
Lemma step_full (c : call) (w : world) :
  full (buf Rng w) = true -> full (buf Rng (step c w)) = true.
Proof.
  intros Hfull. destruct c as [t | beta | indices priorities]; cbn [Client.step buf].
  - unfold store_one.
    pose proof (Store_cursor_cases StateType Encode ActionType action_code
                  (t_state _ _ t) (t_action _ _ t) (t_reward _ _ t)
                  (t_nextState _ _ t) (t_isEnd _ _ t) (buf Rng w)) as H.
    cbv zeta in H. destruct H as (_ & H).
    destruct H as [(_ & _ & ->) | [(_ & _ & _ & ->) | (_ & _ & _ & ->)]];
      solve [exact Hfull | reflexivity].
  - exact Hfull.
  - unfold update_priorities.
    pose proof (update_loop_frame indices priorities (length indices) 0 (buf Rng w)) as H.
    cbv zeta in H. destruct H as (_ & _ & -> & _). exact Hfull.
Qed.

Lemma run_cursor (cs : list call) (w : world) :
  capacity (buf Rng w) <= 2 ^ 30 ->
  0 <= position (buf Rng w) < capacity (buf Rng w) ->
  capacity (buf Rng (run cs w)) = capacity (buf Rng w) /\
  0 <= position (buf Rng (run cs w)) < capacity (buf Rng (run cs w)).
Proof.
  revert w. induction cs as [| c cs IH]; intros w Hcap Hpos; cbn [Client.run fold_left].
  - split; [reflexivity | exact Hpos].
  - destruct (step_cursor c w Hcap Hpos) as (Hc & Hp).
    destruct (IH (step c w) ltac:(rewrite Hc; exact Hcap) Hp) as (Hc' & Hp').
    unfold Client.run in *. rewrite Hc' , Hc in *. split; [reflexivity | exact Hp'].
Qed.

Lemma run_full (cs : list call) (w : world) :
  full (buf Rng w) = true -> full (buf Rng (run cs w)) = true.
Proof.
  revert w. induction cs as [| c cs IH]; intros w Hfull; cbn [Client.run fold_left].
  - exact Hfull.
  - apply IH. apply step_full. exact Hfull.
Qed.

(** C10. After any sequence of calls of [Store], [Sample] and
    [update_priorities] on a buffer that the constructor built for a
    positive capacity, whether the calls throw or not, the write cursor
    [position] lies in [0, capacity), and once [full] is true it stays true
    under every further sequence of calls.  Only [Store] changes [position]
    and [full]: a call of [Store] that throws leaves both as they were; one
    that returns moves the cursor up by one, or, exactly when that reaches
    the capacity, resets it to 0 and sets [full]. *)
Theorem cursor_in_range_and_full_is_kept
    (batchSize capacity : Z) (alpha : double) (dimension : Z)
    (b0 : PrioritizedReplay) (cs : list call) (o : batch) (g : Rng) :
  new batchSize capacity alpha dimension = Ok b0 ->
  0 < capacity ->
  let w := run cs {| buf := b0; outs := o; gen := g |} in
  0 <= position (buf Rng w) < capacity /\
  Replay.capacity (buf Rng w) = capacity /\
  (forall cs' : list call,
     full (buf Rng w) = true -> full (buf Rng (run cs' w)) = true) /\
  (forall c : call,
     let b := buf Rng w in
     let b' := buf Rng (step c w) in
     match c with
     | CallStore _ _ _ =>
         (position b' = position b /\ full b' = full b) \/
         (position b + 1 < capacity /\ position b' = position b + 1 /\
          full b' = full b) \/
         (position b + 1 = capacity /\ position b' = 0 /\ full b' = true)
     | _ => position b' = position b /\ full b' = full b
     end).
Proof.
  intros Hnew Hpos w.
  destruct (new_inversion _ _ _ _ _ Hnew) as (Hle & Hc & Hp & _).
  destruct (run_cursor cs {| buf := b0; outs := o; gen := g |}) as (Hc' & Hp').
  - cbn [buf]. lia.
  - cbn [buf]. lia.
  - cbn [buf] in Hc', Hp'. fold w in Hc', Hp'. rewrite Hc', Hc in Hp'.
    split; [exact Hp' |]. split; [congruence |].
    split; [intros cs'; apply run_full |].
    intros [t | beta | indices priorities]; cbv zeta; cbn [Client.step buf].
    + unfold store_one.
      pose proof (Store_cursor_cases StateType Encode ActionType action_code
                    (t_state _ _ t) (t_action _ _ t) (t_reward _ _ t)
                    (t_nextState _ _ t) (t_isEnd _ _ t) (buf Rng w)) as H.
      cbv zeta in H. destruct H as (_ & H).
      rewrite wrap64_small in H by lia. rewrite Hc', Hc in H.
      destruct H as [(_ & H1 & H2) | [(_ & Hne & H1 & H2) | (_ & He & H1 & H2)]].
      * left. split; assumption.
      * right. left. split; [lia |]. split; assumption.
      * right. right. split; [exact He |]. split; assumption.
    + split; reflexivity.
    + unfold update_priorities.
      pose proof (update_loop_frame indices priorities (length indices) 0 (buf Rng w)) as H.
      cbv zeta in H. destruct H as (_ & H1 & H2 & _). split; assumption.
Qed.

End Clients.

Lemma fresh_is_new_2_4 : new 2 4 1 1 = Ok (Demo.fresh 2 4 1).
Proof. vm_compute. reflexivity. Qed.

Lemma cursor_in_range_and_full_is_kept_witness :
  let w := Demo.run [CallStore _ _ (Demo.observe 1 0); CallSample _ _ 1%float;
                     CallUpdate _ _ [0] [3]]
                    {| buf := Demo.fresh 2 4 1; outs := Demo.blank 2;
                       gen := [0.5%float; 0.5%float] |} in
  0 <= position (buf _ w) < 4 /\
  Replay.capacity (buf _ w) = 4 /\
  forall cs' : list Demo.call,
    full (buf _ w) = true -> full (buf _ (Demo.run cs' w)) = true.
Proof.
  pose proof (cursor_in_range_and_full_is_kept (list double) Demo.encode Z Demo.code
                c_pow Demo.script Demo.next 2 4 1 1 (Demo.fresh 2 4 1)
                [CallStore _ _ (Demo.observe 1 0); CallSample _ _ 1%float;
                 CallUpdate _ _ [0] [3]]
                (Demo.blank 2) [0.5%float; 0.5%float]
                fresh_is_new_2_4 ltac:(lia)) as H.
  cbv zeta in *. destruct H as (H1 & H2 & H3 & _).
  split; [exact H1 |]. split; [exact H2 | exact H3].
Defined.

(** ** Construction *)

Lemma new_never_rejects batchSize capacity alpha dimension :
  new batchSize capacity alpha dimension <> Err InvalidConfiguration.
Proof.
  unfold new. destruct (grow 31 1 capacity) as [sz | e] eqn:G; cbn [rbind].
  - discriminate.
  - pose proof (grow_spec 31 0 capacity ltac:(lia) ltac:(lia)) as S.
    change (2 ^ 0) with 1 in S. rewrite G in S. destruct S as (-> & _).
    discriminate.
Qed.

(** C8, as the code has it. The constructor validates nothing and never
    fails with [InvalidConfiguration]: whatever [batchSize], [alpha] and
    [dimension] are, for every capacity from 0 to [2^30] it returns a buffer,
    and the sum tree of that buffer is constructed for, and sized to, the
    smallest power of two that is at least the capacity. *)
Theorem new_accepts_and_sizes_the_tree
    (batchSize capacity : Z) (alpha : double) (dimension : Z) :
  new batchSize capacity alpha dimension <> Err InvalidConfiguration /\
  (0 <= capacity <= 2 ^ 30 ->
   exists (b : PrioritizedReplay) (j : Z),
     new batchSize capacity alpha dimension = Ok b /\
     0 <= j /\
     idxSum b = SumTree.make (2 ^ j) /\ SumTree.size (idxSum b) = 2 ^ j /\
     capacity <= 2 ^ j /\
     forall m : Z, 0 <= m -> capacity <= 2 ^ m -> 2 ^ j <= 2 ^ m).
Proof.
  split; [apply new_never_rejects |].
  intros Hc.
  destruct (new_result batchSize capacity alpha dimension Hc)
    as (j & Hj & Hle & Hmin & E).
  eexists. exists j. split; [exact E |].
  cbn [idxSum]. split; [lia |]. split; [reflexivity |].
  split; [apply make_size; lia |]. split; [exact Hle |].
  intros m Hm Hcm. apply Z.pow_le_mono_r; [lia |].
  destruct Hmin as [-> | Hlt]; [lia |].
  destruct (Z_le_gt_dec j m) as [? | G]; [assumption | exfalso].
  assert (2 ^ m <= 2 ^ (j - 1)) by (apply Z.pow_le_mono_r; lia).
  lia.
Qed.

Lemma new_accepts_and_sizes_the_tree_witness :
  exists (b : PrioritizedReplay) (j : Z),
    new 2 5 1 1 = Ok b /\ 0 <= j /\
    idxSum b = SumTree.make (2 ^ j) /\ SumTree.size (idxSum b) = 2 ^ j /\
    5 <= 2 ^ j /\ forall m : Z, 0 <= m -> 5 <= 2 ^ m -> 2 ^ j <= 2 ^ m.
Proof.
  apply (proj2 (new_accepts_and_sizes_the_tree 2 5 1 1)). lia.
Defined.

(** C8, as the specification has it, fails: a buffer with batch size 0,
    capacity 0, dimension 0 and a negative [alpha] is constructed. *)
Lemma new_accepts_zero_sizes_and_negative_alpha :
  is_ok (new 0 0 (-1) 0) = true /\ new 0 0 (-1) 0 <> Err InvalidConfiguration.
Proof. split; [vm_compute; reflexivity | vm_compute; discriminate]. Qed.

(** ** [Store] on a buffer in good shape *)

Lemma set_col_ok m i c :
  0 <= i < Arma.n_cols m -> Z.of_nat (length c) = Arma.n_rows m ->
  Arma.set_col m i c =
  Ok {| Arma.n_rows := Arma.n_rows m;
        Arma.columns := <[Z.to_nat i := c]> (Arma.columns m) |}.
Proof.
  intros Hi Hc. unfold Arma.set_col.
  destruct (Z.leb_spec 0 i); [| lia]. destruct (Z.ltb_spec i (Arma.n_cols m)); [| lia].
  cbn [andb]. rewrite (proj2 (Z.eqb_eq _ _) Hc). reflexivity.
Qed.

Lemma set_at_ok {A} (v : list A) i x :
  0 <= i < Z.of_nat (length v) -> Arma.set_at v i x = Ok (<[Z.to_nat i := x]> v).
Proof.
  intros Hi. unfold Arma.set_at.
  destruct (Z.leb_spec 0 i); [| lia].
  destruct (Z.ltb_spec i (Z.of_nat (length v))); [| lia]. reflexivity.
Qed.

Section StoreOk.

Variable StateType : Type.
Variable Encode : StateType -> list double.
Variable ActionType : Type.
Variable action_code : ActionType -> Z.

Abbreviation Store := (Store StateType Encode ActionType action_code).
Abbreviation transition := (transition StateType ActionType).
Abbreviation store_one := (store_one StateType Encode ActionType action_code).
Abbreviation store_all := (store_all StateType Encode ActionType action_code).
Abbreviation row := (row StateType Encode ActionType action_code).
Abbreviation fits := (fits StateType Encode ActionType).

(** On a buffer in good shape and states of the right dimension, [Store]
    does not throw, and this is the buffer it leaves. *)
Lemma Store_ok state action reward nextState isEnd b :
  wf b ->
  Z.of_nat (length (Encode state)) = Arma.n_rows (states b) ->
  Z.of_nat (length (Encode nextState)) = Arma.n_rows (nextStates b) ->
  exists t',
    SumTree.Update (idxSum b) (position b) (max_priority b * alpha b)%float = Ok t' /\
    Store state action reward nextState isEnd b =
    (Ok tt,
     {| alpha := alpha b;
        max_priority := max_priority b;
        idxSum := t';
        batchSize := batchSize b;
        capacity := capacity b;
        position := if position b + 1 =? capacity b then 0 else position b + 1;
        states := {| Arma.n_rows := Arma.n_rows (states b);
                     Arma.columns := <[Z.to_nat (position b) := Encode state]>
                                       (Arma.columns (states b)) |};
        actions := <[Z.to_nat (position b) := action_code action]> (actions b);
        rewards := <[Z.to_nat (position b) := reward]> (rewards b);
        nextStates := {| Arma.n_rows := Arma.n_rows (nextStates b);
                         Arma.columns := <[Z.to_nat (position b) := Encode nextState]>
                                           (Arma.columns (nextStates b)) |};
        isTerminal := <[Z.to_nat (position b) := Z.b2z isEnd]> (isTerminal b);
        full := if position b + 1 =? capacity b then true else full b |}).
Proof.
  intros W Hs Hn.
  pose proof (wf_capacity_bound b W) as Hcap.
  destruct W as [W0 W1 W2 W3 W4 W5 W6 W7 W8 W9].
  pose proof (Update_ok (idxSum b) (position b) (max_priority b * alpha b)%float
                ltac:(lia)) as U.
  destruct (SumTree.Update (idxSum b) (position b) (max_priority b * alpha b)%float)
    as [t' | e] eqn:EU; [| discriminate].
  exists t'. split; [reflexivity |].
  unfold Replay.Store.
  rewrite seq_run, assign_run. fields. rewrite set_col_ok by lia. fields.
  rewrite seq_run, assign_run. fields. rewrite set_at_ok by lia. fields.
  rewrite seq_run, assign_run. fields. rewrite set_at_ok by lia. fields.
  rewrite seq_run, assign_run. fields. rewrite set_col_ok by lia. fields.
  rewrite seq_run, assign_run. fields. rewrite set_at_ok by lia. fields.
  rewrite seq_run, assign_run. fields. rewrite EU. fields.
  unfold bind, modify, get, ret. fields.
  rewrite wrap64_small by lia.
  destruct (position b + 1 =? capacity b); reflexivity.
Qed.

Lemma Store_wf state action reward nextState isEnd b :
  wf b ->
  Z.of_nat (length (Encode state)) = Arma.n_rows (states b) ->
  Z.of_nat (length (Encode nextState)) = Arma.n_rows (nextStates b) ->
  wf (snd (Store state action reward nextState isEnd b)).
Proof.
  intros W Hs Hn.
  destruct (Store_ok state action reward nextState isEnd b W Hs Hn) as (t' & EU & ->).
  destruct (Update_wf _ _ _ _ (wf_tree b W) EU) as (Wt & Ec & Es).
  destruct W as [W0 W1 W2 W3 W4 W5 W6 W7 W8 W9].
  constructor; fields; unfold Arma.n_cols in *; cbn [Arma.columns];
    rewrite ?length_insert; try assumption; try lia.
  destruct (Z.eqb_spec (position b + 1) (capacity b)); lia.
Qed.

(** The leaf of the slot just written holds the product
    [max_priority * alpha]. *)
Lemma Store_leaf_is_product state action reward nextState isEnd b :
  wf b ->
  Z.of_nat (length (Encode state)) = Arma.n_rows (states b) ->
  Z.of_nat (length (Encode nextState)) = Arma.n_rows (nextStates b) ->
  SumTree.leaf (idxSum (snd (Store state action reward nextState isEnd b)))
               (position b) = Ok (max_priority b * alpha b)%float.
Proof.
  intros W Hs Hn.
  destruct (Store_ok state action reward nextState isEnd b W Hs Hn) as (t' & EU & ->).
  fields. exact (leaf_Update_same _ _ _ _ (wf_tree b W) EU).
Qed.

End StoreOk.

(** ** Storing more transitions than the buffer holds *)

Section CapacityWrap.

Variable StateType : Type.
Variable Encode : StateType -> list double.
Variable ActionType : Type.
Variable action_code : ActionType -> Z.

Abbreviation Store := (Store StateType Encode ActionType action_code).
Abbreviation transition := (transition StateType ActionType).
Abbreviation store_one := (store_one StateType Encode ActionType action_code).
Abbreviation store_all := (store_all StateType Encode ActionType action_code).
Abbreviation row := (row StateType Encode ActionType action_code).
Abbreviation fits := (fits StateType Encode ActionType).

Lemma store_all_app (l1 l2 : list transition) b :
  store_all (l1 ++ l2) b =
  match store_all l1 b with
  | (Ok _, b') => store_all l2 b'
  | (Err e, b') => (Err e, b')
  end.
Proof.
  revert b. induction l1 as [| t l1 IH]; intros b; cbn [app Client.store_all].
  - reflexivity.
  - rewrite !seq_run. destruct (store_one t b) as [[[] | e] b1]; [apply IH | reflexivity].
Qed.

Lemma next_cursor n cap :
  0 <= n -> 0 < cap ->
  (if n mod cap + 1 =? cap then 0 else n mod cap + 1) = (n + 1) mod cap.
Proof.
  intros Hn Hc. pose proof (Z.mod_pos_bound n cap Hc) as B.
  rewrite <- (Z.add_mod_idemp_l n 1 cap) by lia.
  destruct (Z.eqb_spec (n mod cap + 1) cap) as [E | E].
  - rewrite E. symmetry. apply Z.mod_same. lia.
  - symmetry. apply Z.mod_small. lia.
Qed.

Lemma next_full n cap :
  0 <= n -> 0 < cap ->
  (if n mod cap + 1 =? cap then true else cap <=? n) = (cap <=? n + 1).
Proof.
  intros Hn Hc. pose proof (Z.mod_pos_bound n cap Hc) as B.
  pose proof (Z.mod_le n cap Hn Hc) as L.
  destruct (Z.eqb_spec (n mod cap + 1) cap) as [E | E].
  - symmetry. apply Z.leb_le. lia.
  - destruct (Z.leb_spec cap n), (Z.leb_spec cap (n + 1)); try reflexivity; try lia.
    assert (n mod cap = n) by (apply Z.mod_small; lia). lia.
Qed.

Lemma distinct_slots i n cap :
  0 < cap -> n - cap < i < n -> i mod cap <> n mod cap.
Proof.
  intros Hc Hi E.
  assert (D : (n - i) mod cap = 0).
  { rewrite Zminus_mod, E, Z.sub_diag. apply Z.mod_0_l. lia. }
  rewrite Z.mod_small in D by lia. lia.
Qed.

(** The slots of the buffer that [Store] leaves: the one at the cursor holds
    the new transition, the others what they held. *)
Lemma slot_after_Store (t : transition) b j :
  wf b -> fits (Arma.n_rows (states b)) t ->
  Arma.n_rows (nextStates b) = Arma.n_rows (states b) ->
  0 <= j ->
  slot (snd (store_one t b)) j =
  if j =? position b then Some (row t) else slot b j.
Proof.
  intros W [Fs Fn] Hrows Hj. unfold Client.store_one.
  destruct (Store_ok StateType Encode ActionType action_code
              (t_state _ _ t) (t_action _ _ t) (t_reward _ _ t)
              (t_nextState _ _ t) (t_isEnd _ _ t) b W Fs ltac:(congruence))
    as (t' & _ & ->).
  destruct W as [W0 W1 W2 W3 W4 W5 W6 W7 W8 W9]. unfold Arma.n_cols in *.
  unfold slot. fields. cbn [Arma.columns].
  destruct (Z.eqb_spec j (position b)) as [-> | Hne].
  - rewrite !list_lookup_insert_eq by lia. reflexivity.
  - rewrite !list_lookup_insert_ne by lia. reflexivity.
Qed.

(** What one successful [Store] leaves, field by field. *)
Lemma store_one_fields (t : transition) b :
  wf b -> fits (Arma.n_rows (states b)) t ->
  Arma.n_rows (nextStates b) = Arma.n_rows (states b) ->
  let r := store_one t b in
  fst r = Ok tt /\ wf (snd r) /\ capacity (snd r) = capacity b /\
  position (snd r) = (if position b + 1 =? capacity b then 0 else position b + 1) /\
  full (snd r) = (if position b + 1 =? capacity b then true else full b) /\
  Arma.n_rows (states (snd r)) = Arma.n_rows (states b) /\
  Arma.n_rows (nextStates (snd r)) = Arma.n_rows (nextStates b).
Proof.
  intros W [Fs Fn] Hrows r. subst r. unfold Client.store_one.
  pose proof (Store_wf StateType Encode ActionType action_code
                (t_state _ _ t) (t_action _ _ t) (t_reward _ _ t)
                (t_nextState _ _ t) (t_isEnd _ _ t) b W Fs ltac:(congruence)) as W'.
  destruct (Store_ok StateType Encode ActionType action_code
              (t_state _ _ t) (t_action _ _ t) (t_reward _ _ t)
              (t_nextState _ _ t) (t_isEnd _ _ t) b W Fs ltac:(congruence))
    as (t' & _ & E).
  rewrite E in *. cbn [fst snd] in *. fields. cbn [Arma.n_rows].
  split; [reflexivity |]. split; [exact W' |]. repeat split; reflexivity.
Qed.

(** The buffer after the first [n] of the calls, started from a buffer in
    good shape that holds nothing. *)
Lemma store_prefix (ts : list transition) (b0 : PrioritizedReplay) (n : nat) :
  wf b0 -> position b0 = 0 -> full b0 = false ->
  Arma.n_rows (nextStates b0) = Arma.n_rows (states b0) ->
  Forall (fits (Arma.n_rows (states b0))) ts ->
  (n <= length ts)%nat ->
  let r := store_all (take n ts) b0 in
  fst r = Ok tt /\ wf (snd r) /\ capacity (snd r) = capacity b0 /\
  Arma.n_rows (states (snd r)) = Arma.n_rows (states b0) /\
  Arma.n_rows (nextStates (snd r)) = Arma.n_rows (states b0) /\
  position (snd r) = Z.of_nat n mod capacity b0 /\
  full (snd r) = (capacity b0 <=? Z.of_nat n) /\
  forall i : nat,
    Z.of_nat n - capacity b0 <= Z.of_nat i < Z.of_nat n ->
    exists t, ts !! i = Some t /\
              slot (snd r) (Z.of_nat i mod capacity b0) = Some (row t).
Proof.
  intros W0 P0 F0 R0 Hfits. induction n as [| n IH]; intros Hn r.
  - subst r. rewrite take_0. cbn [Client.store_all ret fst snd].
    pose proof (wf_capacity b0 W0). change (Z.of_nat 0) with 0.
    split; [reflexivity |]. split; [exact W0 |]. split; [reflexivity |].
    split; [reflexivity |]. split; [exact R0 |].
    split; [rewrite Z.mod_0_l by lia; exact P0 |].
    split; [rewrite F0; symmetry; apply Z.leb_gt; lia |].
    intros i Hi. lia.
  - destruct (lookup_lt_is_Some_2 ts n ltac:(lia)) as [t Ht].
    subst r. rewrite (take_S_r ts n t Ht), store_all_app.
    specialize (IH ltac:(lia)). cbv zeta in IH.
    destruct (store_all (take n ts) b0) as [res b] eqn:Eb. cbn [fst snd] in IH.
    destruct IH as (-> & W & Hc & Hrs & Hrn & Hp & Hf & Hslots).
    cbn [Client.store_all]. rewrite seq_run.
    assert (Ft : fits (Arma.n_rows (states b)) t).
    { rewrite Hrs. rewrite Forall_forall in Hfits. apply Hfits.
      eapply list_elem_of_lookup_2. exact Ht. }
    pose proof (fun j => slot_after_Store t b j W Ft ltac:(congruence)) as Hslot.
    destruct (store_one_fields t b W Ft ltac:(congruence))
      as (Hr1 & W' & Hc1 & Hp1 & Hf1 & Hrs1 & Hrn1).
    destruct (store_one t b) as [res1 b1]. cbn [fst snd] in *. subst res1.
    cbn [Client.store_all ret fst snd].
    pose proof (wf_capacity b0 W0) as Hpos.
    split; [reflexivity |]. split; [exact W' |].
    split; [congruence |]. split; [congruence |]. split; [congruence |].
    rewrite Hp1, Hf1, Hp, Hc, Hf. rewrite Nat2Z.inj_succ, <- Z.add_1_r.
    split; [apply next_cursor; lia |]. split; [apply next_full; lia |].
    intros i Hi.
    destruct (Z.eq_dec (Z.of_nat i) (Z.of_nat n)) as [Ein | Nin].
    + apply Nat2Z.inj in Ein. subst i. exists t. split; [exact Ht |].
      rewrite Hslot by (apply Z.mod_pos_bound; lia).
      rewrite Hp, Z.eqb_refl. reflexivity.
    + destruct (Hslots i ltac:(lia)) as (u & Hu & Hsu).
      exists u. split; [exact Hu |].
      rewrite Hslot by (apply Z.mod_pos_bound; lia).
      rewrite Hp.
      destruct (Z.eqb_spec (Z.of_nat i mod capacity b0) (Z.of_nat n mod capacity b0))
        as [Eq | _]; [| exact Hsu].
      exfalso. revert Eq. apply distinct_slots; lia.
Qed.

End CapacityWrap.

Lemma new_rows batchSize capacity alpha dimension b :
  new batchSize capacity alpha dimension = Ok b ->
  Arma.n_rows (states b) = dimension /\ Arma.n_rows (nextStates b) = dimension.
Proof.
  unfold new. destruct (grow 31 1 capacity) as [sz | e]; [| discriminate].
  cbn [rbind]. intros [= <-]. split; reflexivity.
Qed.

Section CapacityWrapClaim.

Variable StateType : Type.
Variable Encode : StateType -> list double.
Variable ActionType : Type.
Variable action_code : ActionType -> Z.

Abbreviation transition := (transition StateType ActionType).
Abbreviation store_all := (store_all StateType Encode ActionType action_code).
Abbreviation row := (row StateType Encode ActionType action_code).
Abbreviation fits := (fits StateType Encode ActionType).

(** C5. Let [capacity + k] transitions, [k >= 1], whose states encode to
    vectors of the buffer's dimension, be stored one after the other into a
    buffer that the constructor has just built.  No call throws; after the
    first [n] calls the cursor is [n mod capacity] and [full] holds exactly
    when [n >= capacity], so the flag goes from false to true once, at the
    call that wraps the cursor to 0; every call moves the cursor to
    [(cursor + 1) mod capacity]; and at the end the buffer is full, slot
    [i mod capacity] holds transition number [i] for each of the last
    [capacity] transitions ([k <= i < capacity + k]), and every one of the
    [capacity] slots holds one of these: the [k] oldest transitions have
    been overwritten. *)
Theorem capacity_wrap
    (batchSize capacity : Z) (alpha : double) (dimension : Z)
    (b0 : PrioritizedReplay) (ts : list transition) (k : Z) :
  new batchSize capacity alpha dimension = Ok b0 ->
  0 < capacity ->
  1 <= k ->
  Z.of_nat (length ts) = capacity + k ->
  Forall (fits dimension) ts ->
  (forall n : nat,
     Z.of_nat n <= capacity + k ->
     let r := store_all (take n ts) b0 in
     fst r = Ok tt /\
     position (snd r) = Z.of_nat n mod capacity /\
     (full (snd r) = true <-> capacity <= Z.of_nat n)) /\
  (forall n : nat,
     Z.of_nat n < capacity + k ->
     position (snd (store_all (take (S n) ts) b0)) =
     (position (snd (store_all (take n ts) b0)) + 1) mod capacity) /\
  let b := snd (store_all ts b0) in
  fst (store_all ts b0) = Ok tt /\
  full b = true /\
  Replay.capacity b = capacity /\
  (forall i : nat,
     k <= Z.of_nat i < capacity + k ->
     exists t, ts !! i = Some t /\ slot b (Z.of_nat i mod capacity) = Some (row t)) /\
  (forall j : Z,
     0 <= j < capacity ->
     exists (i : nat) (t : transition),
       k <= Z.of_nat i < capacity + k /\ Z.of_nat i mod capacity = j /\
       ts !! i = Some t /\ slot b j = Some (row t)).
Proof.
  intros Hnew Hcap Hk Hlen Hfits.
  pose proof (new_wf _ _ _ _ _ Hnew Hcap) as W0.
  destruct (new_inversion _ _ _ _ _ Hnew) as (_ & Hc & Hp & Hf & _).
  destruct (new_rows _ _ _ _ _ Hnew) as (Hrs & Hrn).
  assert (P : forall n : nat, Z.of_nat n <= capacity + k ->
            let r := store_all (take n ts) b0 in
            fst r = Ok tt /\ Replay.capacity (snd r) = capacity /\
            position (snd r) = Z.of_nat n mod capacity /\
            full (snd r) = (capacity <=? Z.of_nat n) /\
            forall i : nat,
              Z.of_nat n - capacity <= Z.of_nat i < Z.of_nat n ->
              exists t, ts !! i = Some t /\
                        slot (snd r) (Z.of_nat i mod capacity) = Some (row t)).
  { intros n Hn.
    pose proof (store_prefix StateType Encode ActionType action_code ts b0 n W0 Hp Hf
                  ltac:(congruence) ltac:(rewrite Hrs; exact Hfits) ltac:(lia)) as S.
    cbv zeta in S. rewrite Hc in S.
    destruct S as (S1 & _ & S2 & _ & _ & S3 & S4 & S5).
    cbv zeta. auto. }
  split; [| split].
  - intros n Hn. destruct (P n Hn) as (P1 & _ & P2 & P3 & _).
    cbv zeta. split; [exact P1 |]. split; [exact P2 |].
    rewrite P3. apply Z.leb_le.
  - intros n Hn.
    destruct (P n ltac:(lia)) as (_ & _ & -> & _).
    destruct (P (S n) ltac:(lia)) as (_ & _ & -> & _).
    rewrite Nat2Z.inj_succ, <- Z.add_1_r.
    rewrite Z.add_mod_idemp_l by lia. reflexivity.
  - specialize (P (length ts) ltac:(lia)). rewrite firstn_all in P.
    cbv zeta in *. destruct P as (P1 & P2 & _ & P3 & P4).
    split; [exact P1 |]. split; [rewrite P3; apply Z.leb_le; lia |].
    split; [exact P2 |].
    assert (Q : forall i : nat, k <= Z.of_nat i < capacity + k ->
                exists t, ts !! i = Some t /\
                          slot (snd (store_all ts b0)) (Z.of_nat i mod capacity)
                          = Some (row t)).
    { intros i Hi. apply P4. lia. }
    split; [exact Q |].
    intros j Hj.
    pose proof (Z.mod_pos_bound (j - k) capacity Hcap) as B.
    assert (E : (k + (j - k) mod capacity) mod capacity = j).
    { rewrite Z.add_mod_idemp_r by lia.
      replace (k + (j - k)) with j by lia. apply Z.mod_small. lia. }
    destruct (Q (Z.to_nat (k + (j - k) mod capacity)) ltac:(lia)) as (t & Ht & Hs).
    exists (Z.to_nat (k + (j - k) mod capacity)), t.
    rewrite Z2Nat.id in * by lia. rewrite E in Hs.
    split; [lia |]. split; [exact E |]. split; [exact Ht | exact Hs].
Qed.

End CapacityWrapClaim.

Lemma fresh_is_new_1_2 : new 1 2 1 1 = Ok (Demo.fresh 1 2 1).
Proof. vm_compute. reflexivity. Qed.

Lemma capacity_wrap_witness :
  let ts := [Demo.observe 10 0; Demo.observe 20 1; Demo.observe 30 2] in
  let b := snd (Demo.store_all ts (Demo.fresh 1 2 1)) in
  fst (Demo.store_all ts (Demo.fresh 1 2 1)) = Ok tt /\
  full b = true /\
  Replay.capacity b = 2 /\
  (forall i : nat,
     1 <= Z.of_nat i < 2 + 1 ->
     exists t, ts !! i = Some t /\
               slot b (Z.of_nat i mod 2) =
               Some (Client.row (list double) Demo.encode Z Demo.code t)) /\
  (forall j : Z,
     0 <= j < 2 ->
     exists (i : nat) (t : Demo.transition),
       1 <= Z.of_nat i < 2 + 1 /\ Z.of_nat i mod 2 = j /\
       ts !! i = Some t /\
       slot b j = Some (Client.row (list double) Demo.encode Z Demo.code t)).
Proof.
  intros ts b.
  refine (proj2 (proj2 (capacity_wrap (list double) Demo.encode Z Demo.code
                          1 2 1 1 (Demo.fresh 1 2 1) ts 1
                          fresh_is_new_1_2 _ _ _ _))).
  - lia.
  - lia.
  - reflexivity.
  - repeat constructor.
Defined.

(** ** The priority that [Store] gives a new transition *)

Lemma fresh_is_new_2_4_half : new 2 4 0.5 1 = Ok (Demo.fresh 2 4 0.5).
Proof. vm_compute. reflexivity. Qed.

(** C1, at an input where the code departs from it.  A buffer of capacity 4
    is built with [alpha = 0.5] and one transition is stored.  [Store]
    hands the sum tree the product [max_priority * alpha = 1.0 * 0.5 = 0.5]
    for slot 0, and that is what the leaf of slot 0 holds afterwards; the
    power [max_priority ^ alpha = 1.0 ^ 0.5] is [1.0]. *)
Theorem Store_writes_the_product_not_the_power :
  let b := Demo.fresh 2 4 0.5 in
  let b' := snd (Demo.Store [7%float] 0 1%float [8%float] false b) in
  new 2 4 0.5 1 = Ok b /\
  fst (Demo.Store [7%float] 0 1%float [8%float] false b) = Ok tt /\
  SumTree.Update (idxSum b) (position b) (max_priority b * alpha b)%float
  = Ok (idxSum b') /\
  SumTree.leaf (idxSum b') (position b) = Ok 0.5%float /\
  (max_priority b * alpha b)%float = 0.5%float /\
  c_pow (max_priority b) (alpha b) = 1%float.
Proof. vm_compute. repeat split; reflexivity. Qed.

(** ** [update_priorities] *)

Lemma index_ok {A} (v : list A) (i : nat) (x : A) :
  v !! i = Some x -> Arma.index v (Z.of_nat i) = Ok x.
Proof.
  intros H. unfold Arma.index. pose proof (lookup_lt_Some _ _ _ H).
  destruct (Z.leb_spec 0 (Z.of_nat i)); [| lia].
  destruct (Z.ltb_spec (Z.of_nat i) (Z.of_nat (length v))); [| lia].
  cbn [andb]. rewrite Nat2Z.id, H. reflexivity.
Qed.

(** One round of the loop. *)
Lemma update_loop_step indices priorities n (i : nat) idx p b :
  indices !! i = Some idx -> priorities !! i = Some p ->
  update_loop indices priorities (S n) (Z.of_nat i) b =
  match SumTree.Update (idxSum b) idx (alpha b * of_size_t p)%float with
  | Ok t => update_loop indices priorities n (Z.of_nat (S i))
              (set_max_priority (dmax (max_priority b) (of_size_t p)) (set_idxSum t b))
  | Err e => (Err e, b)
  end.
Proof.
  intros Hi Hp. cbn [update_loop].
  rewrite seq_run, assign_run, (index_ok _ _ _ Hi). cbn [rbind].
  rewrite (index_ok _ _ _ Hp). cbn [rbind].
  destruct (SumTree.Update (idxSum b) idx (alpha b * of_size_t p)%float) as [t | e];
    [| reflexivity].
  rewrite seq_run, assign_run. fields.
  rewrite Nat2Z.inj_succ, <- Z.add_1_r. reflexivity.
Qed.

Lemma set_tree_wf b t p :
  wf b -> tree_wf t -> SumTree.capacity t = SumTree.capacity (idxSum b) ->
  SumTree.size t = SumTree.size (idxSum b) ->
  wf (set_max_priority p (set_idxSum t b)).
Proof.
  intros [W0 W1 W2 W3 W4 W5 W6 W7 W8 W9] Wt Ec Es.
  constructor; fields; try assumption; lia.
Qed.

(** The loop over pairs whose indices are all leaves of the tree: it does
    not throw, [max_priority] becomes the running maximum, and the leaves
    that are not named keep their values. *)
Lemma update_loop_ok indices priorities n (i : nat) b :
  wf b -> (i + n)%nat = length indices -> length priorities = length indices ->
  Forall (fun idx => 0 <= idx < SumTree.capacity (idxSum b)) (drop i indices) ->
  let r := update_loop indices priorities n (Z.of_nat i) b in
  fst r = Ok tt /\ wf (snd r) /\
  max_priority (snd r) =
    fold_left (fun m p => dmax m (of_size_t p)) (drop i priorities) (max_priority b) /\
  forall j, j ∉ drop i indices ->
            SumTree.leaf (idxSum (snd r)) j = SumTree.leaf (idxSum b) j.
Proof.
  revert i b. induction n as [| n IH]; intros i b W Hin Hlen Hall r; subst r.
  - cbn [update_loop ret fst snd].
    rewrite (drop_ge priorities i) by lia.
    split; [reflexivity |]. split; [exact W |]. split; reflexivity.
  - destruct (lookup_lt_is_Some_2 indices i ltac:(lia)) as [idx Hi].
    destruct (lookup_lt_is_Some_2 priorities i ltac:(lia)) as [p Hp].
    rewrite (update_loop_step _ _ _ _ _ _ _ Hi Hp).
    rewrite (drop_S _ _ _ Hi) in *. rewrite (drop_S _ _ _ Hp).
    apply Forall_cons in Hall. destruct Hall as (Hidx & Hall).
    pose proof (Update_ok (idxSum b) idx (alpha b * of_size_t p)%float Hidx) as U.
    destruct (SumTree.Update (idxSum b) idx (alpha b * of_size_t p)%float)
      as [t | e] eqn:EU; [| discriminate].
    destruct (Update_wf _ _ _ _ (wf_tree b W) EU) as (Wt & Ec & Es).
    pose proof (set_tree_wf b t (dmax (max_priority b) (of_size_t p)) W Wt Ec Es) as W'.
    specialize (IH (S i) _ W' ltac:(lia) Hlen).
    fields. rewrite Ec in IH. specialize (IH Hall). cbv zeta in IH.
    destruct IH as (I1 & I2 & I3 & I4).
    split; [exact I1 |]. split; [exact I2 |]. split; [exact I3 |].
    intros j Hj. rewrite not_elem_of_cons in Hj. destruct Hj as (Hne & Hj).
    rewrite (I4 j Hj). exact (leaf_Update_other _ _ _ _ j (wf_tree b W) EU Hne).
Qed.

(** The loop up to the first index that is no leaf of the tree: the tree
    reports it, the loop ends there, and no other leaf has been written in
    its place. *)
Lemma update_loop_err indices priorities n (i : nat) b (k : nat) bad :
  wf b -> (i + n)%nat = length indices -> length priorities = length indices ->
  drop i indices !! k = Some bad ->
  ~ (0 <= bad < SumTree.capacity (idxSum b)) ->
  Forall (fun idx => 0 <= idx < SumTree.capacity (idxSum b)) (take k (drop i indices)) ->
  let r := update_loop indices priorities n (Z.of_nat i) b in
  fst r = Err IndexOutOfRange /\
  forall j, j ∉ take k (drop i indices) ->
            SumTree.leaf (idxSum (snd r)) j = SumTree.leaf (idxSum b) j.
Proof.
  revert i b k. induction n as [| n IH]; intros i b k W Hin Hlen Hk Hbad Hall r; subst r.
  - rewrite (drop_ge indices i) in Hk by lia. discriminate.
  - destruct (lookup_lt_is_Some_2 indices i ltac:(lia)) as [idx Hi].
    destruct (lookup_lt_is_Some_2 priorities i ltac:(lia)) as [p Hp].
    rewrite (update_loop_step _ _ _ _ _ _ _ Hi Hp).
    rewrite (drop_S _ _ _ Hi) in *.
    destruct k as [| k]; cbn [lookup list_lookup take] in *.
    + injection Hk as ->. rewrite Update_result.
      destruct (SumTree.in_range (idxSum b) bad) eqn:R.
      * apply in_range_spec in R. contradiction.
      * cbn [fst snd]. split; reflexivity.
    + apply Forall_cons in Hall. destruct Hall as (Hidx & Hall).
      pose proof (Update_ok (idxSum b) idx (alpha b * of_size_t p)%float Hidx) as U.
      destruct (SumTree.Update (idxSum b) idx (alpha b * of_size_t p)%float)
        as [t | e] eqn:EU; [| discriminate].
      destruct (Update_wf _ _ _ _ (wf_tree b W) EU) as (Wt & Ec & Es).
      pose proof (set_tree_wf b t (dmax (max_priority b) (of_size_t p)) W Wt Ec Es) as W'.
      specialize (IH (S i) _ k W' ltac:(lia) Hlen Hk).
      fields. rewrite Ec in IH. specialize (IH Hbad Hall). cbv zeta in IH.
      destruct IH as (I1 & I2). split; [exact I1 |].
      intros j Hj. rewrite not_elem_of_cons in Hj. destruct Hj as (Hne & Hj).
      rewrite (I2 j Hj). exact (leaf_Update_other _ _ _ _ j (wf_tree b W) EU Hne).
Qed.

Lemma index_lookup {A} (v : list A) (k : nat) :
  Arma.index v (Z.of_nat k) =
  match v !! k with Some x => Ok x | None => Err UndefinedBehaviour end.
Proof.
  unfold Arma.index. rewrite Nat2Z.id.
  destruct (Z.leb_spec 0 (Z.of_nat k)); [| lia].
  destruct (Z.ltb_spec (Z.of_nat k) (Z.of_nat (length v))); cbn [andb].
  - reflexivity.
  - rewrite (lookup_ge_None_2 v k) by lia. reflexivity.
Qed.

(** The loop reads the two vectors at the places it visits only. *)
Lemma update_loop_ext indices indices' priorities priorities' n (i : nat) b :
  (forall k : nat, (i <= k < i + n)%nat ->
     indices !! k = indices' !! k /\ priorities !! k = priorities' !! k) ->
  update_loop indices priorities n (Z.of_nat i) b =
  update_loop indices' priorities' n (Z.of_nat i) b.
Proof.
  revert i b. induction n as [| n IH]; intros i b H; [reflexivity |].
  cbn [update_loop]. rewrite !seq_run, !assign_run, !index_lookup.
  destruct (H i ltac:(lia)) as (<- & <-).
  destruct (indices !! i) as [idx |]; cbn [rbind]; [| reflexivity].
  destruct (priorities !! i) as [p |]; cbn [rbind]; [| reflexivity].
  destruct (SumTree.Update (idxSum b) idx (alpha b * of_size_t p)%float)
    as [t | e]; [| reflexivity].
  rewrite !seq_run, !assign_run. cbn [rbind].
  fields. replace (Z.of_nat i + 1) with (Z.of_nat (S i)) by lia.
  apply IH. intros k Hk. apply H. lia.
Qed.

(** What the loop leaves in the leaves it is given: for each index, the
    product of [alpha] and the priority of the last pair that names it. *)
Lemma update_loop_leaves indices priorities n (i : nat) b :
  wf b -> (i + n)%nat = length indices -> length priorities = length indices ->
  Forall (fun idx => 0 <= idx < SumTree.capacity (idxSum b)) (drop i indices) ->
  forall (k : nat) (idx p : Z),
    (i <= k)%nat -> indices !! k = Some idx -> priorities !! k = Some p ->
    (forall k' : nat, (k < k')%nat -> indices !! k' <> Some idx) ->
    SumTree.leaf (idxSum (snd (update_loop indices priorities n (Z.of_nat i) b))) idx
    = Ok (alpha b * of_size_t p)%float.
Proof.
  revert i b. induction n as [| n IH]; intros i b W Hin Hlen Hall k idx p Hik Hk Hp Hlast.
  - apply lookup_lt_Some in Hk. lia.
  - destruct (lookup_lt_is_Some_2 indices i ltac:(lia)) as [idx0 Hi].
    destruct (lookup_lt_is_Some_2 priorities i ltac:(lia)) as [p0 Hp0].
    rewrite (update_loop_step _ _ _ _ _ _ _ Hi Hp0).
    rewrite (drop_S _ _ _ Hi) in Hall.
    apply Forall_cons in Hall. destruct Hall as (Hidx & Hall).
    pose proof (Update_ok (idxSum b) idx0 (alpha b * of_size_t p0)%float Hidx) as U.
    destruct (SumTree.Update (idxSum b) idx0 (alpha b * of_size_t p0)%float)
      as [t | e] eqn:EU; [| discriminate].
    destruct (Update_wf _ _ _ _ (wf_tree b W) EU) as (Wt & Ec & Es).
    pose proof (set_tree_wf b t (dmax (max_priority b) (of_size_t p0)) W Wt Ec Es) as W'.
    set (b' := set_max_priority (dmax (max_priority b) (of_size_t p0)) (set_idxSum t b)) in *.
    assert (Hall' : Forall (fun idx => 0 <= idx < SumTree.capacity (idxSum b'))
                           (drop (S i) indices))
      by (unfold b'; fields; rewrite Ec; exact Hall).
    destruct (Nat.eq_dec k i) as [-> | Hne].
    + assert (idx0 = idx) by congruence. assert (p0 = p) by congruence. subst idx0 p0.
      destruct (update_loop_ok indices priorities n (S i) b' W' ltac:(lia) Hlen Hall')
        as (_ & _ & _ & Hframe).
      rewrite Hframe.
      * unfold b'. fields. exact (leaf_Update_same _ _ _ _ (wf_tree b W) EU).
      * intros Hin'. apply list_elem_of_lookup in Hin'. destruct Hin' as (j & Hj).
        rewrite lookup_drop in Hj. exact (Hlast (S i + j)%nat ltac:(lia) Hj).
    + exact (IH (S i) b' W' ltac:(lia) Hlen Hall' k idx p ltac:(lia) Hk Hp Hlast).
Qed.

(** The loop up to the first index that is no leaf of the tree leaves the
    buffer as the loop over the pairs before that index does. *)
Lemma update_loop_stops indices priorities n m (i : nat) b bad :
  (m < n)%nat -> (i + m < length priorities)%nat ->
  indices !! (i + m)%nat = Some bad ->
  ~ (0 <= bad < SumTree.capacity (idxSum b)) ->
  Forall (fun idx => 0 <= idx < SumTree.capacity (idxSum b))
         (take m (drop i indices)) ->
  update_loop indices priorities n (Z.of_nat i) b =
  (Err IndexOutOfRange, snd (update_loop indices priorities m (Z.of_nat i) b)).
Proof.
  revert n i b. induction m as [| m IH]; intros n i b Hn Hlen Hbad Hno Hall;
    (destruct n as [| n]; [lia |]).
  - rewrite Nat.add_0_r in Hbad.
    destruct (lookup_lt_is_Some_2 priorities i ltac:(lia)) as [p Hp].
    rewrite (update_loop_step _ _ _ _ _ _ _ Hbad Hp), Update_result.
    destruct (SumTree.in_range (idxSum b) bad) eqn:R.
    + apply in_range_spec in R. contradiction.
    + reflexivity.
  - pose proof (lookup_lt_Some _ _ _ Hbad) as Hlt.
    destruct (lookup_lt_is_Some_2 indices i ltac:(lia)) as [idx Hi].
    destruct (lookup_lt_is_Some_2 priorities i ltac:(lia)) as [p Hp].
    rewrite !(update_loop_step _ _ _ _ _ _ _ Hi Hp).
    rewrite (drop_S _ _ _ Hi) in Hall. cbn [take] in Hall.
    apply Forall_cons in Hall. destruct Hall as (Hidx & Hall).
    rewrite Update_result.
    rewrite (proj2 (in_range_spec (idxSum b) idx) Hidx).
    apply IH; [lia | lia | | |].
    + replace (S i + m)%nat with (i + S m)%nat by lia. exact Hbad.
    + fields. cbn [SumTree.capacity]. exact Hno.
    + fields. cbn [SumTree.capacity]. exact Hall.
Qed.


Lemma fresh_wf_2_4 : wf (Demo.fresh 2 4 1).
Proof. exact (new_wf 2 4 1 1 _ fresh_is_new_2_4 ltac:(lia)). Qed.



(** C9, as the code has it.  [update_priorities] checks no index itself.
    The sum tree, built for [size] leaves ([size] the smallest power of two
    that is at least the capacity), accepts every index below [size],
    whether or not it is below the capacity or populated, and its leaf is
    overwritten, with the product of [alpha] and the priority of the last
    pair that names it.  The first index that is not below [size] ends the
    call with [IndexOutOfRange]: the buffer is then as the call with the
    pairs before that index, which returns normally, leaves it, and no
    other leaf is written in place of the rejected one. *)
Theorem update_priorities_index_check
    (b : PrioritizedReplay) (indices priorities : list Z) :
  wf b ->
  length indices = length priorities ->
  let r := update_priorities indices priorities b in
  (Forall (fun idx => 0 <= idx < SumTree.size (idxSum b)) indices ->
   fst r = Ok tt /\
   forall (k : nat) (idx p : Z),
     indices !! k = Some idx -> priorities !! k = Some p ->
     (forall k' : nat, (k < k')%nat -> indices !! k' <> Some idx) ->
     SumTree.leaf (idxSum (snd r)) idx = Ok (alpha b * of_size_t p)%float) /\
  (forall (k : nat) (bad : Z),
     indices !! k = Some bad ->
     ~ (0 <= bad < SumTree.size (idxSum b)) ->
     Forall (fun idx => 0 <= idx < SumTree.size (idxSum b)) (take k indices) ->
     let before := update_priorities (take k indices) (take k priorities) b in
     fst r = Err IndexOutOfRange /\
     fst before = Ok tt /\
     snd r = snd before /\
     forall j : Z, j ∉ take k indices ->
       SumTree.leaf (idxSum (snd r)) j = SumTree.leaf (idxSum b) j).
Proof.
  intros W Hlen r. subst r. unfold update_priorities.
  rewrite <- (wf_whole b W). change 0 with (Z.of_nat 0). split.
  - intros Hall.
    destruct (update_loop_ok indices priorities (length indices) 0 b W
                ltac:(lia) ltac:(lia) ltac:(rewrite drop_0; exact Hall)) as (R1 & _).
    split; [exact R1 |]. intros k idx p Hk Hp Hlast.
    exact (update_loop_leaves indices priorities (length indices) 0 b W
             ltac:(lia) ltac:(lia) ltac:(rewrite drop_0; exact Hall)
             k idx p ltac:(lia) Hk Hp Hlast).
  - intros k bad Hk Hbad Hall. cbv zeta.
    pose proof (lookup_lt_Some _ _ _ Hk) as Hlt.
    destruct (update_loop_err indices priorities (length indices) 0 b k bad W
                ltac:(lia) ltac:(lia) ltac:(rewrite drop_0; exact Hk) Hbad
                ltac:(rewrite drop_0; exact Hall)) as (R1 & R2).
    rewrite drop_0 in R2.
    rewrite length_take, Nat.min_l by lia.
    assert (Eb : update_loop (take k indices) (take k priorities) k (Z.of_nat 0) b
                 = update_loop indices priorities k (Z.of_nat 0) b).
    { apply update_loop_ext. intros j Hj.
      rewrite !lookup_take_lt by lia. split; reflexivity. }
    split; [exact R1 |]. split.
    + destruct (update_loop_ok (take k indices) (take k priorities) k 0 b W
                  ltac:(rewrite length_take; lia)
                  ltac:(rewrite !length_take; lia)
                  ltac:(rewrite drop_0; exact Hall)) as (R3 & _).
      exact R3.
    + split; [| exact R2]. rewrite Eb.
      rewrite (update_loop_stops indices priorities (length indices) k 0 b bad
                 Hlt ltac:(lia) Hk Hbad ltac:(rewrite drop_0; exact Hall)).
      reflexivity.
Qed.

Lemma update_priorities_index_check_witness :
  let b := Demo.fresh 2 4 1 in
  let r := update_priorities [0; 9; 1] [1; 2; 3] b in
  let before := update_priorities (take 1 [0; 9; 1]) (take 1 [1; 2; 3]) b in
  fst r = Err IndexOutOfRange /\
  fst before = Ok tt /\
  snd r = snd before /\
  forall j : Z, j ∉ take 1 [0; 9; 1] ->
    SumTree.leaf (idxSum (snd r)) j = SumTree.leaf (idxSum b) j.
Proof.
  refine (proj2 (update_priorities_index_check (Demo.fresh 2 4 1) [0; 9; 1] [1; 2; 3]
                   fresh_wf_2_4 _) 1%nat 9 _ _ _).
  - reflexivity.
  - reflexivity.
  - vm_compute. intros [_ H]. discriminate H.
  - repeat constructor; vm_compute; congruence.
Defined.

(** C9, as the specification has it, fails: on a buffer of capacity 3 that
    holds nothing, the index 3 is outside [0, capacity) and outside the
    populated range, and [update_priorities] accepts it and writes leaf 3. *)
Lemma update_priorities_accepts_an_index_outside_the_capacity :
  exists b : PrioritizedReplay,
    new 2 3 1 1 = Ok b /\ capacity b = 3 /\ position b = 0 /\ full b = false /\
    fst (update_priorities [3] [5] b) = Ok tt /\
    SumTree.leaf (idxSum (snd (update_priorities [3] [5] b))) 3 = Ok 5%float.
Proof. eexists. vm_compute. repeat split; reflexivity. Qed.

(** ** Every buffer in use is in good shape *)

Lemma set_col_cols m i c m' :
  Arma.set_col m i c = Ok m' -> Arma.n_cols m' = Arma.n_cols m.
Proof.
  unfold Arma.set_col, Arma.n_cols.
  destruct ((0 <=? i) && (i <? Z.of_nat (length (Arma.columns m)))); [| discriminate].
  destruct (Z.of_nat (length c) =? Arma.n_rows m); [| discriminate].
  intros [= <-]. cbn [Arma.columns]. rewrite length_insert. reflexivity.
Qed.

Lemma set_at_length {A} (v : list A) i x v' :
  Arma.set_at v i x = Ok v' -> length v' = length v.
Proof.
  unfold Arma.set_at.
  destruct ((0 <=? i) && (i <? Z.of_nat (length v))); [| discriminate].
  intros [= <-]. apply length_insert.
Qed.

Ltac rebuild_wf W :=
  let W0 := fresh in let W1 := fresh in let W2 := fresh in let W3 := fresh in
  let W4 := fresh in let W5 := fresh in let W6 := fresh in let W7 := fresh in
  let W8 := fresh in let W9 := fresh in
  destruct W as [W0 W1 W2 W3 W4 W5 W6 W7 W8 W9];
  constructor; fields; try assumption; try congruence; try lia.

Section InGoodShape.

Variable StateType : Type.
Variable Encode : StateType -> list double.
Variable ActionType : Type.
Variable action_code : ActionType -> Z.
Variable pow : double -> double -> double.
Variable Rng : Type.
Variable randu : Rng -> double * Rng.

Abbreviation Store := (Store StateType Encode ActionType action_code).
Abbreviation call := (call StateType ActionType).
Abbreviation world := (world Rng).
Abbreviation step := (step StateType Encode ActionType action_code pow Rng randu).
Abbreviation run := (run StateType Encode ActionType action_code pow Rng randu).

(** [Store] keeps the buffer in good shape, also when it throws. *)
Lemma Store_keeps_wf state action reward nextState isEnd b :
  wf b -> wf (snd (Store state action reward nextState isEnd b)).
Proof.
  intros W. pose proof (wf_capacity_bound b W) as Hcap. unfold Replay.Store.
  rewrite seq_run, assign_run.
  destruct (Arma.set_col (states b) (position b) (Encode state)) as [m1 | e] eqn:E1;
    [| exact W].
  apply set_col_cols in E1.
  assert (W1 : wf (set_states m1 b)) by (rebuild_wf W). clear W.
  rewrite seq_run, assign_run. fields.
  destruct (Arma.set_at (actions b) (position b) (action_code action)) as [v2 | e] eqn:E2;
    [| exact W1].
  apply set_at_length in E2.
  assert (W2 : wf (set_actions v2 (set_states m1 b))) by (rebuild_wf W1). clear W1.
  rewrite seq_run, assign_run. fields.
  destruct (Arma.set_at (rewards b) (position b) reward) as [v3 | e] eqn:E3;
    [| exact W2].
  apply set_at_length in E3.
  assert (W3 : wf (set_rewards v3 (set_actions v2 (set_states m1 b))))
    by (rebuild_wf W2). clear W2.
  rewrite seq_run, assign_run. fields.
  destruct (Arma.set_col (nextStates b) (position b) (Encode nextState)) as [m4 | e] eqn:E4;
    [| exact W3].
  apply set_col_cols in E4.
  assert (W4 : wf (set_nextStates m4 (set_rewards v3 (set_actions v2 (set_states m1 b)))))
    by (rebuild_wf W3). clear W3.
  rewrite seq_run, assign_run. fields.
  destruct (Arma.set_at (isTerminal b) (position b) (Z.b2z isEnd)) as [v5 | e] eqn:E5;
    [| exact W4].
  apply set_at_length in E5.
  assert (W5 : wf (set_isTerminal v5 (set_nextStates m4 (set_rewards v3
                     (set_actions v2 (set_states m1 b))))))
    by (rebuild_wf W4). clear W4.
  rewrite seq_run, assign_run. fields.
  destruct (SumTree.Update (idxSum b) (position b) (max_priority b * alpha b)%float)
    as [t6 | e] eqn:E6; [| exact W5].
  destruct (Update_wf _ _ _ _ (wf_tree _ W5) E6) as (Wt & Ec & Es). fields.
  unfold bind, modify, get, ret. fields.
  pose proof (wf_position _ W5) as Hp. fields.
  rewrite wrap64_small by lia.
  destruct (Z.eqb_spec (position b + 1) (capacity b)); fields; rebuild_wf W5.
Qed.

Lemma update_loop_keeps_wf indices priorities n i b :
  wf b -> wf (snd (update_loop indices priorities n i b)).
Proof.
  revert i b. induction n as [| n IH]; intros i b W; cbn [update_loop].
  - exact W.
  - rewrite seq_run, assign_run.
    destruct (rbind (Arma.index indices i) _) as [t | e] eqn:E; [| exact W].
    destruct (Arma.index indices i) as [idx | ?]; [| discriminate].
    destruct (Arma.index priorities i) as [p | ?]; [| discriminate].
    cbn [rbind] in E.
    destruct (Update_wf _ _ _ _ (wf_tree _ W) E) as (Wt & Ec & Es).
    rewrite seq_run, assign_run. cbn [rbind]. fields.
    apply IH. apply set_tree_wf; assumption.
Qed.

Lemma step_keeps_wf (c : call) (w : world) :
  wf (buf Rng w) -> wf (buf Rng (step c w)).
Proof.
  intros W. destruct c as [t | beta | indices priorities]; cbn [Client.step buf].
  - apply Store_keeps_wf. exact W.
  - exact W.
  - apply update_loop_keeps_wf. exact W.
Qed.

(** A buffer that the constructor built for a positive capacity is in good
    shape, and stays so under any sequence of calls of its methods. *)
Lemma reachable_wf batchSize capacity alpha dimension b0 (cs : list call) o g :
  new batchSize capacity alpha dimension = Ok b0 -> 0 < capacity ->
  wf (buf Rng (run cs {| buf := b0; outs := o; gen := g |})).
Proof.
  intros Hnew Hpos. pose proof (new_wf _ _ _ _ _ Hnew Hpos) as W.
  change b0 with (buf Rng {| buf := b0; outs := o; gen := g |}) in W.
  revert W. generalize {| buf := b0; outs := o; gen := g |}.
  induction cs as [| c cs IH]; intros w W; cbn [Client.run fold_left].
  - exact W.
  - apply IH. apply step_keeps_wf. exact W.
Qed.

End InGoodShape.

(** ** Concrete buffers in good shape *)

Ltac wf_by_computation :=
  constructor; [.. | vm_compute; reflexivity];
  try (constructor; vm_compute; solve [reflexivity | discriminate]);
  vm_compute; solve [reflexivity | discriminate | split; [discriminate | reflexivity]].

Lemma half_filled_wf : wf Inputs.half_filled.
Proof. wf_by_computation. Qed.

Lemma full_3_1_wf : wf Inputs.full_3_1.
Proof. wf_by_computation. Qed.

(** ** Sampling *)

Lemma descend_range lv a nd mass k :
  0 <= k -> 2 ^ k <= nd < 2 ^ (k + 1) ->
  2 ^ (k + Z.of_nat lv) <= SumTree.descend lv a nd mass < 2 ^ (k + Z.of_nat lv + 1).
Proof.
  revert nd mass k. induction lv as [| lv IH]; intros nd mass k Hk Hnd.
  - cbn [SumTree.descend]. change (Z.of_nat 0) with 0. rewrite Z.add_0_r. exact Hnd.
  - cbn [SumTree.descend].
    assert (E1 : 2 ^ (k + 1) = 2 * 2 ^ k) by (rewrite Z.pow_add_r by lia; lia).
    assert (E2 : 2 ^ (k + 1 + 1) = 2 * 2 ^ (k + 1)) by (rewrite (Z.pow_add_r 2 (k + 1) 1) by lia; lia).
    replace (k + Z.of_nat (S lv)) with (k + 1 + Z.of_nat lv) by lia.
    destruct (mass <? SumTree.node a (2 * nd))%float; apply IH; lia.
Qed.

(** [FindPrefixSum] returns a leaf of the tree, whatever the mass is. *)
Lemma FindPrefixSum_range t mass :
  tree_wf t -> SumTree.capacity t = SumTree.size t ->
  0 <= SumTree.FindPrefixSum t mass < SumTree.size t.
Proof.
  intros W E. pose proof (tree_wf_pos t W) as P. unfold SumTree.FindPrefixSum.
  destruct (SumTree.Total t <=? mass)%float; [lia |].
  pose proof (descend_range (SumTree.levels t) (SumTree.tree t) 1 mass 0
                ltac:(lia) ltac:(cbn; lia)) as D.
  rewrite Z.add_0_l in D. rewrite <- (wf_size t W) in D.
  replace (2 ^ (Z.of_nat (SumTree.levels t) + 1)) with (2 * SumTree.size t) in D.
  - lia.
  - rewrite Z.pow_add_r by lia. rewrite <- (wf_size t W). lia.
Qed.

Section Sampling.

Variable pow : double -> double -> double.
Variable Rng : Type.
Variable randu : Rng -> double * Rng.

Abbreviation strata := (strata Rng randu).
Abbreviation sampleProportional := (sampleProportional Rng randu).
Abbreviation Sample := (Sample pow Rng randu).
Abbreviation rng_after := (rng_after Rng randu).
Abbreviation draw := (draw Rng randu).

(** The loop of [sampleProportional]: one draw and one index per stratum. *)
Lemma strata_run b sumPerRange n bt g :
  exists idxes,
    strata b sumPerRange n bt g = (Ok idxes, rng_after n g) /\
    length idxes = n /\
    forall k : nat, (k < n)%nat ->
      idxes !! k =
      Some (wrap64 (SumTree.FindPrefixSum (idxSum b)
                      (draw k g * sumPerRange
                       + of_size_t (bt + Z.of_nat k) * sumPerRange)%float)).
Proof.
  revert bt g. induction n as [| n IH]; intros bt g.
  - exists []. cbn [Replay.strata ret Draws.rng_after length].
    split; [reflexivity |]. split; [reflexivity |]. intros k Hk. lia.
  - cbn [Replay.strata]. unfold bind at 1. unfold Draws.draw.
    cbn [Draws.rng_after].
    destruct (randu g) as [u g1] eqn:Eg. cbn [snd].
    destruct (IH (bt + 1) g1) as (rest & E & Hlen & Hk).
    unfold bind. rewrite E. unfold ret.
    eexists. split; [reflexivity |]. split; [cbn [length]; lia |].
    intros [| k] Hlt.
    + cbn [lookup list_lookup Draws.rng_after]. rewrite Eg. cbn [fst].
      change (Z.of_nat 0) with 0. rewrite Z.add_0_r. reflexivity.
    + cbn [lookup list_lookup Draws.rng_after]. rewrite Eg. cbn [snd].
      replace (bt + Z.of_nat (S k)) with (bt + 1 + Z.of_nat k) by lia.
      exact (Hk k ltac:(lia)).
Qed.

Lemma RangeSum_populated b :
  wf b -> 0 < upperBound b ->
  SumTree.RangeSum (idxSum b) 0 (wrap64 (upperBound b - 1)) =
  Ok (fold_left (fun acc i => (acc + SumTree.node (SumTree.tree (idxSum b))
                                       (SumTree.size (idxSum b) + i))%float)
                (seqZ 0 (upperBound b)) 0%float).
Proof.
  intros W Hub. pose proof (wf_capacity_bound b W) as Hcap.
  assert (Hle : upperBound b <= capacity b).
  { unfold upperBound in *. destruct (full b); [lia |].
    pose proof (wf_position b W). lia. }
  pose proof (wf_fits b W) as Hfit.
  rewrite wrap64_small by lia. unfold SumTree.RangeSum, SumTree.in_range.
  destruct (Z.ltb_spec (upperBound b - 1) 0); [lia |].
  destruct (Z.leb_spec 0 0); [| lia].
  destruct (Z.ltb_spec 0 (SumTree.capacity (idxSum b))); [| lia].
  destruct (Z.leb_spec 0 (upperBound b - 1)); [| lia].
  destruct (Z.ltb_spec (upperBound b - 1) (SumTree.capacity (idxSum b))); [| lia].
  cbn [andb]. replace (upperBound b - 1 - 0 + 1) with (upperBound b) by lia.
  reflexivity.
Qed.

End Sampling.

Section SamplingClaims.

Variable pow : double -> double -> double.
Variable Rng : Type.
Variable randu : Rng -> double * Rng.

Abbreviation sampleProportional := (sampleProportional Rng randu).
Abbreviation Sample := (Sample pow Rng randu).
Abbreviation rng_after := (rng_after Rng randu).
Abbreviation draw := (draw Rng randu).

(** [sampleProportional] on a buffer that holds something: it does not
    throw, and these are its indices. *)
Lemma sampleProportional_run b g :
  wf b -> 0 < upperBound b ->
  exists total idxes,
    SumTree.RangeSum (idxSum b) 0 (upperBound b - 1) = Ok total /\
    sampleProportional b g = (Ok idxes, rng_after (Z.to_nat (batchSize b)) g) /\
    length idxes = Z.to_nat (batchSize b) /\
    forall k : nat, (k < Z.to_nat (batchSize b))%nat ->
      let segment := (total / of_size_t (batchSize b))%float in
      idxes !! k =
      Some (SumTree.FindPrefixSum (idxSum b)
              (draw k g * segment + of_size_t (Z.of_nat k) * segment)%float).
Proof.
  intros W Hub.
  pose proof (RangeSum_populated b W Hub) as ER.
  assert (Hle : upperBound b <= capacity b).
  { unfold upperBound in *. destruct (full b); [lia |].
    pose proof (wf_position b W). lia. }
  pose proof (wf_capacity_bound b W) as Hcap.
  rewrite wrap64_small in ER by lia.
  eexists. 
  destruct (strata_run Rng randu b
              (fold_left (fun acc i => (acc + SumTree.node (SumTree.tree (idxSum b))
                                               (SumTree.size (idxSum b) + i))%float)
                         (seqZ 0 (upperBound b)) 0 / of_size_t (batchSize b))%float
              (Z.to_nat (batchSize b)) 0 g) as (idxes & E & Hlen & Hk).
  exists idxes. split; [exact ER |].
  split.
  - unfold Replay.sampleProportional, bind, lift.
    rewrite wrap64_small by lia. rewrite ER. exact E.
  - split; [exact Hlen |].
    intros k Hlt segment. subst segment. rewrite (Hk k Hlt).
    rewrite Z.add_0_l. f_equal. apply wrap64_small.
    pose proof (FindPrefixSum_range (idxSum b)
                  (draw k g * (fold_left (fun acc i => (acc + SumTree.node (SumTree.tree (idxSum b))
                                               (SumTree.size (idxSum b) + i))%float)
                         (seqZ 0 (upperBound b)) 0 / of_size_t (batchSize b))
                   + of_size_t (Z.of_nat k) * (fold_left (fun acc i => (acc + SumTree.node (SumTree.tree (idxSum b))
                                               (SumTree.size (idxSum b) + i))%float)
                         (seqZ 0 (upperBound b)) 0 / of_size_t (batchSize b)))%float
                  (wf_tree b W) (wf_whole b W)) as R.
    destruct (wf_tree b W). lia.
Qed.

(** C7. On a buffer that holds at least one transition,
    [sampleProportional] takes as total mass the range sum of the leaves
    [0 .. upperBound - 1], the populated range and nothing else; with
    [segment = total / batchSize] it resolves, for each stratum
    [k = 0 .. batchSize - 1], the mass [randu() * segment + k * segment]
    through [FindPrefixSum], the draws taken in order; and it returns these
    [batchSize] indices, one per stratum. *)
Theorem sampleProportional_draws_one_index_per_stratum
    (b : PrioritizedReplay) (g : Rng) :
  wf b ->
  0 < upperBound b ->
  exists (leaves : list double) (idxes : list Z),
    length leaves = Z.to_nat (upperBound b) /\
    (forall i : nat, (i < Z.to_nat (upperBound b))%nat ->
       exists l, leaves !! i = Some l /\
                 SumTree.leaf (idxSum b) (Z.of_nat i) = Ok l) /\
    let total := fold_left PrimFloat.add leaves 0%float in
    let segment := (total / of_size_t (batchSize b))%float in
    SumTree.RangeSum (idxSum b) 0 (upperBound b - 1) = Ok total /\
    sampleProportional b g = (Ok idxes, rng_after (Z.to_nat (batchSize b)) g) /\
    length idxes = Z.to_nat (batchSize b) /\
    forall k : nat, (k < Z.to_nat (batchSize b))%nat ->
      idxes !! k =
      Some (SumTree.FindPrefixSum (idxSum b)
              (draw k g * segment + of_size_t (Z.of_nat k) * segment)%float).
Proof.
  intros W Hub.
  destruct (sampleProportional_run b g W Hub) as (total & idxes & ER & E & Hlen & Hk).
  set (node_of := fun i => SumTree.node (SumTree.tree (idxSum b))
                             (SumTree.size (idxSum b) + i)).
  exists (map node_of (seqZ 0 (upperBound b))), idxes.
  assert (Hle : upperBound b <= capacity b).
  { unfold upperBound in *. destruct (full b); [lia |].
    pose proof (wf_position b W). lia. }
  pose proof (wf_fits b W) as Hfit.
  split; [rewrite length_map, length_seqZ; reflexivity |].
  split.
  - intros i Hi. exists (node_of (Z.of_nat i)). split.
    + rewrite list_lookup_fmap.
      rewrite (proj2 (lookup_seqZ 0 (upperBound b) i (Z.of_nat i))) by lia.
      reflexivity.
    + unfold SumTree.leaf, SumTree.in_range.
      destruct (Z.leb_spec 0 (Z.of_nat i)); [| lia].
      destruct (Z.ltb_spec (Z.of_nat i) (SumTree.capacity (idxSum b))); [| lia].
      reflexivity.
  - cbv zeta.
    assert (Et : total = fold_left PrimFloat.add (map node_of (seqZ 0 (upperBound b))) 0%float).
    { pose proof (RangeSum_populated b W Hub) as ER'.
      pose proof (wf_capacity_bound b W).
      rewrite wrap64_small in ER' by lia. rewrite ER in ER'. injection ER' as ->.
      generalize 0%float. generalize (seqZ 0 (upperBound b)).
      intros l. induction l as [| x l IH]; intros acc; [reflexivity |].
      cbn [map fold_left]. rewrite IH. reflexivity. }
    rewrite <- Et. split; [exact ER |]. split; [exact E |]. split; [exact Hlen |].
    exact Hk.
Qed.

(** [sampleProportional] on a buffer that holds nothing. *)
Lemma sampleProportional_empty b g :
  wf b -> position b = 0 -> full b = false ->
  SumTree.RangeSum (idxSum b) 0 (wrap64 (upperBound b - 1)) = Err IndexOutOfRange /\
  sampleProportional b g = (Err IndexOutOfRange, g).
Proof.
  intros W Hp Hf.
  assert (ER : SumTree.RangeSum (idxSum b) 0 (wrap64 (upperBound b - 1))
               = Err IndexOutOfRange).
  { unfold upperBound. rewrite Hf, Hp.
    change (wrap64 (0 - 1)) with (2 ^ 64 - 1).
    unfold SumTree.RangeSum, SumTree.in_range.
    pose proof (wf_whole b W). destruct (wf_tree b W).
    destruct (Z.ltb_spec (2 ^ 64 - 1) 0); [lia |].
    destruct (Z.ltb_spec (2 ^ 64 - 1) (SumTree.capacity (idxSum b))); [lia |].
    rewrite !andb_false_r. reflexivity. }
  split; [exact ER |].
  unfold Replay.sampleProportional, bind, lift. rewrite ER. reflexivity.
Qed.

End SamplingClaims.

Lemma sampleProportional_draws_one_index_per_stratum_witness :
  exists (leaves : list double) (idxes : list Z),
    length leaves = Z.to_nat (upperBound Inputs.half_filled) /\
    (forall i : nat, (i < Z.to_nat (upperBound Inputs.half_filled))%nat ->
       exists l, leaves !! i = Some l /\
                 SumTree.leaf (idxSum Inputs.half_filled) (Z.of_nat i) = Ok l) /\
    let total := fold_left PrimFloat.add leaves 0%float in
    let segment := (total / of_size_t (batchSize Inputs.half_filled))%float in
    SumTree.RangeSum (idxSum Inputs.half_filled) 0 (upperBound Inputs.half_filled - 1)
    = Ok total /\
    Demo.sampleProportional Inputs.half_filled [0.25%float; 0.5%float]
    = (Ok idxes, rng_after Demo.script Demo.next
                   (Z.to_nat (batchSize Inputs.half_filled)) [0.25%float; 0.5%float]) /\
    length idxes = Z.to_nat (batchSize Inputs.half_filled) /\
    forall k : nat, (k < Z.to_nat (batchSize Inputs.half_filled))%nat ->
      idxes !! k =
      Some (SumTree.FindPrefixSum (idxSum Inputs.half_filled)
              (draw Demo.script Demo.next k [0.25%float; 0.5%float] * segment
               + of_size_t (Z.of_nat k) * segment)%float).
Proof.
  apply (sampleProportional_draws_one_index_per_stratum Demo.script Demo.next
           Inputs.half_filled [0.25%float; 0.5%float] half_filled_wf).
  vm_compute. reflexivity.
Defined.

(** ** The weights of [Sample] *)

Ltac batch_fields :=
  cbn [fst snd sampledStates sampledActions sampledRewards sampledNextStates
       sampledTerminal sampledIndices weights set_sampledStates set_sampledActions
       set_sampledRewards set_sampledNextStates set_sampledTerminal
       set_sampledIndices set_weights] in *.

Lemma index_inv {A} (v : list A) (i : nat) (x : A) :
  Arma.index v (Z.of_nat i) = Ok x -> v !! i = Some x.
Proof.
  unfold Arma.index.
  destruct ((0 <=? Z.of_nat i) && (Z.of_nat i <? Z.of_nat (length v))); [| discriminate].
  rewrite Nat2Z.id. destruct (v !! i); [| discriminate]. congruence.
Qed.

Lemma set_at_inv {A} (v w : list A) (i : nat) (x : A) :
  Arma.set_at v (Z.of_nat i) x = Ok w -> (i < length v)%nat /\ w = <[i := x]> v.
Proof.
  unfold Arma.set_at.
  destruct (Z.leb_spec 0 (Z.of_nat i)); [| discriminate].
  destruct (Z.ltb_spec (Z.of_nat i) (Z.of_nat (length v))); [| discriminate].
  cbn [andb]. rewrite Nat2Z.id. intros [= <-]. split; [lia | reflexivity].
Qed.

Section Weights.

Variable pow : double -> double -> double.
Variable Rng : Type.
Variable randu : Rng -> double * Rng.

Abbreviation sampleProportional := (sampleProportional Rng randu).
Abbreviation Sample := (Sample pow Rng randu).
Abbreviation weigh := (weigh pow Rng).

Abbreviation weight_of := (weight_of pow).

(** One round of the loop. *)
Lemma weigh_step b beta n (i : nat) (o : batch) (g : Rng) :
  weigh b beta (upperBound b) (S n) (Z.of_nat i) (o, g) =
  match Arma.index (sampledIndices o) (Z.of_nat i) with
  | Ok idx =>
      match SumTree.leaf (idxSum b) idx with
      | Ok l =>
          match Arma.set_at (weights o) (Z.of_nat i) (weight_of b beta l) with
          | Ok w => weigh b beta (upperBound b) n (Z.of_nat (S i)) (set_weights w o, g)
          | Err e => (Err e, (o, g))
          end
      | Err e => (Err e, (o, g))
      end
  | Err e => (Err e, (o, g))
  end.
Proof.
  cbn [Replay.weigh]. rewrite seq_run. unfold bind, get, lift, out, modify.
  cbn [fst snd]. unfold Client.weight_of.
  destruct (Arma.index (sampledIndices o) (Z.of_nat i)) as [idx | e]; [| reflexivity].
  destruct (SumTree.leaf (idxSum b) idx) as [l | e]; [| reflexivity].
  destruct (Arma.set_at (weights o) (Z.of_nat i) _) as [w | e]; [| reflexivity].
  rewrite Nat2Z.inj_succ, <- Z.add_1_r. reflexivity.
Qed.

(** The loop writes entries [i .. i + n - 1] of the weights, each from the
    leaf of the sampled index at the same place, and nothing else. *)
Lemma weigh_spec b beta n (i : nat) (o : batch) (g : Rng) s' :
  weigh b beta (upperBound b) n (Z.of_nat i) (o, g) = (Ok tt, s') ->
  s' = (set_weights (weights (fst s')) o, g) /\
  length (weights (fst s')) = length (weights o) /\
  (forall k : nat, (i <= k < i + n)%nat ->
     exists idx l, sampledIndices o !! k = Some idx /\
                   SumTree.leaf (idxSum b) idx = Ok l /\
                   weights (fst s') !! k = Some (weight_of b beta l)) /\
  (forall k : nat, (k < i \/ i + n <= k)%nat ->
     weights (fst s') !! k = weights o !! k).
Proof.
  revert i o. induction n as [| n IH]; intros i o.
  - cbn [Replay.weigh ret]. intros [= <-]. cbn [fst snd].
    split; [destruct o; reflexivity |]. split; [reflexivity |].
    split; [intros k Hk; lia | intros k _; reflexivity].
  - rewrite weigh_step.
    destruct (Arma.index (sampledIndices o) (Z.of_nat i)) as [idx | e] eqn:Ei;
      [| discriminate].
    destruct (SumTree.leaf (idxSum b) idx) as [l | e] eqn:El; [| discriminate].
    destruct (Arma.set_at (weights o) (Z.of_nat i) (weight_of b beta l)) as [w | e] eqn:Ew;
      [| discriminate].
    apply index_inv in Ei. apply set_at_inv in Ew. destruct Ew as (Hlt & ->).
    intros E. destruct (IH (S i) _ E) as (I1 & I2 & I3 & I4). batch_fields.
    split; [rewrite I1 at 1; destruct o; reflexivity |].
    split; [rewrite I2; apply length_insert |].
    split.
    + intros k Hk. destruct (Nat.eq_dec k i) as [-> | Hne].
      * exists idx, l. split; [exact Ei |]. split; [exact El |].
        rewrite I4 by lia. apply list_lookup_insert_eq. exact Hlt.
      * apply I3. lia.
    + intros k Hk. rewrite I4 by lia. apply list_lookup_insert_ne. lia.
Qed.

(** What a call of [Sample] that does not throw has done. *)
Lemma Sample_inv b beta o g o' g' :
  Sample b beta (o, g) = (Ok tt, (o', g')) ->
  exists (w : list double) (m : double),
    sampleProportional b g = (Ok (sampledIndices o'), g') /\
    Arma.cols (states b) (sampledIndices o') = Ok (sampledStates o') /\
    Arma.elem (actions b) (sampledIndices o') = Ok (sampledActions o') /\
    Arma.elem (rewards b) (sampledIndices o') = Ok (sampledRewards o') /\
    Arma.cols (nextStates b) (sampledIndices o') = Ok (sampledNextStates o') /\
    Arma.elem (isTerminal b) (sampledIndices o') = Ok (sampledTerminal o') /\
    length w = length (weights o) /\
    (forall k : nat, (k < length (sampledIndices o'))%nat ->
       exists idx l, sampledIndices o' !! k = Some idx /\
                     SumTree.leaf (idxSum b) idx = Ok l /\
                     w !! k = Some (weight_of b beta l)) /\
    (forall k : nat, (length (sampledIndices o') <= k)%nat ->
       w !! k = weights o !! k) /\
    Arma.max w = Ok m /\
    weights o' = map (fun x => (x / m)%float) w.
Proof.
  unfold Replay.Sample. rewrite seq_run. unfold bind at 1, on_rng, out, modify.
  cbn [fst snd].
  destruct (sampleProportional b g) as [[idxes | e] g1] eqn:ES; [| discriminate].
  repeat (rewrite seq_run, assign_run; batch_fields;
          match goal with
          | |- context [match ?r with Ok _ => _ | Err _ => _ end] =>
              destruct r eqn:?; [| discriminate]
          end; batch_fields).
  rewrite seq_run. unfold bind at 1, get. cbn [fst snd]. batch_fields.
  change 0 with (Z.of_nat 0).
  match goal with
  | |- context [Replay.weigh ?p ?R ?x ?y ?z ?n ?i ?s] =>
      destruct (Replay.weigh p R x y z n i s) as [[[] | e] s6] eqn:EW; [| discriminate]
  end.
  apply weigh_spec in EW. destruct EW as (-> & W2 & W3 & W4). batch_fields.
  rewrite assign_run. batch_fields.
  destruct (Arma.max (weights (fst s6))) as [m | e] eqn:EM; [| discriminate].
  batch_fields. intros [= <- <-]. batch_fields.
  exists (weights (fst s6)), m.
  repeat (split; [assumption || reflexivity |]).
  split; [intros k Hk; apply W3; lia |].
  split; [intros k Hk; apply W4; lia |].
  split; [exact EM | reflexivity].
Qed.

End Weights.

(** ** Division of a double by itself *)

Lemma div_eucl_mul_self (m : positive) :
  Z.div_eucl (Z.shiftl (Z.pos m) 53) (Z.pos m) = (2 ^ 53, 0).
Proof.
  rewrite Z.shiftl_mul_pow2 by lia.
  pose proof (Z_div_mod (Z.pos m * 2 ^ 53) (Z.pos m) ltac:(lia)) as H.
  destruct (Z.div_eucl (Z.pos m * 2 ^ 53) (Z.pos m)) as [q r].
  destruct H as [H1 H2].
  assert (r = 0).
  { assert (E : r = Z.pos m * (2 ^ 53 - q)) by lia.
    destruct (Z.eq_dec (2 ^ 53 - q) 0) as [? | N]; [lia |].
    exfalso. assert (Z.pos m <= Z.abs r).
    { rewrite E, Z.abs_mul. rewrite (Z.abs_eq (Z.pos m)) by lia.
      assert (1 <= Z.abs (2 ^ 53 - q)) by lia. nia. }
    lia. }
  subst r. f_equal. nia.
Qed.

(** In binary64 arithmetic [x / x] is exactly 1.0 for every [x] that is
    finite and not zero: the quotient of the mantissas is [2^53] with
    remainder 0, and rounding it is exact. *)
Lemma float_div_self (x : double) :
  finite_nonzero x = true -> (x / x)%float = 1%float.
Proof.
  unfold finite_nonzero. destruct (Prim2SF x) as [| | | s m e] eqn:H;
    try discriminate. intros _.
  apply Prim2SF_inj. rewrite FloatAxioms.div_spec, H.
  unfold SF64div, SFdiv, SFdiv_core_binary.
  rewrite Z.sub_diag, Z.sub_diag.
  change (Z.min (fexp prec emax 0) 0) with (-53).
  change (0 - -53) with 53.
  cbv iota. rewrite div_eucl_mul_self.
  replace (new_location (Z.pos m) 0) with loc_Exact
    by (unfold new_location; destruct (Z.even (Z.pos m)); reflexivity).
  rewrite xorb_nilpotent. vm_compute. reflexivity.
Qed.

(** ** The order of the doubles *)

Lemma digits2_pos_spec (m : positive) :
  2 ^ (Z.pos (digits2_pos m) - 1) <= Z.pos m < 2 ^ Z.pos (digits2_pos m).
Proof.
  induction m as [p IH | p IH |]; cbn [digits2_pos].
  - rewrite Pos2Z.inj_succ. change (Z.pos p~1) with (2 * Z.pos p + 1).
    replace (Z.succ (Z.pos (digits2_pos p)) - 1) with (Z.succ (Z.pos (digits2_pos p) - 1)) by lia.
    rewrite !Z.pow_succ_r; lia.
  - rewrite Pos2Z.inj_succ. change (Z.pos p~0) with (2 * Z.pos p).
    replace (Z.succ (Z.pos (digits2_pos p)) - 1) with (Z.succ (Z.pos (digits2_pos p) - 1)) by lia.
    rewrite !Z.pow_succ_r; lia.
  - cbn. lia.
Qed.

Lemma bounded_spec (m : positive) (e : Z) :
  bounded prec emax m e = true ->
  -1074 <= e <= 971 /\ Z.pos m < 2 ^ 53 /\ (-1074 < e -> 2 ^ 52 <= Z.pos m).
Proof.
  unfold bounded, canonical_mantissa, fexp, emin, prec, emax.
  rewrite andb_true_iff, Z.eqb_eq, Z.leb_le.
  pose proof (digits2_pos_spec m) as D.
  set (d := Z.pos (digits2_pos m)) in *.
  intros (E & L). split; [lia |]. split.
  - assert (d <= 53) by lia.
    assert (2 ^ d <= 2 ^ 53) by (apply Z.pow_le_mono_r; lia). lia.
  - intros He. assert (d = 53) by lia. subst d.
    replace (Z.pos (digits2_pos m) - 1) with 52 in D by lia. lia.
Qed.

Lemma finite_lt (m1 m2 : positive) (e1 e2 : Z) :
  bounded prec emax m1 e1 = true -> bounded prec emax m2 e2 = true ->
  e1 < e2 -> Z.pos m1 * 2 ^ (e1 + 1074) < Z.pos m2 * 2 ^ (e2 + 1074).
Proof.
  intros B1 B2 H.
  destruct (bounded_spec _ _ B1) as (R1 & M1 & _).
  destruct (bounded_spec _ _ B2) as (R2 & _ & N2).
  specialize (N2 ltac:(lia)).
  replace (e2 + 1074) with ((e1 + 1074) + (e2 - e1)) by lia.
  rewrite (Z.pow_add_r 2 (e1 + 1074) (e2 - e1)) by lia.
  assert (0 < 2 ^ (e1 + 1074)) by (apply Z.pow_pos_nonneg; lia).
  assert (2 ^ 1 <= 2 ^ (e2 - e1)) by (apply Z.pow_le_mono_r; lia).
  change (2 ^ 1) with 2 in *.
  set (P := 2 ^ (e1 + 1074)) in *. set (Q := 2 ^ (e2 - e1)) in *.
  assert (E : 2 ^ 53 = 2 ^ 52 * 2) by reflexivity.
  assert (Z.pos m1 * P < 2 ^ 53 * P) by (apply Z.mul_lt_mono_pos_r; lia).
  assert (2 ^ 52 * 2 <= Z.pos m2 * Q) by (apply Z.mul_le_mono_nonneg; lia).
  assert (2 ^ 52 * 2 * P <= Z.pos m2 * Q * P) by (apply Z.mul_le_mono_nonneg_r; lia).
  lia.
Qed.

Lemma finite_small (m : positive) (e : Z) :
  bounded prec emax m e = true ->
  0 < Z.pos m * 2 ^ (e + 1074) < 2 ^ 2100.
Proof.
  intros B. destruct (bounded_spec _ _ B) as (R & M & _).
  assert (0 < 2 ^ (e + 1074)) by (apply Z.pow_pos_nonneg; lia).
  assert (2 ^ (e + 1074) <= 2 ^ 2045) by (apply Z.pow_le_mono_r; lia).
  split; [nia |].
  replace (2 ^ 2100) with (2 ^ 55 * 2 ^ 2045) by (rewrite <- Z.pow_add_r by lia; reflexivity).
  assert (2 ^ 53 < 2 ^ 55) by (apply Z.pow_lt_mono_r; lia).
  assert (0 < 2 ^ 2045) by (apply Z.pow_pos_nonneg; lia).
  nia.
Qed.

Ltac compare_by_lia :=
  apply f_equal; symmetry;
  first [ apply Z.compare_eq_iff; lia
        | apply Z.compare_lt_iff; lia
        | apply Z.compare_gt_iff; lia ].

Lemma SFcompare_ord (x y : spec_float) :
  valid_binary x = true -> valid_binary y = true ->
  x <> S754_nan -> y <> S754_nan ->
  SFcompare x y = Some (ord x ?= ord y).
Proof.
  assert (P : 0 < 2 ^ 2100) by (apply Z.pow_pos_nonneg; lia).
  intros Vx Vy Nx Ny.
  destruct x as [sx | sx | | sx mx ex]; [| | congruence |];
  destruct y as [sy | sy | | sy my ey]; try congruence;
    cbn [SFcompare ord SpecFloat.valid_binary] in *;
    try pose proof (finite_small _ _ Vx); try pose proof (finite_small _ _ Vy).
  - reflexivity.
  - destruct sy; compare_by_lia.
  - destruct sy; compare_by_lia.
  - destruct sx; compare_by_lia.
  - destruct sx, sy; compare_by_lia.
  - destruct sx, sy; compare_by_lia.
  - destruct sx; compare_by_lia.
  - destruct sx, sy; compare_by_lia.
  - destruct sx, sy; try compare_by_lia.
    + rewrite Z.compare_opp.
      destruct (Z.compare_spec ex ey) as [-> | L | G].
      * change (PosDef.Pos.compare_cont Eq mx my) with (Z.pos mx ?= Z.pos my).
        rewrite <- Zmult_compare_compat_r by lia.
        rewrite (Z.compare_antisym (Z.pos mx) (Z.pos my)). reflexivity.
      * pose proof (finite_lt _ _ _ _ Vx Vy L). compare_by_lia.
      * pose proof (finite_lt _ _ _ _ Vy Vx ltac:(lia)). compare_by_lia.
    + destruct (Z.compare_spec ex ey) as [-> | L | G].
      * change (PosDef.Pos.compare_cont Eq mx my) with (Z.pos mx ?= Z.pos my).
        rewrite <- Zmult_compare_compat_r by lia. reflexivity.
      * pose proof (finite_lt _ _ _ _ Vx Vy L). compare_by_lia.
      * pose proof (finite_lt _ _ _ _ Vy Vx ltac:(lia)). compare_by_lia.
Qed.

Lemma is_nan_spec (x : float) :
  is_nan x = true <-> Prim2SF x = S754_nan.
Proof.
  unfold is_nan. rewrite FloatAxioms.eqb_spec. unfold SFeqb.
  destruct (Prim2SF x) as [s | s | | s m e] eqn:E.
  - cbn. split; [discriminate | discriminate].
  - destruct s; cbn; split; discriminate.
  - cbn. split; reflexivity.
  - pose proof (Prim2SF_valid x) as V. rewrite E in V.
    rewrite (SFcompare_ord _ _ V V ltac:(discriminate) ltac:(discriminate)).
    rewrite Z.compare_refl. cbn. split; discriminate.
Qed.

Lemma not_nan (x : float) : is_nan x = false <-> Prim2SF x <> S754_nan.
Proof.
  rewrite <- is_nan_spec. destruct (is_nan x); split; congruence.
Qed.

Lemma ltb_rank (x y : float) :
  is_nan x = false -> is_nan y = false ->
  (x <? y)%float = (rank x <? rank y).
Proof.
  intros Hx Hy. rewrite FloatAxioms.ltb_spec. unfold SFltb, rank.
  rewrite (SFcompare_ord _ _ (Prim2SF_valid x) (Prim2SF_valid y)
             (proj1 (not_nan x) Hx) (proj1 (not_nan y) Hy)).
  unfold Z.ltb. destruct (ord (Prim2SF x) ?= ord (Prim2SF y)); reflexivity.
Qed.

Lemma leb_rank (x y : float) :
  is_nan x = false -> is_nan y = false ->
  (x <=? y)%float = (rank x <=? rank y).
Proof.
  intros Hx Hy. rewrite FloatAxioms.leb_spec. unfold SFleb, rank.
  rewrite (SFcompare_ord _ _ (Prim2SF_valid x) (Prim2SF_valid y)
             (proj1 (not_nan x) Hx) (proj1 (not_nan y) Hy)).
  unfold Z.leb. destruct (ord (Prim2SF x) ?= ord (Prim2SF y)); reflexivity.
Qed.

Lemma ltb_nan_l (x y : float) : is_nan x = true -> (x <? y)%float = false.
Proof.
  intros H. apply is_nan_spec in H. rewrite FloatAxioms.ltb_spec, H. reflexivity.
Qed.

Lemma ltb_nan_r (x y : float) : is_nan y = true -> (x <? y)%float = false.
Proof.
  intros H. apply is_nan_spec in H. rewrite FloatAxioms.ltb_spec, H.
  unfold SFltb. destruct (Prim2SF x); reflexivity.
Qed.

(** Two finite doubles of the same rank are the same double. *)
Lemma rank_inj_finite (x y : float) (s : bool) (mx my : positive) (ex ey : Z) :
  Prim2SF x = S754_finite s mx ex -> Prim2SF y = S754_finite s my ey ->
  rank x = rank y -> x = y.
Proof.
  intros Ex Ey R. unfold rank in R. rewrite Ex, Ey in R. cbn [ord] in R.
  pose proof (Prim2SF_valid x) as Vx. pose proof (Prim2SF_valid y) as Vy.
  rewrite Ex in Vx. rewrite Ey in Vy. cbn [SpecFloat.valid_binary] in Vx, Vy.
  assert (R' : Z.pos mx * 2 ^ (ex + 1074) = Z.pos my * 2 ^ (ey + 1074))
    by (destruct s; lia).
  assert (ex = ey).
  { destruct (Z.lt_trichotomy ex ey) as [L | [E | G]]; [| exact E |].
    - pose proof (finite_lt _ _ _ _ Vx Vy L). lia.
    - pose proof (finite_lt _ _ _ _ Vy Vx ltac:(lia)). lia. }
  subst ey.
  destruct (bounded_spec _ _ Vx) as (Rx & _ & _).
  assert (0 < 2 ^ (ex + 1074)) by (apply Z.pow_pos_nonneg; lia).
  assert (Z.pos mx = Z.pos my) by nia.
  apply Prim2SF_inj. rewrite Ex, Ey. congruence.
Qed.

(** ** Rounding a quotient that is below one *)

Lemma shr_1_m (mrs : shr_record) :
  0 <= shr_m mrs -> shr_m (shr_1 mrs) = shr_m mrs / 2.
Proof.
  destruct mrs as [m r s]. cbn [shr_m shr_1]. intros H.
  destruct m as [| p | p]; [reflexivity | | lia].
  destruct p as [p | p |]; cbn [shr_m].
  - change (Z.pos p~1) with (2 * Z.pos p + 1).
    apply (Z.div_unique _ _ _ 1); lia.
  - change (Z.pos p~0) with (2 * Z.pos p).
    apply (Z.div_unique _ _ _ 0); lia.
  - reflexivity.
Qed.

Lemma iter_shr_1_m (p : positive) (mrs : shr_record) :
  0 <= shr_m mrs ->
  shr_m (SpecFloat.iter_pos shr_1 p mrs) = shr_m mrs / 2 ^ Z.pos p.
Proof.
  revert mrs. induction p as [p IH | p IH |]; intros mrs H; cbn [SpecFloat.iter_pos].
  - assert (H1 : 0 <= shr_m (shr_1 mrs))
      by (rewrite shr_1_m by exact H; apply Z.div_pos; lia).
    assert (H2 : 0 <= shr_m (SpecFloat.iter_pos shr_1 p (shr_1 mrs)))
      by (rewrite IH by exact H1; apply Z.div_pos; [lia | apply Z.pow_pos_nonneg; lia]).
    rewrite (IH _ H2), (IH _ H1), shr_1_m by exact H.
    assert (0 < 2 ^ Z.pos p) by (apply Z.pow_pos_nonneg; lia).
    assert (E : 2 ^ Z.pos p~1 = 2 * 2 ^ Z.pos p * 2 ^ Z.pos p).
    { replace (Z.pos p~1) with (1 + Z.pos p + Z.pos p) by lia.
      rewrite !Z.pow_add_r by lia. reflexivity. }
    rewrite E, !Z.div_div by lia. f_equal. lia.
  - assert (H1 : 0 <= shr_m (SpecFloat.iter_pos shr_1 p mrs))
      by (rewrite IH by exact H; apply Z.div_pos; [lia | apply Z.pow_pos_nonneg; lia]).
    rewrite (IH _ H1), (IH _ H).
    assert (0 < 2 ^ Z.pos p) by (apply Z.pow_pos_nonneg; lia).
    assert (E : 2 ^ Z.pos p~0 = 2 ^ Z.pos p * 2 ^ Z.pos p).
    { replace (Z.pos p~0) with (Z.pos p + Z.pos p) by lia.
      rewrite !Z.pow_add_r by lia. reflexivity. }
    rewrite E, Z.div_div by lia. reflexivity.
  - rewrite shr_1_m by exact H. reflexivity.
Qed.

Lemma shr_spec (mrs : shr_record) (e n : Z) :
  0 <= shr_m mrs ->
  (n <= 0 /\ shr mrs e n = (mrs, e)) \/
  (0 < n /\ snd (shr mrs e n) = e + n /\
   shr_m (fst (shr mrs e n)) = shr_m mrs / 2 ^ n).
Proof.
  intros H. destruct n as [| p | p].
  - left. split; [lia | reflexivity].
  - right. split; [lia |]. split; [reflexivity |]. cbn [shr fst].
    apply iter_shr_1_m. exact H.
  - left. split; [lia | reflexivity].
Qed.

Lemma shr_record_of_loc_m (m : Z) (l : location) :
  shr_m (shr_record_of_loc m l) = m.
Proof. destruct l as [| []]; reflexivity. Qed.

Lemma round_nearest_even_bounds (m : Z) (l : location) :
  m <= round_nearest_even m l <= m + 1.
Proof.
  destruct l as [| []]; cbn [round_nearest_even]; try lia.
  destruct (Z.even m); lia.
Qed.

Lemma Zdigits2_le (m k : Z) : 0 <= m -> 0 <= k -> m < 2 ^ k -> Zdigits2 m <= k.
Proof.
  intros Hm Hk H. destruct m as [| p | p]; [cbn; lia | | lia]. cbn [Zdigits2].
  pose proof (digits2_pos_spec p) as D.
  destruct (Z_le_gt_dec (Z.pos (digits2_pos p)) k) as [L | G]; [exact L | exfalso].
  assert (2 ^ k <= 2 ^ (Z.pos (digits2_pos p) - 1)) by (apply Z.pow_le_mono_r; lia).
  lia.
Qed.

Lemma fexp_small (d : Z) : d <= 1 -> -1074 <= fexp prec emax d <= -52.
Proof. unfold fexp, emin, prec, emax. lia. Qed.

(** Whatever is left of the division, a mantissa below [2 ^ (- e)] rounds
    to a double that is at most 1, with the sign it was given. *)
Lemma binary_round_aux_small (sx : bool) (mz ez : Z) (lz : location) :
  0 <= mz -> ez <= 0 -> mz < 2 ^ (- ez) ->
  match binary_round_aux prec emax sx mz ez lz with
  | S754_zero s => s = sx
  | S754_finite s m e => s = sx /\ Z.pos m * 2 ^ (e + 1074) <= 2 ^ 1074
  | _ => False
  end.
Proof.
  intros Hm He Hlt. unfold binary_round_aux, shr_fexp.
  pose proof (Zdigits2_le mz (- ez) Hm ltac:(lia) Hlt) as Hd.
  pose proof (fexp_small (Zdigits2 mz + ez) ltac:(lia)) as Hf.
  set (n1 := fexp prec emax (Zdigits2 mz + ez) - ez) in *.
  set (r0 := shr_record_of_loc mz lz).
  assert (H0 : 0 <= shr_m r0) by (unfold r0; rewrite shr_record_of_loc_m; exact Hm).
  assert (S1 : exists mrs1 e1, shr r0 ez n1 = (mrs1, e1) /\ e1 <= 0 /\
                               0 <= shr_m mrs1 < 2 ^ (- e1)).
  { destruct (shr_spec r0 ez n1 H0) as [(Hn & E) | (Hn & E1 & E2)].
    - exists r0, ez. split; [exact E |]. split; [exact He |].
      unfold r0. rewrite shr_record_of_loc_m. lia.
    - destruct (shr r0 ez n1) as [mrs1 e1]. cbn [fst snd] in *.
      exists mrs1, e1. split; [reflexivity |]. subst e1. split; [lia |].
      rewrite E2. unfold r0. rewrite shr_record_of_loc_m.
      assert (0 < 2 ^ n1) by (apply Z.pow_pos_nonneg; lia).
      split; [apply Z.div_pos; lia |].
      apply Z.div_lt_upper_bound; [lia |].
      rewrite <- Z.pow_add_r by lia. replace (n1 + - (ez + n1)) with (- ez) by lia.
      exact Hlt. }
  destruct S1 as (mrs1 & e1 & -> & He1 & Hm1).
  pose proof (round_nearest_even_bounds (shr_m mrs1) (loc_of_shr_record mrs1)) as Hr.
  set (m1 := round_nearest_even (shr_m mrs1) (loc_of_shr_record mrs1)) in *.
  assert (Hm1' : 0 <= m1 <= 2 ^ (- e1)) by lia.
  assert (Hd1 : Zdigits2 m1 <= - e1 + 1).
  { apply Zdigits2_le; [lia | lia |].
    rewrite Z.pow_add_r by lia. change (2 ^ 1) with 2.
    assert (0 < 2 ^ (- e1)) by (apply Z.pow_pos_nonneg; lia). lia. }
  pose proof (fexp_small (Zdigits2 m1 + e1) ltac:(lia)) as Hf1.
  set (n2 := fexp prec emax (Zdigits2 m1 + e1) - e1) in *.
  set (r1 := shr_record_of_loc m1 loc_Exact).
  assert (H1 : 0 <= shr_m r1) by (cbn; lia).
  assert (S2 : exists mrs2 e2, shr r1 e1 n2 = (mrs2, e2) /\ e2 <= 0 /\
                               0 <= shr_m mrs2 <= 2 ^ (- e2)).
  { destruct (shr_spec r1 e1 n2 H1) as [(Hn & E) | (Hn & E1 & E2)].
    - exists r1, e1. split; [exact E |]. split; [exact He1 |]. cbn. lia.
    - destruct (shr r1 e1 n2) as [mrs2 e2]. cbn [fst snd] in *.
      exists mrs2, e2. split; [reflexivity |]. subst e2. split; [lia |].
      rewrite E2. cbn [r1 shr_record_of_loc shr_m].
      assert (0 < 2 ^ n2) by (apply Z.pow_pos_nonneg; lia).
      split; [apply Z.div_pos; lia |].
      apply Z.div_le_upper_bound; [lia |].
      rewrite <- Z.pow_add_r by lia. replace (n2 + - (e1 + n2)) with (- e1) by lia.
      lia. }
  destruct S2 as (mrs2 & e2 & -> & He2 & Hm2).
  destruct (shr_m mrs2) as [| m | m]; [reflexivity | | lia].
  destruct (Z.leb_spec e2 (emax - prec)); [| unfold emax, prec in *; lia].
  split; [reflexivity |].
  destruct (Z_lt_le_dec (e2 + 1074) 0) as [L | G].
  - rewrite (Z.pow_neg_r 2 (e2 + 1074)) by lia.
    assert (0 < 2 ^ 1074) by (apply Z.pow_pos_nonneg; lia). lia.
  - assert (0 < 2 ^ (e2 + 1074)) by (apply Z.pow_pos_nonneg; lia).
    replace (2 ^ 1074) with (2 ^ (- e2) * 2 ^ (e2 + 1074))
      by (rewrite <- Z.pow_add_r by lia; f_equal; lia).
    apply Z.mul_le_mono_nonneg_r; lia.
Qed.

(** A mantissa that is not negative rounds to a double of the given sign,
    never to NaN. *)
Lemma binary_round_aux_sign (sx : bool) (mz ez : Z) (lz : location) :
  0 <= mz ->
  match binary_round_aux prec emax sx mz ez lz with
  | S754_zero s | S754_infinity s | S754_finite s _ _ => s = sx
  | S754_nan => False
  end.
Proof.
  intros Hm. unfold binary_round_aux, shr_fexp.
  set (n1 := fexp prec emax (Zdigits2 mz + ez) - ez).
  set (r0 := shr_record_of_loc mz lz).
  assert (H0 : 0 <= shr_m r0) by (unfold r0; rewrite shr_record_of_loc_m; exact Hm).
  assert (S1 : 0 <= shr_m (fst (shr r0 ez n1))).
  { destruct (shr_spec r0 ez n1 H0) as [(Hn & ->) | (Hn & _ & ->)]; [exact H0 |].
    apply Z.div_pos; [lia | apply Z.pow_pos_nonneg; lia]. }
  destruct (shr r0 ez n1) as [mrs1 e1]. cbn [fst] in S1.
  pose proof (round_nearest_even_bounds (shr_m mrs1) (loc_of_shr_record mrs1)) as Hr.
  set (m1 := round_nearest_even (shr_m mrs1) (loc_of_shr_record mrs1)) in *.
  set (n2 := fexp prec emax (Zdigits2 m1 + e1) - e1).
  set (r1 := shr_record_of_loc m1 loc_Exact).
  assert (H1 : 0 <= shr_m r1) by (cbn; lia).
  assert (S2 : 0 <= shr_m (fst (shr r1 e1 n2))).
  { destruct (shr_spec r1 e1 n2 H1) as [(Hn & ->) | (Hn & _ & ->)]; [exact H1 |].
    apply Z.div_pos; [lia | apply Z.pow_pos_nonneg; lia]. }
  destruct (shr r1 e1 n2) as [mrs2 e2]. cbn [fst] in S2.
  destruct (shr_m mrs2) as [| m | m]; [reflexivity | | lia].
  destruct (e2 <=? emax - prec); reflexivity.
Qed.

(** The quotient of the mantissas, before rounding. *)
Lemma SFdiv_core_binary_small (mx my : positive) (ex ey : Z) :
  bounded prec emax mx ex = true -> bounded prec emax my ey = true ->
  Z.pos mx * 2 ^ (ex + 1074) < Z.pos my * 2 ^ (ey + 1074) ->
  let '(q, e, _) := SFdiv_core_binary prec emax (Z.pos mx) ex (Z.pos my) ey in
  0 <= q /\ e <= 0 /\ q < 2 ^ (- e).
Proof.
  intros Bx By Hlt. unfold SFdiv_core_binary.
  destruct (bounded_spec _ _ Bx) as (Rx & _ & _).
  destruct (bounded_spec _ _ By) as (Ry & _ & _).
  pose proof (digits2_pos_spec mx) as Dx. pose proof (digits2_pos_spec my) as Dy.
  cbn [Zdigits2].
  set (d1 := Z.pos (digits2_pos mx)) in *. set (d2 := Z.pos (digits2_pos my)) in *.
  assert (Hd : d1 + ex - (d2 + ey) <= 0).
  { destruct (Z_le_gt_dec (d1 + ex) (d2 + ey)) as [L | G]; [lia | exfalso].
    assert (A : Z.pos my * 2 ^ (ey + 1074) < 2 ^ d2 * 2 ^ (ey + 1074)).
    { apply Z.mul_lt_mono_pos_r; [apply Z.pow_pos_nonneg; lia | lia]. }
    assert (B : 2 ^ (d1 - 1) * 2 ^ (ex + 1074) <= Z.pos mx * 2 ^ (ex + 1074)).
    { apply Z.mul_le_mono_nonneg_r; [apply Z.pow_nonneg; lia | lia]. }
    rewrite <- Z.pow_add_r in A by lia. rewrite <- Z.pow_add_r in B by lia.
    assert (2 ^ (d2 + (ey + 1074)) <= 2 ^ (d1 - 1 + (ex + 1074)))
      by (apply Z.pow_le_mono_r; lia).
    lia. }
  assert (Hf : fexp prec emax (d1 + ex - (d2 + ey)) <= -53)
    by (unfold fexp, emin, prec, emax; lia).
  set (e := Z.min (fexp prec emax (d1 + ex - (d2 + ey))) (ex - ey)) in *.
  assert (He : e <= -53) by lia.
  assert (Hs : 0 <= ex - ey - e) by lia.
  set (s := ex - ey - e) in *.
  assert (Em : match s with
               | 0 => Z.pos mx
               | Z.pos _ => Z.shiftl (Z.pos mx) s
               | Z.neg _ => 0
               end = Z.pos mx * 2 ^ s).
  { destruct s as [| p | p] eqn:Es; [cbn; lia | | lia].
    rewrite Z.shiftl_mul_pow2 by lia. reflexivity. }
  rewrite Em.
  pose proof (Z_div_mod (Z.pos mx * 2 ^ s) (Z.pos my) ltac:(lia)) as H.
  destruct (Z.div_eucl (Z.pos mx * 2 ^ s) (Z.pos my)) as [q r].
  destruct H as (H1 & H2).
  assert (P : 0 < 2 ^ s) by (apply Z.pow_pos_nonneg; lia).
  assert (Hq : 0 <= q) by nia.
  split; [exact Hq |]. split; [lia |].
  destruct (Z_lt_le_dec q (2 ^ (- e))) as [L | G]; [exact L | exfalso].
  (* my * 2^(-e) <= my * q <= mx * 2^s, scaled by 2^(ey + 1074) *)
  assert (A : Z.pos my * 2 ^ (- e) <= Z.pos mx * 2 ^ s) by nia.
  assert (B : Z.pos my * 2 ^ (- e) * 2 ^ (ey + 1074)
              <= Z.pos mx * 2 ^ s * 2 ^ (ey + 1074)).
  { apply Z.mul_le_mono_nonneg_r; [apply Z.pow_nonneg; lia | exact A]. }
  assert (C : 2 ^ s * 2 ^ (ey + 1074) = 2 ^ (ex + 1074) * 2 ^ (- e)).
  { rewrite <- !Z.pow_add_r by lia. f_equal. unfold s. lia. }
  assert (Q : 0 < 2 ^ (- e)) by (apply Z.pow_pos_nonneg; lia).
  assert (D : Z.pos my * 2 ^ (ey + 1074) * 2 ^ (- e)
              <= Z.pos mx * 2 ^ (ex + 1074) * 2 ^ (- e)).
  { replace (Z.pos mx * 2 ^ (ex + 1074) * 2 ^ (- e))
      with (Z.pos mx * (2 ^ s * 2 ^ (ey + 1074))) by (rewrite C; ring).
    replace (Z.pos my * 2 ^ (ey + 1074) * 2 ^ (- e))
      with (Z.pos my * 2 ^ (- e) * 2 ^ (ey + 1074)) by ring.
    rewrite Z.mul_assoc. exact B. }
  apply Z.mul_le_mono_pos_r in D; [lia | exact Q].
Qed.

Lemma SFdiv_core_binary_nonneg (mx my : positive) (ex ey : Z) :
  let '(q, _, _) := SFdiv_core_binary prec emax (Z.pos mx) ex (Z.pos my) ey in
  0 <= q.
Proof.
  unfold SFdiv_core_binary.
  set (s := ex - ey - _).
  set (a := match s with
            | 0 => Z.pos mx
            | Z.pos _ => Z.shiftl (Z.pos mx) s
            | Z.neg _ => 0
            end).
  assert (Ha : 0 <= a).
  { unfold a. destruct s as [| p | p]; [lia | | lia].
    rewrite Z.shiftl_mul_pow2 by lia.
    apply Z.mul_nonneg_nonneg; [lia | apply Z.pow_nonneg; lia]. }
  pose proof (Z_div_mod a (Z.pos my) ltac:(lia)) as H.
  destruct (Z.div_eucl a (Z.pos my)) as [q r]. nia.
Qed.

(** ** Division by the maximum *)

Lemma rank_one : rank 1 = one_rank.
Proof. reflexivity. Qed.

(** A double that is not NaN and not above a finite positive [m], divided
    by [m], is not NaN and at most 1. *)
Lemma div_le_one (u m : float) :
  finite_positive m = true -> is_nan u = false -> (m <? u)%float = false ->
  is_nan (u / m) = false /\ (u / m <=? 1)%float = true.
Proof.
  unfold finite_positive. intros Hm Hu Hlt.
  destruct (Prim2SF m) as [| | | sm mm em] eqn:Em; try discriminate.
  destruct sm; [discriminate |]. clear Hm.
  assert (Nm : is_nan m = false) by (apply not_nan; rewrite Em; discriminate).
  rewrite (ltb_rank _ _ Nm Hu) in Hlt. apply Z.ltb_ge in Hlt.
  pose proof (Prim2SF_valid m) as Vm. rewrite Em in Vm.
  pose proof (Prim2SF_valid u) as Vu.
  cbn [SpecFloat.valid_binary] in Vm.
  pose proof (finite_small _ _ Vm) as Sm.
  assert (R : Prim2SF (u / m) <> S754_nan /\ rank (u / m) <= one_rank).
  { unfold rank in *. rewrite Em in Hlt. cbn [ord] in Hlt.
    destruct (Z.eq_dec (ord (Prim2SF u)) (Z.pos mm * 2 ^ (em + 1074))) as [Eq | Ne].
    - (* the same double: the quotient is exactly 1 *)
      assert (u = m).
      { destruct (Prim2SF u) as [su | su | | su mu eu] eqn:Eu; cbn [ord] in Eq.
        - lia.
        - assert (0 < 2 ^ 2100) by (apply Z.pow_pos_nonneg; lia). destruct su; lia.
        - lia.
        - cbn [SpecFloat.valid_binary] in Vu. pose proof (finite_small _ _ Vu).
          destruct su; [lia |].
          apply (rank_inj_finite u m false mu mm eu em Eu Em).
          unfold rank. rewrite Eu, Em. cbn [ord]. exact Eq. }
      subst u.
      assert (F : (m / m)%float = 1%float)
        by (apply float_div_self; unfold finite_nonzero; rewrite Em; reflexivity).
      rewrite F. split; [vm_compute; discriminate | vm_compute; discriminate].
    - assert (Lt : ord (Prim2SF u) < Z.pos mm * 2 ^ (em + 1074)) by lia.
      rewrite FloatAxioms.div_spec, Em. unfold SF64div.
      destruct (Prim2SF u) as [su | su | | su mu eu] eqn:Eu; cbn [ord SFdiv] in *.
      + split; [discriminate |]. unfold one_rank. cbn [ord].
        apply Z.pow_nonneg. lia.
      + assert (0 < 2 ^ 2100) by (apply Z.pow_pos_nonneg; lia).
        destruct su; [| lia]. cbn [xorb ord]. split; [discriminate |].
        unfold one_rank. assert (0 < 2 ^ 1074) by (apply Z.pow_pos_nonneg; lia). lia.
      + apply not_nan in Hu. rewrite Eu in Hu. congruence.
      + cbn [SpecFloat.valid_binary] in Vu. rewrite xorb_false_r.
        destruct su.
        * (* a negative quotient *)
          pose proof (SFdiv_core_binary_nonneg mu mm eu em) as Hq.
          destruct (SFdiv_core_binary prec emax (Z.pos mu) eu (Z.pos mm) em)
            as [[q e] l].
          pose proof (binary_round_aux_sign true q e l Hq) as S.
          assert (0 < 2 ^ 1074) by (apply Z.pow_pos_nonneg; lia).
          assert (0 < 2 ^ 2100) by (apply Z.pow_pos_nonneg; lia).
          destruct (binary_round_aux prec emax true q e l) as [s | s | | s m' e'];
            try contradiction; subst s; cbn [ord];
            (split; [discriminate |]); unfold one_rank;
            try assert (0 <= Z.pos m' * 2 ^ (e' + 1074))
              by (apply Z.mul_nonneg_nonneg; [lia | apply Z.pow_nonneg; lia]);
            lia.
        * pose proof (SFdiv_core_binary_small mu mm eu em Vu Vm Lt) as C.
          destruct (SFdiv_core_binary prec emax (Z.pos mu) eu (Z.pos mm) em)
            as [[q e] l].
          destruct C as (Hq & He & Hlt').
          pose proof (binary_round_aux_small false q e l Hq He Hlt') as S.
          destruct (binary_round_aux prec emax false q e l) as [s | s | | s m' e'];
            try contradiction.
          -- split; [discriminate |]. cbn [ord]. unfold one_rank.
             apply Z.pow_nonneg. lia.
          -- destruct S as (-> & S). split; [discriminate |]. cbn [ord].
             exact S. }
  destruct R as (N & R). apply not_nan in N. split; [exact N |].
  assert (N1 : is_nan 1 = false) by reflexivity.
  rewrite (leb_rank _ _ N N1), rank_one.
  apply Z.leb_le. exact R.
Qed.

(** A double that is not below zero, divided by a finite positive one, is
    not below zero. *)
Lemma div_nonneg (u m : float) :
  finite_positive m = true -> (0 <=? u)%float = true -> (0 <=? u / m)%float = true.
Proof.
  unfold finite_positive. intros Hm Hu.
  destruct (Prim2SF m) as [| | | sm mm em] eqn:Em; try discriminate.
  destruct sm; [discriminate |]. clear Hm.
  rewrite FloatAxioms.leb_spec in *. rewrite FloatAxioms.div_spec, Em.
  change (Prim2SF 0) with (S754_zero false) in *. unfold SF64div.
  destruct (Prim2SF u) as [su | su | | su mu eu]; cbn [SFdiv].
  - reflexivity.
  - destruct su; [discriminate | reflexivity].
  - discriminate.
  - destruct su; [discriminate |]. cbn [xorb].
    pose proof (SFdiv_core_binary_nonneg mu mm eu em) as Hq.
    destruct (SFdiv_core_binary prec emax (Z.pos mu) eu (Z.pos mm) em)
      as [[q e] l].
    pose proof (binary_round_aux_sign false q e l Hq) as S.
    destruct (binary_round_aux prec emax false q e l) as [s | s | | s m' e'];
      try contradiction; subst s; reflexivity.
Qed.

(** ** The running maximum *)

Lemma fold_dmax_spec (l : list float) (a : float) :
  is_nan a = false ->
  let r := fold_left dmax l a in
  is_nan r = false /\ rank a <= rank r /\
  (forall u, u ∈ l -> is_nan u = false -> rank u <= rank r) /\
  (r = a \/ r ∈ l).
Proof.
  revert a. induction l as [| y l IH]; intros a Ha; cbn [fold_left].
  - split; [exact Ha |]. split; [lia |]. split; [| left; reflexivity].
    intros u Hu. apply elem_of_nil in Hu. contradiction.
  - assert (Hd : is_nan (dmax a y) = false /\ rank a <= rank (dmax a y) /\
                 (is_nan y = false -> rank y <= rank (dmax a y)) /\
                 (dmax a y = a \/ dmax a y = y)).
    { unfold dmax. destruct (is_nan y) eqn:Ny.
      - rewrite (ltb_nan_r a y Ny). split; [exact Ha |]. split; [lia |].
        split; [discriminate | left; reflexivity].
      - rewrite (ltb_rank a y Ha Ny). destruct (Z.ltb_spec (rank a) (rank y)).
        + split; [exact Ny |]. split; [lia |]. split; [lia | right; reflexivity].
        + split; [exact Ha |]. split; [lia |]. split; [lia | left; reflexivity]. }
    destruct Hd as (D1 & D2 & D3 & D4).
    destruct (IH (dmax a y) D1) as (I1 & I2 & I3 & I4).
    split; [exact I1 |]. split; [lia |]. split.
    + intros u Hu Nu. apply elem_of_cons in Hu. destruct Hu as [-> | Hu].
      * specialize (D3 Nu). lia.
      * exact (I3 u Hu Nu).
    + destruct I4 as [E | E].
      * rewrite E. destruct D4 as [-> | ->]; [left; reflexivity |].
        right. apply elem_of_cons. left. reflexivity.
      * right. apply elem_of_cons. right. exact E.
Qed.

Lemma rank_neg_infinity : rank neg_infinity = - 2 ^ 2100.
Proof. reflexivity. Qed.

Lemma rank_is_one (r : float) :
  is_nan r = false -> rank r = one_rank -> r = 1%float.
Proof.
  intros N R. unfold rank in R.
  assert (P : 0 < one_rank) by (apply Z.pow_pos_nonneg; lia).
  assert (Q : one_rank < 2 ^ 2100) by (apply Z.pow_lt_mono_r; lia).
  destruct (Prim2SF r) as [s | s | | s m e] eqn:E; cbn [ord] in R.
  - lia.
  - destruct s; lia.
  - lia.
  - pose proof (Prim2SF_valid r) as V. rewrite E in V.
    cbn [SpecFloat.valid_binary] in V. pose proof (finite_small _ _ V).
    destruct s; [lia |].
    apply (rank_inj_finite r 1 false m 4503599627370496 e (-52) E eq_refl).
    unfold rank. rewrite E. exact R.
Qed.

(** The maximum is 1 when 1 is an entry and every entry is NaN or at most 1. *)
Lemma fold_dmax_one (l : list float) :
  1%float ∈ l ->
  (forall u, u ∈ l -> is_nan u = true \/ (u <=? 1)%float = true) ->
  fold_left dmax l neg_infinity = 1%float.
Proof.
  intros H1 Hall.
  destruct (fold_dmax_spec l neg_infinity eq_refl) as (N & _ & U & M).
  set (r := fold_left dmax l neg_infinity) in *.
  assert (N1 : is_nan 1 = false) by reflexivity.
  pose proof (U 1%float H1 N1) as L. rewrite rank_one in L.
  assert (P : 0 < one_rank) by (apply Z.pow_pos_nonneg; lia).
  assert (Q : 0 < 2 ^ 2100) by (apply Z.pow_pos_nonneg; lia).
  destruct M as [E | E].
  - rewrite E, rank_neg_infinity in L. lia.
  - destruct (Hall r E) as [C | C]; [congruence |].
    rewrite (leb_rank r 1 N N1), rank_one in C. apply Z.leb_le in C.
    apply rank_is_one; [exact N | lia].
Qed.

(** ** The maximum of a vector *)

(** The maximum is not NaN, no entry that is not NaN ranks above it, and it
    is an entry unless it is minus infinity. *)
Lemma max_spec (w : list double) (m : double) :
  Arma.max w = Ok m ->
  is_nan m = false /\
  (forall u, u ∈ w -> is_nan u = false -> rank u <= rank m) /\
  (m = neg_infinity \/ m ∈ w).
Proof.
  destruct w as [| x xs]; [discriminate |]. cbn [Arma.max]. intros [= <-].
  destruct (fold_dmax_spec (x :: xs) neg_infinity eq_refl) as (N & _ & U & M).
  split; [exact N |]. split; [exact U | exact M].
Qed.

(** A maximum that is finite and not zero is one of the entries. *)
Lemma max_is_an_entry (w : list double) (m : double) :
  Arma.max w = Ok m -> finite_nonzero m = true -> exists k : nat, w !! k = Some m.
Proof.
  intros E F. destruct (max_spec w m E) as (_ & _ & [-> | M]).
  - discriminate F.
  - apply list_elem_of_lookup. exact M.
Qed.

Lemma max_not_below (w : list double) (m u : double) :
  Arma.max w = Ok m -> u ∈ w -> (m <? u)%float = false.
Proof.
  intros E Hu. destruct (max_spec w m E) as (N & U & _).
  destruct (is_nan u) eqn:Nu; [exact (ltb_nan_r m u Nu) |].
  rewrite (ltb_rank m u N Nu). apply Z.ltb_ge. exact (U u Hu Nu).
Qed.

Lemma div_nan (u m : double) : is_nan u = true -> is_nan (u / m) = true.
Proof.
  intros H. apply is_nan_spec in H. apply is_nan_spec.
  rewrite FloatAxioms.div_spec, H. reflexivity.
Qed.

Lemma finite_positive_nonzero (m : double) :
  finite_positive m = true -> finite_nonzero m = true.
Proof.
  unfold finite_positive, finite_nonzero.
  destruct (Prim2SF m) as [| | | [] ? ?]; congruence.
Qed.

(** Divided by a maximum that is finite and positive, the entries have the
    maximum 1. *)
Lemma max_of_normalised (w : list double) (m : double) :
  Arma.max w = Ok m -> finite_positive m = true ->
  Arma.max (map (fun x => (x / m)%float) w) = Ok 1%float.
Proof.
  intros E F.
  destruct (max_is_an_entry w m E (finite_positive_nonzero m F)) as (k & Hk).
  destruct w as [| x xs]; [discriminate |].
  change (map (fun x0 => (x0 / m)%float) (x :: xs))
    with ((fun x0 => (x0 / m)%float) <$> (x :: xs)).
  set (l := (fun x0 => (x0 / m)%float) <$> (x :: xs)).
  assert (El : Arma.max l = Ok (fold_left dmax l neg_infinity)) by reflexivity.
  rewrite El. f_equal. apply fold_dmax_one.
  - apply list_elem_of_fmap. exists m. split.
    + symmetry. apply float_div_self. exact (finite_positive_nonzero m F).
    + apply list_elem_of_lookup. exists k. exact Hk.
  - intros u' Hu'. apply list_elem_of_fmap in Hu'. destruct Hu' as (u & -> & Hu).
    destruct (is_nan u) eqn:Nu; [left; exact (div_nan u m Nu) | right].
    exact (proj2 (div_le_one u m F Nu (max_not_below _ m u E Hu))).
Qed.

(** ** The claims about [Sample] *)

Section SampleClaims.

Variable pow : double -> double -> double.
Variable Rng : Type.
Variable randu : Rng -> double * Rng.

Abbreviation sampleProportional := (sampleProportional Rng randu).
Abbreviation Sample := (Sample pow Rng randu).

Lemma sampleProportional_length b g g' idxes :
  sampleProportional b g = (Ok idxes, g') -> length idxes = Z.to_nat (batchSize b).
Proof.
  unfold Replay.sampleProportional, bind, lift.
  destruct (SumTree.RangeSum (idxSum b) 0 (wrap64 (upperBound b - 1))) as [total | e];
    [| discriminate].
  destruct (strata_run Rng randu b (total / of_size_t (batchSize b))%float
              (Z.to_nat (batchSize b)) 0 g) as (idxes' & -> & Hlen & _).
  intros [= <- _]. exact Hlen.
Qed.

(** C3, as the code has it.  For a call of [Sample] that does not throw,
    with a weight vector that the caller sized to the batch, and with
    [N = upperBound] (the capacity if the buffer is full, else the cursor):
    the sampled index at each place [k] has a leaf value [l], its
    unnormalised weight is [pow(N * (l / Total()), -beta)], and the weights
    returned are the unnormalised ones, each divided by their maximum [m]
    (Armadillo's, which skips NaN).  [m] is minus infinity or one of the
    unnormalised weights.  If [m] is finite and not zero, the weight
    returned where [m] is attained is exactly 1.0.  If [m] is finite and
    positive, then moreover 1.0 is the maximum of the returned weights,
    every returned weight is at most 1.0 unless its unnormalised weight is
    NaN, and it is at least 0 when its unnormalised weight is.  (It can be
    exactly 0, so the weights need not lie in (0, 1]; and when [m] is not
    finite and positive none of this need hold.) *)
Theorem Sample_weights
    (b : PrioritizedReplay) (beta : double) (o o' : batch) (g g' : Rng) :
  Sample b beta (o, g) = (Ok tt, (o', g')) ->
  length (weights o) = Z.to_nat (batchSize b) ->
  exists (w : list double) (m : double),
    length w = length (sampledIndices o') /\
    (forall (k : nat) (idx : Z),
       sampledIndices o' !! k = Some idx ->
       exists l : double,
         SumTree.leaf (idxSum b) idx = Ok l /\
         w !! k = Some (pow (of_size_t (upperBound b)
                             * (l / SumTree.Total (idxSum b)))%float
                            (- beta)%float)) /\
    Arma.max w = Ok m /\
    weights o' = map (fun x => (x / m)%float) w /\
    (m = neg_infinity \/ exists k : nat, w !! k = Some m) /\
    (finite_nonzero m = true ->
     (exists k : nat, w !! k = Some m) /\
     forall k : nat, w !! k = Some m -> weights o' !! k = Some 1%float) /\
    (finite_positive m = true ->
     Arma.max (weights o') = Ok 1%float /\
     (forall (k : nat) (u : double),
        w !! k = Some u -> is_nan u = false ->
        exists x : double,
          weights o' !! k = Some x /\ is_nan x = false /\ (x <=? 1)%float = true) /\
     (forall (k : nat) (u : double),
        w !! k = Some u -> (0 <=? u)%float = true ->
        exists x : double,
          weights o' !! k = Some x /\ (0 <=? x)%float = true)).
Proof.
  intros E Hlen.
  destruct (Sample_inv pow Rng randu b beta o g o' g' E)
    as (w & m & ES & _ & _ & _ & _ & _ & Hw & Hk & _ & Hm & Hn).
  pose proof (sampleProportional_length _ _ _ _ ES) as Hl.
  exists w, m. split; [congruence |]. split.
  { intros k idx Hidx.
    destruct (Hk k (lookup_lt_Some _ _ _ Hidx)) as (idx' & l & Hidx' & Hl' & Hwk).
    exists l. split; [congruence | exact Hwk]. }
  split; [exact Hm |]. split; [exact Hn |]. split.
  { destruct (max_spec w m Hm) as (_ & _ & [-> | M]); [left; reflexivity | right].
    apply list_elem_of_lookup. exact M. }
  assert (Hquot : forall (k : nat) (u : double),
            w !! k = Some u -> weights o' !! k = Some (u / m)%float).
  { intros k u Hu. rewrite Hn, list_lookup_fmap, Hu. reflexivity. }
  split.
  { intros Hfin. split; [exact (max_is_an_entry w m Hm Hfin) |].
    intros k Hwk. rewrite (Hquot k m Hwk), (float_div_self m Hfin). reflexivity. }
  intros Hpos. split; [rewrite Hn; exact (max_of_normalised w m Hm Hpos) |]. split.
  - intros k u Hu Nu. exists (u / m)%float. split; [exact (Hquot k u Hu) |].
    apply (div_le_one u m Hpos Nu).
    exact (max_not_below w m u Hm (list_elem_of_lookup_2 _ _ _ Hu)).
  - intros k u Hu H0. exists (u / m)%float. split; [exact (Hquot k u Hu) |].
    exact (div_nonneg u m Hpos H0).
Qed.

(** C6, as the code has it.  Every index that [sampleProportional] returns,
    and so every index that [Sample] returns, is a leaf of the sum tree: it
    lies in [0, size), [size] being the smallest power of two that is at
    least the capacity.  It is below [upperBound] when the buffer is full
    and its capacity is a power of two; otherwise it can lie at or above
    [upperBound], in a slot never written. *)
Theorem sampled_indices_are_leaves (b : PrioritizedReplay) :
  wf b ->
  (forall (g g' : Rng) (idxes : list Z),
     sampleProportional b g = (Ok idxes, g') ->
     Forall (fun idx => 0 <= idx < SumTree.size (idxSum b)) idxes) /\
  (forall (beta : double) (o o' : batch) (g g' : Rng),
     Sample b beta (o, g) = (Ok tt, (o', g')) ->
     Forall (fun idx => 0 <= idx < SumTree.size (idxSum b)) (sampledIndices o')) /\
  (full b = true -> SumTree.size (idxSum b) = capacity b ->
   forall (g g' : Rng) (idxes : list Z),
     sampleProportional b g = (Ok idxes, g') ->
     Forall (fun idx => 0 <= idx < upperBound b) idxes).
Proof.
  intros W.
  assert (P : forall (g g' : Rng) (idxes : list Z),
             sampleProportional b g = (Ok idxes, g') ->
             Forall (fun idx => 0 <= idx < SumTree.size (idxSum b)) idxes).
  { intros g g' idxes E.
    destruct (Z_lt_le_dec 0 (upperBound b)) as [Hub | Hub].
    - destruct (sampleProportional_run Rng randu b g W Hub)
        as (total & idxes' & _ & E' & Hlen & Hk).
      rewrite E in E'. injection E' as <- _.
      apply Forall_lookup. intros k idx Hidx.
      pose proof (lookup_lt_Some _ _ _ Hidx) as Hlt.
      rewrite (Hk k ltac:(lia)) in Hidx. cbv zeta in Hidx. injection Hidx as <-.
      apply FindPrefixSum_range; [exact (wf_tree b W) | exact (wf_whole b W)].
    - exfalso. pose proof (wf_position b W) as Hp. pose proof (wf_capacity b W) as Hc.
      unfold upperBound in Hub. destruct (full b) eqn:Hf; [lia |].
      destruct (sampleProportional_empty Rng randu b g W ltac:(lia) Hf) as (_ & E').
      rewrite E in E'. discriminate. }
  split; [exact P |]. split.
  - intros beta o o' g g' E.
    destruct (Sample_inv pow Rng randu b beta o g o' g' E) as (w & m & ES & _).
    exact (P _ _ _ ES).
  - intros Hfull Hsize g g' idxes E. unfold upperBound. rewrite Hfull, <- Hsize.
    exact (P _ _ _ E).
Qed.

End SampleClaims.

Lemma Sample_weights_witness :
  let r := Demo.Sample Inputs.full_3_1 1 (Demo.blank 2, [0.25%float; 0.5%float]) in
  exists (w : list double) (m : double),
    length w = length (sampledIndices (fst (snd r))) /\
    (forall (k : nat) (idx : Z),
       sampledIndices (fst (snd r)) !! k = Some idx ->
       exists l : double,
         SumTree.leaf (idxSum Inputs.full_3_1) idx = Ok l /\
         w !! k = Some (c_pow (of_size_t (upperBound Inputs.full_3_1)
                               * (l / SumTree.Total (idxSum Inputs.full_3_1)))%float
                              (- 1)%float)) /\
    Arma.max w = Ok m /\
    weights (fst (snd r)) = map (fun x => (x / m)%float) w /\
    (m = neg_infinity \/ exists k : nat, w !! k = Some m) /\
    (finite_nonzero m = true ->
     (exists k : nat, w !! k = Some m) /\
     forall k : nat, w !! k = Some m -> weights (fst (snd r)) !! k = Some 1%float) /\
    (finite_positive m = true ->
     Arma.max (weights (fst (snd r))) = Ok 1%float /\
     (forall (k : nat) (u : double),
        w !! k = Some u -> is_nan u = false ->
        exists x : double,
          weights (fst (snd r)) !! k = Some x /\ is_nan x = false /\
          (x <=? 1)%float = true) /\
     (forall (k : nat) (u : double),
        w !! k = Some u -> (0 <=? u)%float = true ->
        exists x : double,
          weights (fst (snd r)) !! k = Some x /\ (0 <=? x)%float = true)).
Proof.
  intros r.
  apply (Sample_weights c_pow Demo.script Demo.next Inputs.full_3_1 1 (Demo.blank 2)
           (fst (snd r)) [0.25%float; 0.5%float] (snd (snd r))).
  - vm_compute. reflexivity.
  - reflexivity.
Defined.

(** C3, as the specification has it, fails, in two ways.  First: the
    buffer has capacity 2, is full, and its priorities are 1 and 0 (leaves
    1.0 and 0.0, total 1.0); [beta] is 1 and the two draws are 0.25 and the
    largest double below 1.  The second stratum's mass rounds to the total,
    the zero leaf is selected, its weight [pow(2 * 0, -1)] is infinite, and
    normalisation gives the weights 0 and NaN: their largest is not 1.0,
    and neither lies in (0, 1].  A second draw of exactly 1.0, which the
    range [0, 1] of [arma::randu] allows, does the same.  Second, with a
    maximum that is finite and positive: the leaves are 1 and 262144,
    [beta] is 60 and the draws are 0 and 0.5.  The unnormalised weights are
    about [1.1e307] and [8.7e-19], their quotient is below the smallest
    positive double, and the weights returned are 1 and 0: the maximum is
    1.0 and 0 does not lie in (0, 1].  (The quotient is about [7.7e-326];
    the last bits of [pow], which [c_pow] need not share with the C
    library here, do not bring it up to a double.) *)
Lemma Sample_weights_zero_and_nan :
  (let b := Inputs.full_1_0 in
   let r := Demo.Sample b 1 (Demo.blank 2, [0.25%float; Inputs.below_one]) in
   SumTree.leaf (idxSum b) 0 = Ok 1%float /\
   SumTree.leaf (idxSum b) 1 = Ok 0%float /\
   fst r = Ok tt /\
   sampledIndices (fst (snd r)) = [0; 1] /\
   weights (fst (snd r)) = [0%float; nan] /\
   Arma.max (weights (fst (snd r))) = Ok 0%float /\
   weights (fst (snd (Demo.Sample b 1 (Demo.blank 2, [0.25%float; 1%float]))))
   = [0%float; nan]) /\
  (let b := MoreInputs.peaked in
   let r := Demo.Sample b 60 (Demo.blank 2, [0%float; 0.5%float]) in
   let w0 := c_pow (of_size_t 2 * (1 / 262145))%float (- 60)%float in
   let w1 := c_pow (of_size_t 2 * (262144 / 262145))%float (- 60)%float in
   SumTree.leaf (idxSum b) 0 = Ok 1%float /\
   SumTree.leaf (idxSum b) 1 = Ok 262144%float /\
   SumTree.Total (idxSum b) = 262145%float /\
   upperBound b = 2 /\
   fst r = Ok tt /\
   sampledIndices (fst (snd r)) = [0; 1] /\
   Arma.max [w0; w1] = Ok w0 /\
   finite_positive w0 = true /\
   (0 <? w1)%float = true /\
   weights (fst (snd r)) = [(w0 / w0)%float; (w1 / w0)%float] /\
   weights (fst (snd r)) = [1%float; 0%float]).
Proof. vm_compute. repeat split; reflexivity. Qed.

Lemma sampled_indices_are_leaves_witness :
  Forall (fun idx => 0 <= idx < SumTree.size (idxSum Inputs.half_filled))
         (sampledIndices
            (fst (snd (Demo.Sample Inputs.half_filled 1
                         (Demo.blank 2, [0.25%float; 0.5%float]))))).
Proof.
  apply (proj1 (proj2 (sampled_indices_are_leaves c_pow Demo.script Demo.next
                         Inputs.half_filled half_filled_wf))
           1%float (Demo.blank 2) _ [0.25%float; 0.5%float]
           (snd (snd (Demo.Sample Inputs.half_filled 1
                        (Demo.blank 2, [0.25%float; 0.5%float]))))).
  vm_compute. reflexivity.
Defined.

(** C6, as the specification has it, fails, in two ways.  On a buffer of
    capacity 4 that holds two transitions, with the draws 0.5 and the
    largest double below 1, the second stratum's mass rounds to the total
    and resolves to index 3.  On a buffer that holds one transition whose
    priority was set to 0, the total mass is 0 and both strata resolve to
    index 3.  Slot 3 was never written, and 3 is not below [upperBound]. *)
Lemma sampling_returns_a_slot_never_written :
  (upperBound Inputs.half_filled = 2 /\
   Demo.sampleProportional Inputs.half_filled [0.5%float; Inputs.below_one]
   = (Ok [0; 3], [])) /\
  (upperBound Inputs.zero_mass = 1 /\
   Demo.sampleProportional Inputs.zero_mass [0.5%float; 0.5%float]
   = (Ok [3; 3], [])).
Proof. vm_compute. repeat split; reflexivity. Qed.

(** * Further properties of the methods *)

(** ** [Store]: what one call writes, and what it leaves *)

Section StoreMore.

Variable StateType : Type.
Variable Encode : StateType -> list double.
Variable ActionType : Type.
Variable action_code : ActionType -> Z.

Abbreviation Store := (Store StateType Encode ActionType action_code).
Abbreviation transition := (transition StateType ActionType).
Abbreviation store_one := (store_one StateType Encode ActionType action_code).
Abbreviation row := (row StateType Encode ActionType action_code).
Abbreviation fits := (fits StateType Encode ActionType).

(** X1. On a buffer in good shape, a call of [Store] whose two states have
    the buffer's dimension does not throw; it writes the transition into the
    slot at the cursor, overwriting what was there, and leaves every other
    slot, the priority leaf of every other slot, [max_priority], [alpha],
    [batchSize] and [capacity] as they were. *)
Theorem Store_writes_one_slot (t : transition) (b : PrioritizedReplay) :
  wf b ->
  fits (Arma.n_rows (states b)) t ->
  Arma.n_rows (nextStates b) = Arma.n_rows (states b) ->
  let r := store_one t b in
  fst r = Ok tt /\
  slot (snd r) (position b) = Some (row t) /\
  (forall j : Z, 0 <= j -> j <> position b -> slot (snd r) j = slot b j) /\
  (forall j : Z, j <> position b ->
     SumTree.leaf (idxSum (snd r)) j = SumTree.leaf (idxSum b) j) /\
  max_priority (snd r) = max_priority b /\ alpha (snd r) = alpha b /\
  batchSize (snd r) = batchSize b /\ capacity (snd r) = capacity b.
Proof.
  intros W F Hrows r. subst r.
  pose proof (fun j => slot_after_Store StateType Encode ActionType action_code
                         t b j W F Hrows) as Hslot.
  pose proof (wf_position b W) as Hp.
  destruct F as [Fs Fn]. unfold Client.store_one in *.
  destruct (Store_ok StateType Encode ActionType action_code
              (t_state _ _ t) (t_action _ _ t) (t_reward _ _ t)
              (t_nextState _ _ t) (t_isEnd _ _ t) b W Fs ltac:(congruence))
    as (t' & EU & E).
  split; [rewrite E; reflexivity |].
  split; [rewrite Hslot by lia; rewrite Z.eqb_refl; reflexivity |].
  split.
  - intros j Hj Hne. rewrite Hslot by lia.
    destruct (Z.eqb_spec j (position b)); [contradiction | reflexivity].
  - rewrite E. fields. split.
    + intros j Hne. exact (leaf_Update_other _ _ _ _ j (wf_tree b W) EU Hne).
    + repeat split; reflexivity.
Qed.

(** X2. On a buffer in good shape, [Store] throws [DimensionMismatch] when
    a state has the wrong dimension, and the cursor, the [full] flag and the
    sum tree are then as before.  If it is [state], nothing at all has been
    written.  If it is [nextState], the slot at the cursor already holds the
    new state, action and reward, next to the next state and the terminal
    flag of the transition that was there. *)
Theorem Store_with_a_state_of_the_wrong_dimension
    (state : StateType) (action : ActionType) (reward : double)
    (nextState : StateType) (isEnd : bool) (b : PrioritizedReplay) :
  wf b ->
  let r := Store state action reward nextState isEnd b in
  (Z.of_nat (length (Encode state)) <> Arma.n_rows (states b) ->
   r = (Err DimensionMismatch, b)) /\
  (Z.of_nat (length (Encode state)) = Arma.n_rows (states b) ->
   Z.of_nat (length (Encode nextState)) <> Arma.n_rows (nextStates b) ->
   fst r = Err DimensionMismatch /\
   Arma.columns (states (snd r)) !! Z.to_nat (position b) = Some (Encode state) /\
   actions (snd r) !! Z.to_nat (position b) = Some (action_code action) /\
   rewards (snd r) !! Z.to_nat (position b) = Some reward /\
   nextStates (snd r) = nextStates b /\ isTerminal (snd r) = isTerminal b /\
   idxSum (snd r) = idxSum b /\ position (snd r) = position b /\
   full (snd r) = full b).
Proof.
  intros W r. subst r. pose proof (wf_position b W) as Hp.
  pose proof (wf_states b W) as Hs. pose proof (wf_actions b W) as Ha.
  pose proof (wf_rewards b W) as Hr. pose proof (wf_nextStates b W) as Hn.
  split.
  - intros Hbad. unfold Replay.Store. rewrite seq_run, assign_run.
    unfold Arma.set_col.
    destruct (Z.leb_spec 0 (position b)); [| lia].
    destruct (Z.ltb_spec (position b) (Arma.n_cols (states b))); [| lia].
    cbn [andb]. destruct (Z.eqb_spec (Z.of_nat (length (Encode state)))
                                     (Arma.n_rows (states b))); [contradiction |].
    reflexivity.
  - intros Hok Hbad. unfold Replay.Store.
    rewrite seq_run, assign_run, set_col_ok by lia. fields.
    rewrite seq_run, assign_run. fields. rewrite set_at_ok by lia. fields.
    rewrite seq_run, assign_run. fields. rewrite set_at_ok by lia. fields.
    rewrite seq_run, assign_run. fields. unfold Arma.set_col.
    destruct (Z.leb_spec 0 (position b)); [| lia].
    destruct (Z.ltb_spec (position b) (Arma.n_cols (nextStates b))); [| lia].
    cbn [andb]. destruct (Z.eqb_spec (Z.of_nat (length (Encode nextState)))
                                     (Arma.n_rows (nextStates b))); [contradiction |].
    fields. cbn [Arma.columns]. unfold Arma.n_cols in *.
    rewrite !list_lookup_insert_eq by lia.
    repeat split; reflexivity.
Qed.

End StoreMore.

(** X1 on the full buffer of capacity 2: the call overwrites slot 0 and
    leaves slot 1 and its priority. *)
Lemma Store_writes_one_slot_witness :
  let r := Client.store_one (list double) Demo.encode Z Demo.code
             (Demo.observe 5 1) Inputs.full_3_1 in
  fst r = Ok tt /\
  slot (snd r) (position Inputs.full_3_1)
  = Some (Client.row (list double) Demo.encode Z Demo.code (Demo.observe 5 1)) /\
  (forall j : Z, 0 <= j -> j <> position Inputs.full_3_1 ->
     slot (snd r) j = slot Inputs.full_3_1 j) /\
  (forall j : Z, j <> position Inputs.full_3_1 ->
     SumTree.leaf (idxSum (snd r)) j = SumTree.leaf (idxSum Inputs.full_3_1) j) /\
  max_priority (snd r) = max_priority Inputs.full_3_1 /\
  alpha (snd r) = alpha Inputs.full_3_1 /\
  batchSize (snd r) = batchSize Inputs.full_3_1 /\
  capacity (snd r) = capacity Inputs.full_3_1.
Proof.
  apply (Store_writes_one_slot (list double) Demo.encode Z Demo.code
           (Demo.observe 5 1) Inputs.full_3_1).
  - exact full_3_1_wf.
  - vm_compute. split; reflexivity.
  - reflexivity.
Defined.

(** X2 on the buffer of capacity 4 that holds two transitions of
    dimension 1: a state of dimension 2, and then a next state of
    dimension 2. *)
Lemma Store_with_a_state_of_the_wrong_dimension_witness :
  Demo.Store [1%float; 2%float] 7 1%float [1%float] false Inputs.half_filled
  = (Err DimensionMismatch, Inputs.half_filled) /\
  let r := Demo.Store [5%float] 7 1%float [1%float; 2%float] false
             Inputs.half_filled in
  fst r = Err DimensionMismatch /\
  Arma.columns (states (snd r)) !! Z.to_nat (position Inputs.half_filled)
  = Some [5%float] /\
  actions (snd r) !! Z.to_nat (position Inputs.half_filled) = Some 7 /\
  rewards (snd r) !! Z.to_nat (position Inputs.half_filled) = Some 1%float /\
  nextStates (snd r) = nextStates Inputs.half_filled /\
  isTerminal (snd r) = isTerminal Inputs.half_filled /\
  idxSum (snd r) = idxSum Inputs.half_filled /\
  position (snd r) = position Inputs.half_filled /\
  full (snd r) = full Inputs.half_filled.
Proof.
  split.
  - apply (proj1 (Store_with_a_state_of_the_wrong_dimension
                    (list double) Demo.encode Z Demo.code
                    [1%float; 2%float] 7 1%float [1%float] false
                    Inputs.half_filled half_filled_wf)).
    vm_compute. discriminate.
  - apply (proj2 (Store_with_a_state_of_the_wrong_dimension
                    (list double) Demo.encode Z Demo.code
                    [5%float] 7 1%float [1%float; 2%float] false
                    Inputs.half_filled half_filled_wf)).
    + reflexivity.
    + vm_compute. discriminate.
Defined.

(** ** [update_priorities]: what it leaves, and vectors of different lengths *)

(** X3. [update_priorities] writes the sum tree and [max_priority] and
    nothing else: whatever the two vectors are, and whether the call throws
    or not, every slot holds the transition it held, and the cursor, the
    [full] flag, the number of populated slots, [capacity], [alpha] and
    [batchSize] are as before. *)
Theorem update_priorities_keeps_the_transitions
    (indices priorities : list Z) (b : PrioritizedReplay) :
  let b' := snd (update_priorities indices priorities b) in
  (forall j : Z, slot b' j = slot b j) /\
  position b' = position b /\ full b' = full b /\
  upperBound b' = upperBound b /\ capacity b' = capacity b /\
  alpha b' = alpha b /\ batchSize b' = batchSize b.
Proof.
  intros b'. subst b'. unfold update_priorities.
  destruct (update_loop_frame indices priorities (length indices) 0 b)
    as (F1 & F2 & F3 & F4 & F5 & F6 & F7 & F8 & F9 & F10).
  split.
  - intros j. unfold slot. rewrite F4, F5, F6, F7, F8. reflexivity.
  - unfold upperBound. rewrite F1, F2, F3. repeat split; assumption.
Qed.

(** The loop never gets past the end of a vector of priorities that is
    shorter than the vector of indices. *)
Lemma update_loop_short_fails indices priorities n (i : nat) b :
  (i <= length priorities < i + n)%nat ->
  fst (update_loop indices priorities n (Z.of_nat i) b) <> Ok tt.
Proof.
  revert i b. induction n as [| n IH]; intros i b H; [lia |].
  cbn [update_loop]. rewrite seq_run, assign_run, !index_lookup.
  destruct (indices !! i) as [idx |]; cbn [rbind]; [| discriminate].
  destruct (priorities !! i) as [p |] eqn:Hp; cbn [rbind]; [| discriminate].
  apply lookup_lt_Some in Hp.
  destruct (SumTree.Update (idxSum b) idx (alpha b * of_size_t p)%float)
    as [t | e]; [| discriminate].
  rewrite seq_run, assign_run. cbn [rbind]. fields.
  replace (Z.of_nat i + 1) with (Z.of_nat (S i)) by lia.
  apply IH. lia.
Qed.

(** With in-range indices it throws at the first pair that has no priority,
    the pairs before it applied. *)
Lemma update_loop_short indices priorities n m (i : nat) b :
  length priorities = (i + m)%nat -> (i + m < length indices)%nat ->
  (m < n)%nat ->
  Forall (fun idx => 0 <= idx < SumTree.capacity (idxSum b))
         (take m (drop i indices)) ->
  update_loop indices priorities n (Z.of_nat i) b =
  (Err UndefinedBehaviour, snd (update_loop indices priorities m (Z.of_nat i) b)).
Proof.
  revert n i b. induction m as [| m IH]; intros n i b Hlen Hlt Hn Hall;
    (destruct n as [| n]; [lia |]).
  - cbn [update_loop ret snd]. rewrite seq_run, assign_run, !index_lookup.
    destruct (lookup_lt_is_Some_2 indices i ltac:(lia)) as [idx ->].
    rewrite (lookup_ge_None_2 priorities i) by lia. reflexivity.
  - destruct (lookup_lt_is_Some_2 indices i ltac:(lia)) as [idx Hi].
    destruct (lookup_lt_is_Some_2 priorities i ltac:(lia)) as [p Hp].
    rewrite !(update_loop_step _ _ _ _ _ _ _ Hi Hp).
    rewrite (drop_S _ _ _ Hi) in Hall. cbn [take] in Hall.
    apply Forall_cons in Hall. destruct Hall as (Hidx & Hall).
    rewrite Update_result.
    rewrite (proj2 (in_range_spec (idxSum b) idx) Hidx).
    apply IH; [lia | lia | lia |]. fields. cbn [SumTree.capacity]. exact Hall.
Qed.

(** X4. [update_priorities] runs over the length of [indices] and reads
    [priorities] unchecked.  Priorities beyond that length are ignored.
    With fewer priorities than indices the call never returns normally: it
    reads past the end of [priorities], which is undefined behaviour, and
    when the indices that do have a priority are leaves of the tree, it gets
    there with exactly those pairs applied. *)
Theorem update_priorities_with_vectors_of_different_lengths
    (indices priorities : list Z) (b : PrioritizedReplay) :
  ((length indices <= length priorities)%nat ->
   update_priorities indices priorities b =
   update_priorities indices (take (length indices) priorities) b) /\
  ((length priorities < length indices)%nat ->
   fst (update_priorities indices priorities b) <> Ok tt /\
   (Forall (fun idx => 0 <= idx < SumTree.capacity (idxSum b))
           (take (length priorities) indices) ->
    update_priorities indices priorities b =
    (Err UndefinedBehaviour,
     snd (update_priorities (take (length priorities) indices) priorities b)))).
Proof.
  unfold update_priorities. change 0 with (Z.of_nat 0). split.
  - intros _. apply update_loop_ext. intros k Hk. split; [reflexivity |].
    rewrite lookup_take_lt by lia. reflexivity.
  - intros Hlt. split; [apply update_loop_short_fails; lia |].
    intros Hall. rewrite length_take, Nat.min_l by lia.
    rewrite (update_loop_short indices priorities (length indices)
               (length priorities) 0 b ltac:(lia) ltac:(lia) Hlt
               ltac:(rewrite drop_0; exact Hall)).
    f_equal. f_equal. apply update_loop_ext. intros k Hk.
    split; [| reflexivity]. rewrite lookup_take_lt by lia. reflexivity.
Qed.

Lemma update_priorities_with_vectors_of_different_lengths_witness :
  update_priorities [0; 2] [3; 1; 9] (Demo.fresh 2 4 1)
  = update_priorities [0; 2] [3; 1] (Demo.fresh 2 4 1) /\
  fst (update_priorities [0; 2; 1] [3; 1] (Demo.fresh 2 4 1)) <> Ok tt /\
  update_priorities [0; 2; 1] [3; 1] (Demo.fresh 2 4 1)
  = (Err UndefinedBehaviour,
     snd (update_priorities [0; 2] [3; 1] (Demo.fresh 2 4 1))).
Proof.
  split.
  - apply (proj1 (update_priorities_with_vectors_of_different_lengths
                    [0; 2] [3; 1; 9] (Demo.fresh 2 4 1))).
    vm_compute. lia.
  - pose proof (proj2 (update_priorities_with_vectors_of_different_lengths
                         [0; 2; 1] [3; 1] (Demo.fresh 2 4 1))
                  ltac:(vm_compute; lia)) as H.
    split; [exact (proj1 H) |].
    apply (proj2 H). repeat constructor; vm_compute; congruence.
Defined.

(** ** The constructor beyond [2^30] *)

(** X5. The constructor's loop doubles an [int]: it overflows, which is
    undefined behaviour, exactly for the capacities above [2^30]; for every
    other capacity the constructor returns a buffer. *)
Theorem new_overflows_exactly_above_2_30
    (batchSize capacity : Z) (alpha : double) (dimension : Z) :
  (2 ^ 30 < capacity ->
   new batchSize capacity alpha dimension = Err UndefinedBehaviour) /\
  (capacity <= 2 ^ 30 ->
   is_ok (new batchSize capacity alpha dimension) = true).
Proof.
  unfold new.
  pose proof (grow_spec 31 0 capacity ltac:(lia) ltac:(lia)) as S.
  change (2 ^ 0) with 1 in S.
  destruct (grow 31 1 capacity) as [sz | e]; cbn [rbind is_ok].
  - destruct S as (j & Hj & -> & Hle & _).
    assert (2 ^ j <= 2 ^ 30) by (apply Z.pow_le_mono_r; lia).
    split; [lia | reflexivity].
  - destruct S as (-> & Hlt). split; [reflexivity | lia].
Qed.

Lemma new_overflows_exactly_above_2_30_witness :
  new 32 (2 ^ 30 + 1) 0.5 4 = Err UndefinedBehaviour /\
  is_ok (new 32 (2 ^ 30) 0.5 4) = true.
Proof.
  split.
  - apply (proj1 (new_overflows_exactly_above_2_30 32 (2 ^ 30 + 1) 0.5 4)).
    vm_compute. reflexivity.
  - apply (proj2 (new_overflows_exactly_above_2_30 32 (2 ^ 30) 0.5 4)).
    vm_compute. discriminate.
Defined.

(** ** [Sample]: the gathers, the draws and the caller's weight vector *)

Lemma at_inv {A} (v : list A) (i : Z) (x : A) :
  Arma.at_ v i = Ok x ->
  0 <= i < Z.of_nat (length v) /\ v !! Z.to_nat i = Some x.
Proof.
  unfold Arma.at_.
  destruct (Z.leb_spec 0 i); cbn [andb]; [| discriminate].
  destruct (Z.ltb_spec i (Z.of_nat (length v))); [| discriminate].
  destruct (v !! Z.to_nat i); [| discriminate].
  intros [= ->]. split; [lia | reflexivity].
Qed.

Lemma at_run {A} (v : list A) (i : Z) :
  Arma.at_ v i =
  if (0 <=? i) && (i <? Z.of_nat (length v))
  then match v !! Z.to_nat i with Some x => Ok x | None => Err IndexOutOfRange end
  else Err IndexOutOfRange.
Proof. reflexivity. Qed.

(** A gather that returns: one entry per index, each the entry at that
    index. *)
Lemma elem_inv {A} (v : list A) (indices : list Z) (xs : list A) :
  Arma.elem v indices = Ok xs ->
  length xs = length indices /\
  forall (k : nat) (i : Z), indices !! k = Some i ->
    0 <= i < Z.of_nat (length v) /\ is_Some (xs !! k) /\ xs !! k = v !! Z.to_nat i.
Proof.
  revert xs. induction indices as [| i rest IH]; intros xs; cbn [Arma.elem].
  - intros [= <-]. split; [reflexivity |]. intros k j Hk.
    rewrite lookup_nil in Hk. discriminate.
  - destruct (Arma.at_ v i) as [x | e] eqn:Ea; cbn [rbind]; [| discriminate].
    destruct (Arma.elem v rest) as [ys | e]; cbn [rbind]; [| discriminate].
    intros [= <-]. destruct (IH ys eq_refl) as (Hl & Hk).
    apply at_inv in Ea. destruct Ea as (Hi & Hx).
    split; [cbn [length]; lia |].
    intros [| k] j; cbn [lookup list_lookup].
    + intros [= <-]. split; [exact Hi |]. split; [eexists; reflexivity |].
      symmetry. exact Hx.
    + intros Hj. exact (Hk k j Hj).
Qed.

(** A gather throws exactly when an index is out of range, and then
    [IndexOutOfRange]. *)
Lemma elem_run {A} (v : list A) (indices : list Z) :
  match Arma.elem v indices with
  | Ok _ => Forall (fun i => 0 <= i < Z.of_nat (length v)) indices
  | Err e => e = IndexOutOfRange /\
             ~ Forall (fun i => 0 <= i < Z.of_nat (length v)) indices
  end.
Proof.
  induction indices as [| i rest IH]; cbn [Arma.elem]; [constructor |].
  rewrite at_run.
  destruct (Z.leb_spec 0 i); cbn [andb].
  2: { split; [reflexivity |]. intros H'. apply Forall_cons in H'. lia. }
  destruct (Z.ltb_spec i (Z.of_nat (length v))).
  2: { split; [reflexivity |]. intros H'. apply Forall_cons in H'. lia. }
  destruct (lookup_lt_is_Some_2 v (Z.to_nat i) ltac:(lia)) as [x ->]. cbn [rbind].
  destruct (Arma.elem v rest) as [ys | e]; cbn [rbind].
  - constructor; [lia | exact IH].
  - destruct IH as (-> & Hn). split; [reflexivity |].
    intros H'. apply Forall_cons in H'. tauto.
Qed.

Section SampleMore.

Variable pow : double -> double -> double.
Variable Rng : Type.
Variable randu : Rng -> double * Rng.

Abbreviation sampleProportional := (sampleProportional Rng randu).
Abbreviation Sample := (Sample pow Rng randu).
Abbreviation weigh := (weigh pow Rng).
Abbreviation weight_of := (weight_of pow).
Abbreviation rng_after := (rng_after Rng randu).

(** [Sample], statement by statement. *)
Lemma Sample_run b beta o g :
  Sample b beta (o, g) =
  match sampleProportional b g with
  | (Err e, g1) => (Err e, (o, g1))
  | (Ok idxes, g1) =>
    let o1 := set_sampledIndices idxes o in
    match Arma.cols (states b) idxes with
    | Err e => (Err e, (o1, g1))
    | Ok v1 =>
    let o2 := set_sampledStates v1 o1 in
    match Arma.elem (actions b) idxes with
    | Err e => (Err e, (o2, g1))
    | Ok v2 =>
    let o3 := set_sampledActions v2 o2 in
    match Arma.elem (rewards b) idxes with
    | Err e => (Err e, (o3, g1))
    | Ok v3 =>
    let o4 := set_sampledRewards v3 o3 in
    match Arma.cols (nextStates b) idxes with
    | Err e => (Err e, (o4, g1))
    | Ok v4 =>
    let o5 := set_sampledNextStates v4 o4 in
    match Arma.elem (isTerminal b) idxes with
    | Err e => (Err e, (o5, g1))
    | Ok v5 =>
    let o6 := set_sampledTerminal v5 o5 in
    match weigh b beta (upperBound b) (length idxes) 0 (o6, g1) with
    | (Err e, s) => (Err e, s)
    | (Ok _, s) =>
      match Arma.max (weights (fst s)) with
      | Err e => (Err e, s)
      | Ok m => (Ok tt, (set_weights (map (fun w => (w / m)%float) (weights (fst s)))
                                     (fst s), snd s))
      end
    end end end end end end
  end.
Proof.
  unfold Replay.Sample. rewrite seq_run. unfold bind at 1, on_rng, out, modify.
  cbn [fst snd].
  destruct (sampleProportional b g) as [[idxes | e] g1]; [| reflexivity].
  cbv zeta.
  do 5 (rewrite seq_run, assign_run; batch_fields;
        match goal with
        | |- context [match ?r with Ok _ => _ | Err _ => _ end] =>
            destruct r; [| reflexivity]
        end; batch_fields).
  rewrite seq_run. unfold bind at 1, get. cbn [fst snd]. batch_fields.
  match goal with
  | |- context [Replay.weigh ?p ?R ?x ?y ?z ?n ?i ?s] =>
      destruct (Replay.weigh p R x y z n i s) as [[[] | e] s6]; [| reflexivity]
  end.
  rewrite assign_run. reflexivity.
Qed.

Lemma sampleProportional_draws b g g' idxes :
  sampleProportional b g = (Ok idxes, g') ->
  g' = rng_after (Z.to_nat (batchSize b)) g.
Proof.
  unfold Replay.sampleProportional, bind, lift.
  destruct (SumTree.RangeSum (idxSum b) 0 (wrap64 (upperBound b - 1))) as [total | e];
    [| discriminate].
  destruct (strata_run Rng randu b (total / of_size_t (batchSize b))%float
              (Z.to_nat (batchSize b)) 0 g) as (idxes' & -> & _ & _).
  intros [= _ <-]. reflexivity.
Qed.

Lemma cols_inv (m v : Arma.mat) (indices : list Z) :
  Arma.cols m indices = Ok v ->
  Arma.n_rows v = Arma.n_rows m /\
  Arma.elem (Arma.columns m) indices = Ok (Arma.columns v).
Proof.
  unfold Arma.cols.
  destruct (Arma.elem (Arma.columns m) indices) as [cs | e]; cbn [rbind];
    [| discriminate].
  intros [= <-]. split; reflexivity.
Qed.

(** What the five gathers of a call that returned have put in the batch. *)
Lemma Sample_gathers b beta o o' g g' :
  Sample b beta (o, g) = (Ok tt, (o', g')) ->
  forall (k : nat) (idx : Z), sampledIndices o' !! k = Some idx ->
    0 <= idx /\ is_Some (sampled o' k) /\ sampled o' k = slot b idx.
Proof.
  intros E k idx Hk.
  destruct (Sample_inv pow Rng randu b beta o g o' g' E)
    as (_ & _ & _ & G1 & G2 & G3 & G4 & G5 & _).
  apply cols_inv in G1, G4. destruct G1 as (_ & G1). destruct G4 as (_ & G4).
  destruct (proj2 (elem_inv _ _ _ G1) k idx Hk) as (H0 & (s & S1) & E1).
  destruct (proj2 (elem_inv _ _ _ G2) k idx Hk) as (_ & (a & S2) & E2).
  destruct (proj2 (elem_inv _ _ _ G3) k idx Hk) as (_ & (r & S3) & E3).
  destruct (proj2 (elem_inv _ _ _ G4) k idx Hk) as (_ & (n & S4) & E4).
  destruct (proj2 (elem_inv _ _ _ G5) k idx Hk) as (_ & (e & S5) & E5).
  split; [lia |]. unfold sampled, slot.
  rewrite <- E1, <- E2, <- E3, <- E4, <- E5, S1, S2, S3, S4, S5.
  split; [eexists; reflexivity | reflexivity].
Qed.

(** X6. A call of [Sample] that returns has called the random generator
    [batchSize] times and has filled the batch with [batchSize] places; at
    each place the sampled state, action, reward, next state and terminal
    flag are those that the buffer holds in the slot of the sampled index,
    and the sampled states have the dimension of the stored ones. *)
Theorem Sample_returns_what_the_slots_hold
    (b : PrioritizedReplay) (beta : double) (o o' : batch) (g g' : Rng) :
  Sample b beta (o, g) = (Ok tt, (o', g')) ->
  g' = rng_after (Z.to_nat (batchSize b)) g /\
  length (sampledIndices o') = Z.to_nat (batchSize b) /\
  Arma.n_rows (sampledStates o') = Arma.n_rows (states b) /\
  Arma.n_rows (sampledNextStates o') = Arma.n_rows (nextStates b) /\
  forall k : nat, (k < Z.to_nat (batchSize b))%nat ->
    exists idx : Z,
      sampledIndices o' !! k = Some idx /\ 0 <= idx /\
      is_Some (sampled o' k) /\ sampled o' k = slot b idx.
Proof.
  intros E.
  destruct (Sample_inv pow Rng randu b beta o g o' g' E)
    as (_ & _ & ES & G1 & _ & _ & G4 & _).
  pose proof (sampleProportional_length Rng randu _ _ _ _ ES) as Hl.
  split; [exact (sampleProportional_draws _ _ _ _ ES) |].
  split; [exact Hl |].
  split; [exact (proj1 (cols_inv _ _ _ G1)) |].
  split; [exact (proj1 (cols_inv _ _ _ G4)) |].
  intros k Hk.
  destruct (lookup_lt_is_Some_2 (sampledIndices o') k ltac:(lia)) as [idx Hi].
  exists idx. split; [exact Hi |]. exact (Sample_gathers b beta o o' g g' E k idx Hi).
Qed.

(** X7. The gathers of [Sample] check every index against the capacity,
    and the sum tree hands out indices up to its own size.  When
    [sampleProportional] returns an index that is not below the capacity,
    [Sample] throws [IndexOutOfRange] at its first gather,
    [sampledStates = states.cols(sampledIndices)]: the generator has made
    its draws, the caller's [sampledIndices] holds the indices drawn, and
    [sampledActions], [sampledRewards], [sampledNextStates], the terminal
    flags and the weights are as the caller passed them.  (What the gather
    that threw has by then put into [sampledStates] is not stated.) *)
Theorem Sample_throws_at_an_index_outside_the_capacity
    (b : PrioritizedReplay) (beta : double) (o : batch) (g g1 : Rng)
    (idxes : list Z) :
  wf b ->
  sampleProportional b g = (Ok idxes, g1) ->
  ~ Forall (fun i => 0 <= i < capacity b) idxes ->
  let r := Sample b beta (o, g) in
  fst r = Err IndexOutOfRange /\
  snd (snd r) = g1 /\
  sampledIndices (fst (snd r)) = idxes /\
  sampledActions (fst (snd r)) = sampledActions o /\
  sampledRewards (fst (snd r)) = sampledRewards o /\
  sampledNextStates (fst (snd r)) = sampledNextStates o /\
  sampledTerminal (fst (snd r)) = sampledTerminal o /\
  weights (fst (snd r)) = weights o.
Proof.
  intros W ES Hbad r. subst r. rewrite Sample_run, ES. cbv zeta. unfold Arma.cols.
  pose proof (elem_run (Arma.columns (states b)) idxes) as R.
  pose proof (wf_states b W) as Hs. unfold Arma.n_cols in Hs. rewrite Hs in R.
  destruct (Arma.elem (Arma.columns (states b)) idxes) as [cs | e]; cbn [rbind].
  - contradiction.
  - destruct R as (-> & _). batch_fields. repeat split; reflexivity.
Qed.

(** The loop of the weights on a vector that ends before the batch does:
    the checked write throws where the vector ends. *)
Lemma weigh_short b beta n (i : nat) (o : batch) (g : Rng) :
  (i <= length (weights o) < i + n)%nat ->
  (forall k : nat, (i <= k < i + n)%nat ->
     exists idx, sampledIndices o !! k = Some idx /\
                 0 <= idx < SumTree.capacity (idxSum b)) ->
  exists w, weigh b beta (upperBound b) n (Z.of_nat i) (o, g)
            = (Err IndexOutOfRange, (set_weights w o, g)) /\
            length w = length (weights o).
Proof.
  revert i o. induction n as [| n IH]; intros i o Hlen Hidx; [lia |].
  rewrite weigh_step.
  destruct (Hidx i ltac:(lia)) as (idx & Hi & Hr).
  rewrite (index_ok _ _ _ Hi). unfold SumTree.leaf.
  rewrite (proj2 (in_range_spec (idxSum b) idx) Hr).
  unfold Arma.set_at. destruct (Z.leb_spec 0 (Z.of_nat i)); [| lia].
  destruct (Z.ltb_spec (Z.of_nat i) (Z.of_nat (length (weights o)))); cbn [andb].
  - match goal with
    | |- context [set_weights ?w o] =>
        destruct (IH (S i) (set_weights w o)) as (w' & E & Hl)
    end.
    + batch_fields. rewrite length_insert. lia.
    + batch_fields. intros k Hk. apply Hidx. lia.
    + exists w'. rewrite E. batch_fields. rewrite length_insert in Hl.
      split; [reflexivity | exact Hl].
  - exists (weights o). split; [destruct o; reflexivity | reflexivity].
Qed.

(** X8. [Sample] never sizes the caller's weight vector: it writes
    [weights(i)] with a bounds check.  On a vector that has fewer entries
    than the batch (one declared and left empty, say) the call throws
    [IndexOutOfRange], after the indices and the five gathers have been
    assigned to the output parameters; the vector keeps its length. *)
Theorem Sample_throws_on_a_short_weight_vector
    (b : PrioritizedReplay) (beta : double) (o : batch) (g g1 : Rng)
    (idxes : list Z) :
  wf b ->
  sampleProportional b g = (Ok idxes, g1) ->
  Forall (fun i => 0 <= i < capacity b) idxes ->
  (length (weights o) < length idxes)%nat ->
  exists o' : batch,
    Sample b beta (o, g) = (Err IndexOutOfRange, (o', g1)) /\
    gathered b idxes o' /\
    length (weights o') = length (weights o).
Proof.
  intros W ES Hall Hshort. rewrite Sample_run, ES. cbv zeta. unfold Arma.cols.
  pose proof (wf_states b W) as Hs. pose proof (wf_nextStates b W) as Hn.
  unfold Arma.n_cols in Hs, Hn.
  pose proof (elem_run (Arma.columns (states b)) idxes) as R1.
  pose proof (elem_run (actions b) idxes) as R2.
  pose proof (elem_run (rewards b) idxes) as R3.
  pose proof (elem_run (Arma.columns (nextStates b)) idxes) as R4.
  pose proof (elem_run (isTerminal b) idxes) as R5.
  rewrite Hs in R1. rewrite (wf_actions b W) in R2. rewrite (wf_rewards b W) in R3.
  rewrite Hn in R4. rewrite (wf_isTerminal b W) in R5.
  destruct (Arma.elem (Arma.columns (states b)) idxes) as [v1 | e] eqn:G1;
    [| exfalso; tauto].
  destruct (Arma.elem (actions b) idxes) as [v2 | e] eqn:G2; [| exfalso; tauto].
  destruct (Arma.elem (rewards b) idxes) as [v3 | e] eqn:G3; [| exfalso; tauto].
  destruct (Arma.elem (Arma.columns (nextStates b)) idxes) as [v4 | e] eqn:G4;
    [| exfalso; tauto].
  destruct (Arma.elem (isTerminal b) idxes) as [v5 | e] eqn:G5; [| exfalso; tauto].
  cbn [rbind]. change 0 with (Z.of_nat 0) at 1.
  match goal with
  | |- context [weigh b beta (upperBound b) (length idxes) (Z.of_nat 0) (?o6, g1)] =>
      destruct (weigh_short b beta (length idxes) 0 o6 g1) as (w & E & Hl)
  end.
  - batch_fields. lia.
  - batch_fields. intros k Hk.
    destruct (lookup_lt_is_Some_2 idxes k ltac:(lia)) as [idx Hi].
    exists idx. split; [exact Hi |].
    pose proof (proj1 (Forall_lookup _ _) Hall k idx Hi) as Hr. cbn beta in Hr.
    pose proof (wf_fits b W). lia.
  - rewrite E. eexists. split; [reflexivity |]. batch_fields.
    split; [| exact Hl]. unfold gathered, Arma.cols. batch_fields.
    rewrite G1, G2, G3, G4, G5. repeat split; reflexivity.
Qed.

(** X9. On a weight vector that is longer than the batch, [Sample] writes
    the first [batchSize] entries and leaves the others as the caller
    passed them; [weights.max()] and [weights /= ...] then run over the
    whole vector, so the stale entries take part in the maximum and are
    divided by it like the fresh ones. *)
Theorem Sample_keeps_and_divides_stale_weights
    (b : PrioritizedReplay) (beta : double) (o o' : batch) (g g' : Rng) :
  Sample b beta (o, g) = (Ok tt, (o', g')) ->
  (Z.to_nat (batchSize b) < length (weights o))%nat ->
  exists (w : list double) (m : double),
    length w = length (weights o) /\
    (forall k : nat, (k < Z.to_nat (batchSize b))%nat ->
       exists idx l, sampledIndices o' !! k = Some idx /\
                     SumTree.leaf (idxSum b) idx = Ok l /\
                     w !! k = Some (weight_of b beta l)) /\
    (forall k : nat, (Z.to_nat (batchSize b) <= k)%nat ->
       w !! k = weights o !! k) /\
    Arma.max w = Ok m /\
    length (weights o') = length (weights o) /\
    forall k : nat,
      weights o' !! k = (fun x => (x / m)%float) <$> (w !! k).
Proof.
  intros E _.
  destruct (Sample_inv pow Rng randu b beta o g o' g' E)
    as (w & m & ES & _ & _ & _ & _ & _ & Hw & Hk & Hstale & Hm & Hn).
  pose proof (sampleProportional_length Rng randu _ _ _ _ ES) as Hl.
  rewrite Hl in Hk, Hstale.
  exists w, m. split; [exact Hw |]. split; [exact Hk |]. split; [exact Hstale |].
  split; [exact Hm |]. rewrite Hn. split; [rewrite length_map; exact Hw |].
  intros k. apply list_lookup_fmap.
Qed.

End SampleMore.

(** ** Sampling a buffer that holds nothing *)

Lemma RangeSum_error t lo hi e :
  SumTree.RangeSum t lo hi = Err e -> e = IndexOutOfRange.
Proof.
  unfold SumTree.RangeSum. destruct (hi <? lo); [discriminate |].
  destruct (SumTree.in_range t lo && SumTree.in_range t hi); [discriminate |].
  congruence.
Qed.

Section EmptyBuffer.

Variable pow : double -> double -> double.
Variable Rng : Type.
Variable randu : Rng -> double * Rng.

Abbreviation sampleProportional := (sampleProportional Rng randu).
Abbreviation Sample := (Sample pow Rng randu).
Abbreviation weigh := (weigh pow Rng).
Abbreviation rng_after := (rng_after Rng randu).
Abbreviation draw := (draw Rng randu).

(** The loop of the weights, however it ends, leaves [sampledIndices] and
    does not end with [EmptyBufferError]. *)
Lemma weigh_frame b beta n (i : nat) (o : batch) (g : Rng) :
  let r := weigh b beta (upperBound b) n (Z.of_nat i) (o, g) in
  sampledIndices (fst (snd r)) = sampledIndices o /\
  fst r <> Err EmptyBufferError.
Proof.
  revert i o. induction n as [| n IH]; intros i o; cbv zeta.
  - cbn [Replay.weigh ret fst snd]. split; [reflexivity | discriminate].
  - rewrite weigh_step, index_lookup.
    destruct (sampledIndices o !! i) as [idx |];
      [| cbn [fst snd]; split; [reflexivity | discriminate]].
    unfold SumTree.leaf.
    destruct (SumTree.in_range (idxSum b) idx);
      [| cbn [fst snd]; split; [reflexivity | discriminate]].
    unfold Arma.set_at.
    destruct ((0 <=? Z.of_nat i) && (Z.of_nat i <? Z.of_nat (length (weights o))));
      [| cbn [fst snd]; split; [reflexivity | discriminate]].
    match goal with
    | |- context [set_weights ?w o] => destruct (IH (S i) (set_weights w o)) as (I1 & I2)
    end.
    split; [rewrite I1; reflexivity | exact I2].
Qed.

(** [Sample] past [sampleProportional]: whatever happens next,
    [sampledIndices] holds the indices drawn, and the call does not end
    with [EmptyBufferError]. *)
Lemma Sample_after_the_draws b beta o g idxes g1 :
  sampleProportional b g = (Ok idxes, g1) ->
  sampledIndices (fst (snd (Sample b beta (o, g)))) = idxes /\
  fst (Sample b beta (o, g)) <> Err EmptyBufferError.
Proof.
  intros ES. rewrite Sample_run, ES. cbv zeta. unfold Arma.cols.
  pose proof (elem_run (Arma.columns (states b)) idxes) as R1.
  pose proof (elem_run (actions b) idxes) as R2.
  pose proof (elem_run (rewards b) idxes) as R3.
  pose proof (elem_run (Arma.columns (nextStates b)) idxes) as R4.
  pose proof (elem_run (isTerminal b) idxes) as R5.
  destruct (Arma.elem (Arma.columns (states b)) idxes) as [v1 | e]; cbn [rbind];
    [| destruct R1 as (-> & _); split; [reflexivity | discriminate]].
  destruct (Arma.elem (actions b) idxes) as [v2 | e];
    [| destruct R2 as (-> & _); split; [reflexivity | discriminate]].
  destruct (Arma.elem (rewards b) idxes) as [v3 | e];
    [| destruct R3 as (-> & _); split; [reflexivity | discriminate]].
  destruct (Arma.elem (Arma.columns (nextStates b)) idxes) as [v4 | e]; cbn [rbind];
    [| destruct R4 as (-> & _); split; [reflexivity | discriminate]].
  destruct (Arma.elem (isTerminal b) idxes) as [v5 | e];
    [| destruct R5 as (-> & _); split; [reflexivity | discriminate]].
  change (Replay.weigh pow Rng b beta (upperBound b) (length idxes) 0)
    with (weigh b beta (upperBound b) (length idxes) (Z.of_nat 0)).
  match goal with
  | |- context [weigh b beta (upperBound b) (length idxes) (Z.of_nat 0) (?o6, ?g6)] =>
      pose proof (weigh_frame b beta (length idxes) 0 o6 g6) as F;
      destruct (weigh b beta (upperBound b) (length idxes) (Z.of_nat 0) (o6, g6))
        as [[[] | e] s6]
  end; cbv zeta in F; batch_fields; destruct F as (F1 & F2).
  - destruct (Arma.max (weights (fst s6))) as [m | e] eqn:EM.
    + batch_fields. split; [exact F1 | discriminate].
    + destruct (weights (fst s6)); [| discriminate EM].
      injection EM as <-. cbn [fst snd]. split; [exact F1 | discriminate].
  - split; [exact F1 | exact F2].
Qed.

Lemma sampleProportional_unfold b g :
  sampleProportional b g =
  match SumTree.RangeSum (idxSum b) 0 (wrap64 (upperBound b - 1)) with
  | Err e => (Err e, g)
  | Ok total =>
      Replay.strata Rng randu b (total / of_size_t (batchSize b))%float
                    (Z.to_nat (batchSize b)) 0 g
  end.
Proof.
  unfold Replay.sampleProportional, bind, lift.
  destruct (SumTree.RangeSum (idxSum b) 0 (wrap64 (upperBound b - 1))); reflexivity.
Qed.

(** C4, as the code has it.  Neither [sampleProportional] nor [Sample]
    checks that the buffer holds something, and neither ever ends with
    [EmptyBufferError].  On a buffer in which nothing has been stored the
    first thing either does is to ask the sum tree for
    [sum(0, upperBound - 1)], where [upperBound - 1] has wrapped to
    [2^64 - 1]; what the tree makes of that range is the tree's doing and
    decides the call.  If the tree throws, the call ends with the tree's
    exception, the output parameters and the random generator as they were.
    If the tree returns a total, no check stops the call: it draws
    [batchSize] indices, one per stratum of that total, and [Sample] assigns
    them to [sampledIndices] and goes on to the gathers. *)
Theorem sampling_an_empty_buffer
    (b : PrioritizedReplay) (beta : double) (o : batch) (g : Rng) :
  fst (sampleProportional b g) <> Err EmptyBufferError /\
  fst (Sample b beta (o, g)) <> Err EmptyBufferError /\
  (position b = 0 -> full b = false ->
   wrap64 (upperBound b - 1) = 2 ^ 64 - 1 /\
   match SumTree.RangeSum (idxSum b) 0 (2 ^ 64 - 1) with
   | Err e =>
       sampleProportional b g = (Err e, g) /\
       Sample b beta (o, g) = (Err e, (o, g))
   | Ok total =>
       exists idxes : list Z,
         sampleProportional b g
         = (Ok idxes, rng_after (Z.to_nat (batchSize b)) g) /\
         length idxes = Z.to_nat (batchSize b) /\
         (forall k : nat, (k < Z.to_nat (batchSize b))%nat ->
            let segment := (total / of_size_t (batchSize b))%float in
            idxes !! k =
            Some (wrap64 (SumTree.FindPrefixSum (idxSum b)
                            (draw k g * segment
                             + of_size_t (Z.of_nat k) * segment)%float))) /\
         sampledIndices (fst (snd (Sample b beta (o, g)))) = idxes
   end).
Proof.
  pose proof (sampleProportional_unfold b g) as U.
  assert (Hsp : fst (sampleProportional b g) <> Err EmptyBufferError /\
                fst (Sample b beta (o, g)) <> Err EmptyBufferError).
  { destruct (SumTree.RangeSum (idxSum b) 0 (wrap64 (upperBound b - 1)))
      as [total | e] eqn:ER.
    - destruct (strata_run Rng randu b (total / of_size_t (batchSize b))%float
                  (Z.to_nat (batchSize b)) 0 g) as (idxes & E & _).
      rewrite E in U. split; [rewrite U; discriminate |].
      exact (proj2 (Sample_after_the_draws b beta o g idxes _ U)).
    - apply RangeSum_error in ER. subst e.
      split; [rewrite U; discriminate |]. rewrite Sample_run, U. discriminate. }
  split; [exact (proj1 Hsp) |]. split; [exact (proj2 Hsp) |].
  intros Hp Hf.
  assert (Ew : wrap64 (upperBound b - 1) = 2 ^ 64 - 1)
    by (unfold upperBound; rewrite Hf, Hp; reflexivity).
  split; [exact Ew |]. rewrite Ew in U.
  destruct (SumTree.RangeSum (idxSum b) 0 (2 ^ 64 - 1)) as [total | e].
  - destruct (strata_run Rng randu b (total / of_size_t (batchSize b))%float
                (Z.to_nat (batchSize b)) 0 g) as (idxes & E & Hl & Hk).
    rewrite E in U. exists idxes.
    split; [exact U |]. split; [exact Hl |]. split; [exact Hk |].
    exact (proj1 (Sample_after_the_draws b beta o g idxes _ U)).
  - split; [exact U |]. rewrite Sample_run, U. reflexivity.
Qed.

End EmptyBuffer.

(** C4 on the buffer that the constructor has just built, where the tree
    as section 4.1 of the specification describes it rejects the range. *)
Lemma sampling_an_empty_buffer_witness :
  let b := Demo.fresh 2 4 1 in
  let g := [0.25%float; 0.5%float] in
  fst (Demo.sampleProportional b g) <> Err EmptyBufferError /\
  fst (Demo.Sample b 1 (Demo.blank 2, g)) <> Err EmptyBufferError /\
  wrap64 (upperBound b - 1) = 2 ^ 64 - 1 /\
  Demo.sampleProportional b g = (Err IndexOutOfRange, g) /\
  Demo.Sample b 1 (Demo.blank 2, g) = (Err IndexOutOfRange, (Demo.blank 2, g)).
Proof.
  intros b g.
  destruct (sampling_an_empty_buffer c_pow Demo.script Demo.next b 1
              (Demo.blank 2) g) as (H1 & H2 & H3).
  split; [exact H1 |]. split; [exact H2 |].
  destruct (H3 eq_refl eq_refl) as (H4 & H5).
  split; [exact H4 |]. exact H5.
Defined.

(** C4, as the specification has it, fails: on the buffer that the
    constructor has just built, the two calls end with [IndexOutOfRange],
    not with [EmptyBufferError]. *)
Lemma sampling_an_empty_buffer_is_not_EmptyBufferError :
  fst (Demo.sampleProportional (Demo.fresh 2 4 1) [0.25%float; 0.5%float])
  = Err IndexOutOfRange /\
  fst (Demo.Sample (Demo.fresh 2 4 1) 1 (Demo.blank 2, [0.25%float; 0.5%float]))
  = Err IndexOutOfRange /\
  @Err (list Z) IndexOutOfRange <> Err EmptyBufferError /\
  new 2 4 1 1 = Ok (Demo.fresh 2 4 1).
Proof. vm_compute. repeat split; try reflexivity. discriminate. Qed.

Lemma fresh_3_is_new : new 2 3 1 1 = Ok MoreInputs.fresh_3.
Proof. vm_compute. reflexivity. Qed.

Lemma two_of_three_wf : wf MoreInputs.two_of_three.
Proof.
  exact (reachable_wf (list double) Demo.encode Z Demo.code c_pow Demo.script
           Demo.next 2 3 1 1 MoreInputs.fresh_3
           [CallStore _ _ (Demo.observe 1 0); CallStore _ _ (Demo.observe 2 0)]
           (Demo.blank 2) [] fresh_3_is_new ltac:(lia)).
Qed.

(** X6 on the buffer of capacity 4 that holds two transitions, with the
    draws 0.25 and 0.5. *)
Lemma Sample_returns_what_the_slots_hold_witness :
  let s := snd (Demo.Sample Inputs.half_filled 1
                  (Demo.blank 2, [0.25%float; 0.5%float])) in
  snd s = rng_after Demo.script Demo.next
            (Z.to_nat (batchSize Inputs.half_filled)) [0.25%float; 0.5%float] /\
  length (sampledIndices (fst s)) = Z.to_nat (batchSize Inputs.half_filled) /\
  Arma.n_rows (sampledStates (fst s)) = Arma.n_rows (states Inputs.half_filled) /\
  Arma.n_rows (sampledNextStates (fst s))
  = Arma.n_rows (nextStates Inputs.half_filled) /\
  forall k : nat, (k < Z.to_nat (batchSize Inputs.half_filled))%nat ->
    exists idx : Z,
      sampledIndices (fst s) !! k = Some idx /\ 0 <= idx /\
      is_Some (sampled (fst s) k) /\
      sampled (fst s) k = slot Inputs.half_filled idx.
Proof.
  apply (Sample_returns_what_the_slots_hold c_pow Demo.script Demo.next
           Inputs.half_filled 1 (Demo.blank 2)
           (fst (snd (Demo.Sample Inputs.half_filled 1
                        (Demo.blank 2, [0.25%float; 0.5%float]))))
           [0.25%float; 0.5%float]
           (snd (snd (Demo.Sample Inputs.half_filled 1
                        (Demo.blank 2, [0.25%float; 0.5%float]))))).
  vm_compute. reflexivity.
Defined.

(** X7 on the buffer of capacity 3 that holds two transitions, with the
    draws 0.5 and the largest double below 1: the second stratum resolves
    to leaf 3 of the tree, and the buffer has slots 0 to 2. *)
Lemma Sample_throws_at_an_index_outside_the_capacity_witness :
  let o := Demo.blank 2 in
  let r := Demo.Sample MoreInputs.two_of_three 1 (o, [0.5%float; Inputs.below_one]) in
  fst r = Err IndexOutOfRange /\
  snd (snd r) = [] /\
  sampledIndices (fst (snd r)) = [0; 3] /\
  sampledActions (fst (snd r)) = sampledActions o /\
  sampledRewards (fst (snd r)) = sampledRewards o /\
  sampledNextStates (fst (snd r)) = sampledNextStates o /\
  sampledTerminal (fst (snd r)) = sampledTerminal o /\
  weights (fst (snd r)) = weights o.
Proof.
  apply (Sample_throws_at_an_index_outside_the_capacity c_pow Demo.script
           Demo.next MoreInputs.two_of_three 1 (Demo.blank 2)
           [0.5%float; Inputs.below_one] [] [0; 3] two_of_three_wf).
  - vm_compute. reflexivity.
  - intros H. apply Forall_cons in H. destruct H as (_ & H).
    apply Forall_cons in H. destruct H as ((_ & H) & _).
    vm_compute in H. discriminate.
Defined.

(** X8 on the buffer of capacity 4 that holds two transitions, with a
    weight vector that the caller declared and left empty. *)
Lemma Sample_throws_on_a_short_weight_vector_witness :
  exists o' : batch,
    Demo.Sample Inputs.half_filled 1 (Demo.blank 0, [0.25%float; 0.5%float])
    = (Err IndexOutOfRange, (o', [])) /\
    gathered Inputs.half_filled [0; 1] o' /\
    length (weights o') = length (weights (Demo.blank 0)).
Proof.
  apply (Sample_throws_on_a_short_weight_vector c_pow Demo.script Demo.next
           Inputs.half_filled 1 (Demo.blank 0) [0.25%float; 0.5%float] []
           [0; 1] half_filled_wf).
  - vm_compute. reflexivity.
  - repeat constructor; vm_compute; congruence.
  - vm_compute. lia.
Defined.

(** X9 on the same buffer, with a weight vector of three entries whose last
    one holds 100: the two fresh weights, each 1 before the division, come
    back as 0.01.  And on the buffer whose only priority is 0, where the
    two fresh weights are NaN: the maximum skips them, it is the stale 100,
    and the vector comes back as NaN, NaN and 1. *)
Lemma Sample_keeps_and_divides_stale_weights_witness :
  let o' := fst (snd (Demo.Sample Inputs.half_filled 1
                        (MoreInputs.stale, [0.25%float; 0.5%float]))) in
  weights o' = [(1 / 100)%float; (1 / 100)%float; 1%float] /\
  weights (fst (snd (Demo.Sample Inputs.zero_mass 1
                       (MoreInputs.stale, [0.25%float; 0.5%float]))))
  = [nan; nan; 1%float] /\
  exists (w : list double) (m : double),
    length w = length (weights MoreInputs.stale) /\
    (forall k : nat, (k < Z.to_nat (batchSize Inputs.half_filled))%nat ->
       exists idx l, sampledIndices o' !! k = Some idx /\
                     SumTree.leaf (idxSum Inputs.half_filled) idx = Ok l /\
                     w !! k = Some (weight_of c_pow Inputs.half_filled 1 l)) /\
    (forall k : nat, (Z.to_nat (batchSize Inputs.half_filled) <= k)%nat ->
       w !! k = weights MoreInputs.stale !! k) /\
    Arma.max w = Ok m /\
    length (weights o') = length (weights MoreInputs.stale) /\
    forall k : nat,
      weights o' !! k = (fun x => (x / m)%float) <$> (w !! k).
Proof.
  split; [vm_compute; reflexivity |]. split; [vm_compute; reflexivity |].
  apply (Sample_keeps_and_divides_stale_weights c_pow Demo.script Demo.next
           Inputs.half_filled 1 MoreInputs.stale
           (fst (snd (Demo.Sample Inputs.half_filled 1
                        (MoreInputs.stale, [0.25%float; 0.5%float]))))
           [0.25%float; 0.5%float]
           (snd (snd (Demo.Sample Inputs.half_filled 1
                        (MoreInputs.stale, [0.25%float; 0.5%float]))))).
  - vm_compute. reflexivity.
  - vm_compute. lia.
Defined.

(** ** Clients: storing and sampling together *)

Section ClientsMore.

Variable StateType : Type.
Variable Encode : StateType -> list double.
Variable ActionType : Type.
Variable action_code : ActionType -> Z.
Variable pow : double -> double -> double.
Variable Rng : Type.
Variable randu : Rng -> double * Rng.

Abbreviation transition := (transition StateType ActionType).
Abbreviation store_one := (store_one StateType Encode ActionType action_code).
Abbreviation row := (row StateType Encode ActionType action_code).
Abbreviation fits := (fits StateType Encode ActionType).
Abbreviation Sample := (Sample pow Rng randu).
Abbreviation call := (call StateType ActionType).
Abbreviation world := (world Rng).
Abbreviation step := (step StateType Encode ActionType action_code pow Rng randu).
Abbreviation run := (run StateType Encode ActionType action_code pow Rng randu).
Abbreviation returned :=
  (returned StateType Encode ActionType action_code pow Rng randu).

(** X10. Round trip.  After [Store] has returned, a [Sample] that returns
    gives, wherever it drew the slot that [Store] wrote, exactly the state,
    action, reward, next state and terminal flag that were stored, and
    wherever it drew another slot, what that slot held before the [Store]. *)
Theorem a_stored_transition_is_sampled_as_stored
    (t : transition) (b : PrioritizedReplay) (beta : double)
    (o o' : batch) (g g' : Rng) :
  wf b ->
  fits (Arma.n_rows (states b)) t ->
  Arma.n_rows (nextStates b) = Arma.n_rows (states b) ->
  Sample (snd (store_one t b)) beta (o, g) = (Ok tt, (o', g')) ->
  forall (k : nat) (idx : Z), sampledIndices o' !! k = Some idx ->
    sampled o' k = if idx =? position b then Some (row t) else slot b idx.
Proof.
  intros W F Hrows E k idx Hk.
  destruct (Sample_gathers pow Rng randu _ beta o o' g g' E k idx Hk)
    as (H0 & _ & ->).
  exact (slot_after_Store StateType Encode ActionType action_code t b idx
           W F Hrows H0).
Qed.

Lemma step_populated (c : call) (w : world) :
  wf (buf Rng w) ->
  let d := returned [c] w in
  0 <= d <= 1 /\
  upperBound (buf Rng (step c w))
  = Z.min (capacity (buf Rng w)) (upperBound (buf Rng w) + d) /\
  position (buf Rng (step c w))
  = (position (buf Rng w) + d) mod capacity (buf Rng w).
Proof.
  intros W. pose proof (wf_position _ W) as Hp.
  pose proof (wf_capacity_bound _ W) as Hc.
  destruct c as [t | beta | indices priorities]; cbn [Tally.returned Client.step buf].
  - unfold Client.store_one.
    pose proof (Store_cursor_cases StateType Encode ActionType action_code
                  (t_state _ _ t) (t_action _ _ t) (t_reward _ _ t)
                  (t_nextState _ _ t) (t_isEnd _ _ t) (buf Rng w)) as H.
    cbv zeta in H. destruct H as (Hcap & H).
    rewrite wrap64_small in H by lia. unfold upperBound. rewrite Hcap.
    destruct H as [(Hr & -> & ->) | [(Hr & Hne & -> & ->) | (Hr & He & -> & ->)]].
    + destruct (fst _) as [[] | e]; [congruence |]. cbn [is_ok].
      rewrite !Z.add_0_r, Z.mod_small by lia.
      destruct (full (buf Rng w)); lia.
    + rewrite Hr. cbn [is_ok]. rewrite Z.add_0_r, Z.mod_small by lia.
      destruct (full (buf Rng w)); lia.
    + rewrite Hr. cbn [is_ok]. rewrite Z.add_0_r, He, Z_mod_same_full.
      destruct (full (buf Rng w)); lia.
  - rewrite !Z.add_0_r, Z.mod_small by lia.
    unfold upperBound. destruct (full (buf Rng w)); lia.
  - unfold update_priorities.
    pose proof (update_loop_frame indices priorities (length indices) 0 (buf Rng w)) as H.
    cbv zeta in H. destruct H as (H1 & H2 & H3 & _).
    unfold upperBound. rewrite H1, H2, H3, !Z.add_0_r, Z.mod_small by lia.
    destruct (full (buf Rng w)); lia.
Qed.

Lemma run_populated (cs : list call) (w : world) :
  wf (buf Rng w) ->
  0 <= returned cs w /\
  upperBound (buf Rng (run cs w))
  = Z.min (capacity (buf Rng w)) (upperBound (buf Rng w) + returned cs w) /\
  position (buf Rng (run cs w))
  = (position (buf Rng w) + returned cs w) mod capacity (buf Rng w).
Proof.
  revert w. induction cs as [| c cs IH]; intros w W.
  - cbn [Tally.returned Client.run fold_left].
    pose proof (wf_position _ W) as Hp.
    rewrite !Z.add_0_r, Z.mod_small by lia.
    unfold upperBound. destruct (full (buf Rng w)); lia.
  - destruct (step_populated c w W) as (Hd & Hu & Hq).
    destruct (IH (step c w) (step_keeps_wf StateType Encode ActionType action_code
                                pow Rng randu c w W)) as (Hr & Hu' & Hq').
    assert (Hcap : capacity (buf Rng (step c w)) = capacity (buf Rng w)).
    { apply (step_cursor StateType Encode ActionType action_code pow Rng randu c w).
      - exact (wf_capacity_bound _ W).
      - exact (wf_position _ W). }
    change (run (c :: cs) w) with (run cs (step c w)).
    assert (Hsum : returned (c :: cs) w = returned [c] w + returned cs (step c w)).
    { cbn [Tally.returned]. lia. }
    rewrite Hsum, Hu', Hq', Hu, Hq, Hcap.
    split; [lia |]. split; [lia |].
    rewrite Z.add_mod_idemp_l by (pose proof (wf_capacity _ W); lia).
    f_equal. lia.
Qed.

(** X11. On a buffer that the constructor built for a positive capacity,
    after any sequence of calls of the three methods, throwing or not, the
    number of populated slots [full ? capacity : position], from which
    [Sample] draws, is the smaller of the capacity and the number of calls
    of [Store] that returned, and the cursor is that number modulo the
    capacity. *)
Theorem populated_slots_count_the_stores_that_returned
    (batchSize capacity : Z) (alpha : double) (dimension : Z)
    (b0 : PrioritizedReplay) (cs : list call) (o : batch) (g : Rng) :
  new batchSize capacity alpha dimension = Ok b0 ->
  0 < capacity ->
  let w0 := {| buf := b0; outs := o; gen := g |} in
  upperBound (buf Rng (run cs w0)) = Z.min capacity (returned cs w0) /\
  position (buf Rng (run cs w0)) = returned cs w0 mod capacity.
Proof.
  intros Hnew Hpos w0. subst w0.
  pose proof (new_wf _ _ _ _ _ Hnew Hpos) as W.
  destruct (new_inversion _ _ _ _ _ Hnew) as (_ & Hc & Hp & Hf & _).
  destruct (run_populated cs {| buf := b0; outs := o; gen := g |} W)
    as (_ & Hu & Hq).
  cbn [buf] in Hu, Hq. unfold upperBound at 2 in Hu.
  rewrite Hf, Hp, Hc, Z.add_0_l in Hu. rewrite Hp, Hc, Z.add_0_l in Hq.
  split; assumption.
Qed.

End ClientsMore.

(** X10 on the full buffer of capacity 2, whose cursor is at slot 0: the new
    transition is stored over slot 0, and sampling then draws slots 0
    and 1. *)
Lemma a_stored_transition_is_sampled_as_stored_witness :
  let b := Inputs.full_3_1 in
  let t := Demo.observe 5 1 in
  let o' := fst (snd (Demo.Sample
                        (snd (Client.store_one (list double) Demo.encode Z
                                Demo.code t b))
                        1 (Demo.blank 2, [0.25%float; 0.5%float]))) in
  sampledIndices o' = [0; 1] /\
  forall (k : nat) (idx : Z), sampledIndices o' !! k = Some idx ->
    sampled o' k =
    if idx =? position b
    then Some (Client.row (list double) Demo.encode Z Demo.code t)
    else slot b idx.
Proof.
  split; [vm_compute; reflexivity |].
  apply (a_stored_transition_is_sampled_as_stored (list double) Demo.encode Z
           Demo.code c_pow Demo.script Demo.next (Demo.observe 5 1)
           Inputs.full_3_1 1 (Demo.blank 2)
           (fst (snd (Demo.Sample
                        (snd (Client.store_one (list double) Demo.encode Z
                                Demo.code (Demo.observe 5 1) Inputs.full_3_1))
                        1 (Demo.blank 2, [0.25%float; 0.5%float]))))
           [0.25%float; 0.5%float]
           (snd (snd (Demo.Sample
                        (snd (Client.store_one (list double) Demo.encode Z
                                Demo.code (Demo.observe 5 1) Inputs.full_3_1))
                        1 (Demo.blank 2, [0.25%float; 0.5%float]))))
           full_3_1_wf).
  - vm_compute. split; reflexivity.
  - reflexivity.
  - vm_compute. reflexivity.
Defined.

(** X11 on the buffer of capacity 4, for a run of six calls of [Store], one
    of which throws, a [Sample] and an [update_priorities]: five calls
    stored, so all 4 slots are populated and the cursor is at slot 1. *)
Lemma populated_slots_count_the_stores_that_returned_witness :
  let cs : list Demo.call :=
    [CallStore _ _ (Demo.observe 1 0); CallStore _ _ (Demo.observe 2 0);
     CallStore _ _ {| t_state := [1%float; 2%float]; t_action := 0;
                      t_reward := 0%float; t_nextState := [1%float];
                      t_isEnd := false |};
     CallSample _ _ 1%float; CallUpdate _ _ [0] [3];
     CallStore _ _ (Demo.observe 3 0); CallStore _ _ (Demo.observe 4 0);
     CallStore _ _ (Demo.observe 5 0)] in
  let w0 := {| buf := Demo.fresh 2 4 1; outs := Demo.blank 2;
               gen := [0.25%float; 0.5%float] |} in
  returned (list double) Demo.encode Z Demo.code c_pow Demo.script Demo.next cs w0
  = 5 /\
  upperBound (buf _ (Demo.run cs w0))
  = Z.min 4 (returned (list double) Demo.encode Z Demo.code c_pow Demo.script
               Demo.next cs w0) /\
  position (buf _ (Demo.run cs w0))
  = returned (list double) Demo.encode Z Demo.code c_pow Demo.script
      Demo.next cs w0 mod 4.
Proof.
  split; [vm_compute; reflexivity |].
  apply (populated_slots_count_the_stores_that_returned (list double)
           Demo.encode Z Demo.code c_pow Demo.script Demo.next 2 4 1 1
           (Demo.fresh 2 4 1)).
  - exact fresh_is_new_2_4.
  - lia.
Defined.

(** ** When [Sample] returns *)

Section SampleReturns.

Variable pow : double -> double -> double.
Variable Rng : Type.
Variable randu : Rng -> double * Rng.

Abbreviation sampleProportional := (sampleProportional Rng randu).
Abbreviation Sample := (Sample pow Rng randu).
Abbreviation weigh := (weigh pow Rng).

(** The loop of the weights on a vector that is long enough, over indices
    that are leaves of the tree: it does not throw. *)
Lemma weigh_ok b beta n (i : nat) (o : batch) (g : Rng) :
  (i + n <= length (weights o))%nat ->
  (forall k : nat, (i <= k < i + n)%nat ->
     exists idx, sampledIndices o !! k = Some idx /\
                 0 <= idx < SumTree.capacity (idxSum b)) ->
  exists w, weigh b beta (upperBound b) n (Z.of_nat i) (o, g)
            = (Ok tt, (set_weights w o, g)) /\
            length w = length (weights o).
Proof.
  revert i o. induction n as [| n IH]; intros i o Hlen Hidx.
  - exists (weights o). cbn [Replay.weigh ret].
    split; [destruct o; reflexivity | reflexivity].
  - rewrite weigh_step.
    destruct (Hidx i ltac:(lia)) as (idx & Hi & Hr).
    rewrite (index_ok _ _ _ Hi). unfold SumTree.leaf.
    rewrite (proj2 (in_range_spec (idxSum b) idx) Hr).
    rewrite set_at_ok by lia.
    match goal with
    | |- context [set_weights ?w o] =>
        destruct (IH (S i) (set_weights w o)) as (w' & E & Hl)
    end.
    + batch_fields. rewrite length_insert. lia.
    + batch_fields. intros k Hk. apply Hidx. lia.
    + exists w'. rewrite E. batch_fields. rewrite length_insert in Hl.
      split; [reflexivity | exact Hl].
Qed.

(** X12. On a buffer in good shape that holds at least one transition and
    whose capacity is a power of two (so that the sum tree has one leaf per
    slot), [Sample] returns normally whenever the caller's weight vector is
    not empty and has at least [batchSize] entries: no generator, no
    priorities and no [beta] make it throw. *)
Theorem Sample_returns_when_the_capacity_is_a_power_of_two
    (b : PrioritizedReplay) (beta : double) (o : batch) (g : Rng) :
  wf b ->
  capacity b = SumTree.size (idxSum b) ->
  0 < upperBound b ->
  (Z.to_nat (batchSize b) <= length (weights o))%nat ->
  weights o <> [] ->
  fst (Sample b beta (o, g)) = Ok tt.
Proof.
  intros W Hpow Hub Hlen Hne.
  destruct (sampleProportional_run Rng randu b g W Hub)
    as (total & idxes & _ & ES & Hl & Hk).
  assert (Hall : Forall (fun i => 0 <= i < capacity b) idxes).
  { apply Forall_lookup. intros k idx Hi.
    pose proof (lookup_lt_Some _ _ _ Hi) as Hlt.
    rewrite (Hk k ltac:(lia)) in Hi. cbv zeta in Hi. injection Hi as <-.
    rewrite Hpow. apply FindPrefixSum_range; [exact (wf_tree b W) |].
    exact (wf_whole b W). }
  rewrite Sample_run, ES. cbv zeta. unfold Arma.cols.
  pose proof (wf_states b W) as Hs. pose proof (wf_nextStates b W) as Hn.
  unfold Arma.n_cols in Hs, Hn.
  pose proof (elem_run (Arma.columns (states b)) idxes) as R1.
  pose proof (elem_run (actions b) idxes) as R2.
  pose proof (elem_run (rewards b) idxes) as R3.
  pose proof (elem_run (Arma.columns (nextStates b)) idxes) as R4.
  pose proof (elem_run (isTerminal b) idxes) as R5.
  rewrite Hs in R1. rewrite (wf_actions b W) in R2. rewrite (wf_rewards b W) in R3.
  rewrite Hn in R4. rewrite (wf_isTerminal b W) in R5.
  destruct (Arma.elem (Arma.columns (states b)) idxes) as [v1 | e];
    [| exfalso; tauto].
  destruct (Arma.elem (actions b) idxes) as [v2 | e]; [| exfalso; tauto].
  destruct (Arma.elem (rewards b) idxes) as [v3 | e]; [| exfalso; tauto].
  destruct (Arma.elem (Arma.columns (nextStates b)) idxes) as [v4 | e];
    [| exfalso; tauto].
  destruct (Arma.elem (isTerminal b) idxes) as [v5 | e]; [| exfalso; tauto].
  cbn [rbind]. change 0 with (Z.of_nat 0) at 1.
  match goal with
  | |- context [weigh b beta (upperBound b) (length idxes) (Z.of_nat 0) (?o6, ?g1)] =>
      destruct (weigh_ok b beta (length idxes) 0 o6 g1) as (w & E & Hw)
  end.
  - batch_fields. lia.
  - batch_fields. intros k Hk'.
    destruct (lookup_lt_is_Some_2 idxes k ltac:(lia)) as [idx Hi].
    exists idx. split; [exact Hi |].
    pose proof (proj1 (Forall_lookup _ _) Hall k idx Hi) as Hr. cbn beta in Hr.
    pose proof (wf_fits b W). lia.
  - rewrite E. batch_fields.
    destruct w as [| x xs].
    + destruct (weights o); [congruence | discriminate].
    + reflexivity.
Qed.

(** X13. With a batch size of 0 on a buffer that holds a transition,
    [sampleProportional] returns no index and calls the generator not once,
    and [Sample], given an empty weight vector, throws at [weights.max()]:
    it does not return an empty batch. *)
Theorem Sample_with_a_batch_size_of_zero
    (b : PrioritizedReplay) (beta : double) (o : batch) (g : Rng) :
  wf b ->
  0 < upperBound b ->
  batchSize b = 0 ->
  sampleProportional b g = (Ok [], g) /\
  (weights o = [] ->
   fst (Sample b beta (o, g)) = Err LogicError /\
   snd (snd (Sample b beta (o, g))) = g).
Proof.
  intros W Hub Hz.
  destruct (sampleProportional_run Rng randu b g W Hub)
    as (total & idxes & _ & ES & Hl & _).
  rewrite Hz in Hl, ES. change (Z.to_nat 0) with 0%nat in Hl, ES.
  destruct idxes; [| discriminate]. cbn [Draws.rng_after] in ES.
  split; [exact ES |].
  intros Hw. rewrite Sample_run, ES. cbv zeta.
  cbn [Arma.cols Arma.elem rbind length Replay.weigh ret]. batch_fields.
  rewrite Hw. split; reflexivity.
Qed.

End SampleReturns.

Lemma Sample_returns_when_the_capacity_is_a_power_of_two_witness :
  fst (Demo.Sample Inputs.half_filled 1
         (Demo.blank 2, [0.5%float; Inputs.below_one])) = Ok tt.
Proof.
  apply (Sample_returns_when_the_capacity_is_a_power_of_two c_pow Demo.script
           Demo.next Inputs.half_filled 1 (Demo.blank 2)
           [0.5%float; Inputs.below_one] half_filled_wf).
  - reflexivity.
  - vm_compute. reflexivity.
  - vm_compute. lia.
  - vm_compute. discriminate.
Defined.

Lemma no_batch_wf : wf MoreInputs.no_batch.
Proof.
  exact (reachable_wf (list double) Demo.encode Z Demo.code c_pow Demo.script
           Demo.next 0 4 1 1 (Demo.fresh 0 4 1)
           [CallStore _ _ (Demo.observe 1 0); CallStore _ _ (Demo.observe 2 0)]
           (Demo.blank 0) [] ltac:(vm_compute; reflexivity) ltac:(lia)).
Qed.

Lemma Sample_with_a_batch_size_of_zero_witness :
  Demo.sampleProportional MoreInputs.no_batch [0.25%float] = (Ok [], [0.25%float]) /\
  fst (Demo.Sample MoreInputs.no_batch 1 (Demo.blank 0, [0.25%float]))
  = Err LogicError /\
  snd (snd (Demo.Sample MoreInputs.no_batch 1 (Demo.blank 0, [0.25%float])))
  = [0.25%float].
Proof.
  destruct (Sample_with_a_batch_size_of_zero c_pow Demo.script Demo.next
              MoreInputs.no_batch 1 (Demo.blank 0) [0.25%float] no_batch_wf
              ltac:(vm_compute; reflexivity) ltac:(reflexivity)) as (H1 & H2).
  split; [exact H1 |]. apply H2. reflexivity.
Defined.

(** ** A buffer of capacity 0 *)

Section CapacityZero.

Variable StateType : Type.
Variable Encode : StateType -> list double.
Variable ActionType : Type.
Variable action_code : ActionType -> Z.
Variable pow : double -> double -> double.
Variable Rng : Type.
Variable randu : Rng -> double * Rng.

Abbreviation transition := (transition StateType ActionType).
Abbreviation store_one := (store_one StateType Encode ActionType action_code).
Abbreviation Sample := (Sample pow Rng randu).
Abbreviation call := (call StateType ActionType).
Abbreviation world := (world Rng).
Abbreviation step := (step StateType Encode ActionType action_code pow Rng randu).
Abbreviation run := (run StateType Encode ActionType action_code pow Rng randu).

Lemma no_slot_Store (t : transition) b :
  no_slot b -> store_one t b = (Err IndexOutOfRange, b).
Proof.
  intros (Hs & Hp & _). unfold Client.store_one, Replay.Store.
  rewrite seq_run, assign_run. unfold Arma.set_col, Arma.n_cols.
  rewrite Hs, Hp. reflexivity.
Qed.

Lemma no_slot_step (c : call) (w : world) :
  no_slot (buf Rng w) -> no_slot (buf Rng (step c w)).
Proof.
  intros H. destruct c as [t | beta | indices priorities]; cbn [Client.step buf].
  - rewrite (no_slot_Store t _ H). exact H.
  - exact H.
  - destruct H as (Hs & Hp & Hf). unfold update_priorities, no_slot.
    destruct (update_loop_frame indices priorities (length indices) 0 (buf Rng w))
      as (_ & -> & -> & -> & _).
    repeat split; assumption.
Qed.

(** X14. The constructor accepts capacity 0, and the buffer it returns can
    never hold anything: after any sequence of calls, every [Store] throws
    [IndexOutOfRange] and leaves the buffer as it was, no slot is
    populated, and no slot holds a transition that a gather could
    return. *)
Theorem a_buffer_of_capacity_zero_holds_nothing
    (batchSize : Z) (alpha : double) (dimension : Z)
    (b0 : PrioritizedReplay) (cs : list call) (o : batch) (g : Rng) :
  new batchSize 0 alpha dimension = Ok b0 ->
  let w := run cs {| buf := b0; outs := o; gen := g |} in
  upperBound (buf Rng w) = 0 /\
  (forall t : transition, store_one t (buf Rng w) = (Err IndexOutOfRange, buf Rng w)) /\
  (forall j : Z, slot (buf Rng w) j = None).
Proof.
  intros Hnew w.
  assert (H : no_slot (buf Rng w)).
  { subst w.
    assert (H0 : no_slot b0).
    { unfold new in Hnew. cbn in Hnew. injection Hnew as <-.
      unfold no_slot. cbn. repeat split; reflexivity. }
    change b0 with (buf Rng {| buf := b0; outs := o; gen := g |}) in H0.
    revert H0. generalize {| buf := b0; outs := o; gen := g |}.
    induction cs as [| c cs IH]; intros w0 H0; cbn [Client.run fold_left].
    - exact H0.
    - apply IH. apply no_slot_step. exact H0. }
  split.
  - destruct H as (_ & Hp & Hf). unfold upperBound. rewrite Hf. exact Hp.
  - split.
    + intros t. exact (no_slot_Store t _ H).
    + intros j. destruct H as (Hs & _). unfold slot. rewrite Hs.
      rewrite lookup_nil. reflexivity.
Qed.

End CapacityZero.

Lemma a_buffer_of_capacity_zero_holds_nothing_witness :
  let w := Demo.run [CallStore _ _ (Demo.observe 1 0); CallUpdate _ _ [0] [3]]
             {| buf := MoreInputs.fresh_0; outs := Demo.blank 2;
                gen := [0.25%float; 0.5%float] |} in
  upperBound (buf _ w) = 0 /\
  (forall t : Demo.transition,
     Client.store_one (list double) Demo.encode Z Demo.code t (buf _ w)
     = (Err IndexOutOfRange, buf _ w)) /\
  (forall j : Z, slot (buf _ w) j = None).
Proof.
  apply (a_buffer_of_capacity_zero_holds_nothing (list double) Demo.encode Z
           Demo.code c_pow Demo.script Demo.next 2 1 1 MoreInputs.fresh_0).
  vm_compute. reflexivity.
Defined.

(** ** [update_priorities] and then [Store] *)

Section PriorityOfNewTransitions.

Variable StateType : Type.
Variable Encode : StateType -> list double.
Variable ActionType : Type.
Variable action_code : ActionType -> Z.

Abbreviation transition := (transition StateType ActionType).
Abbreviation store_one := (store_one StateType Encode ActionType action_code).
Abbreviation fits := (fits StateType Encode ActionType).

(** X15. The two methods together: the priority leaf of a transition
    stored after a call of [update_priorities] is the product of [alpha]
    with the largest of the old [max_priority] and the priorities that the
    call passed, whichever slots those priorities were for; the leaves of
    the slots that were neither updated nor stored into keep their
    values. *)
Theorem a_new_transition_gets_the_largest_priority_seen
    (t : transition) (b : PrioritizedReplay) (indices priorities : list Z) :
  wf b ->
  length indices = length priorities ->
  Forall (fun idx => 0 <= idx < SumTree.capacity (idxSum b)) indices ->
  fits (Arma.n_rows (states b)) t ->
  Arma.n_rows (nextStates b) = Arma.n_rows (states b) ->
  let b1 := snd (update_priorities indices priorities b) in
  let r := store_one t b1 in
  fst r = Ok tt /\
  SumTree.leaf (idxSum (snd r)) (position b)
  = Ok (fold_left (fun m p => dmax m (of_size_t p)) priorities (max_priority b)
        * alpha b)%float /\
  forall j : Z, j ∉ indices -> j <> position b ->
    SumTree.leaf (idxSum (snd r)) j = SumTree.leaf (idxSum b) j.
Proof.
  intros W Hlen Hall [Fs Fn] Hrows b1 r. subst r b1.
  unfold update_priorities. change 0 with (Z.of_nat 0).
  destruct (update_loop_ok indices priorities (length indices) 0 b W
              ltac:(lia) ltac:(lia) ltac:(rewrite drop_0; exact Hall))
    as (_ & W1 & Hmax & Hleaf).
  rewrite !drop_0 in *.
  destruct (update_loop_frame indices priorities (length indices) (Z.of_nat 0) b)
    as (_ & Hp & _ & Hs & _ & _ & Hn & _ & Ha & _).
  set (b1 := snd (update_loop indices priorities (length indices) (Z.of_nat 0) b)) in *.
  unfold Client.store_one.
  destruct (Store_ok StateType Encode ActionType action_code
              (t_state _ _ t) (t_action _ _ t) (t_reward _ _ t)
              (t_nextState _ _ t) (t_isEnd _ _ t) b1 W1
              ltac:(rewrite Hs; exact Fs) ltac:(rewrite Hn; congruence))
    as (t' & EU & E).
  rewrite E. fields. split; [reflexivity |].
  rewrite Hp, Hmax, Ha in EU. split.
  - exact (leaf_Update_same _ _ _ _ (wf_tree b1 W1) EU).
  - intros j Hj Hne. rewrite <- (Hleaf j Hj).
    exact (leaf_Update_other _ _ _ _ j (wf_tree b1 W1) EU Hne).
Qed.

End PriorityOfNewTransitions.

(** X15 on the buffer of capacity 4 that holds two transitions: after the
    priorities 3 and 7 were passed for slots 0 and 1, the transition stored
    in slot 2 has the leaf 7. *)
Lemma a_new_transition_gets_the_largest_priority_seen_witness :
  let b1 := snd (update_priorities [0; 1] [3; 7] Inputs.half_filled) in
  let r := Client.store_one (list double) Demo.encode Z Demo.code
             (Demo.observe 5 1) b1 in
  fst r = Ok tt /\
  SumTree.leaf (idxSum (snd r)) (position Inputs.half_filled)
  = Ok (fold_left (fun m p => dmax m (of_size_t p)) [3%Z; 7%Z]
                  (max_priority Inputs.half_filled)
        * alpha Inputs.half_filled)%float /\
  forall j : Z, j ∉ [0; 1] -> j <> position Inputs.half_filled ->
    SumTree.leaf (idxSum (snd r)) j = SumTree.leaf (idxSum Inputs.half_filled) j.
Proof.
  apply (a_new_transition_gets_the_largest_priority_seen (list double)
           Demo.encode Z Demo.code (Demo.observe 5 1) Inputs.half_filled
           [0; 1] [3; 7] half_filled_wf).
  - reflexivity.
  - repeat constructor; vm_compute; congruence.
  - vm_compute. split; reflexivity.
  - reflexivity.
Defined.
